(** * envchain: a shallow embedding of the credential model

    The development follows the two C sources: [envchain_osx.c] (the macOS
    keychain backend: service-name codec, item lookup, access control,
    enumeration) and [envchain.c] (command line: [--set], [--list],
    [--unset], [--set-access], exec mode, namespace inference, [main]).

    Representation.  A [const char*] is modelled by the [string] of the
    characters that precede its terminating NUL.  Keychain attributes and
    payloads are length-delimited byte buffers; they are strings too, may
    hold NUL bytes, and [cstr] is applied at the places where the C code
    hands such a buffer to a consumer of C strings.  Stateful code is
    written in a small monad over the [world] the process runs in; [exit]
    and a successful [execvp] end the computation. *)

From Stdlib Require Import ZArith Ascii String.
From stdpp Require Import base option list sorting strings gmap.

Local Open Scope Z_scope.

(** ** C strings *)

Module CString.

Definition NUL : ascii := Ascii.zero.
Definition newline : string := String (ascii_of_nat 10) EmptyString.

(** The C-string view of a buffer: the bytes before the first NUL. *)
Fixpoint cstr (s : string) : string :=
  match s with
  | EmptyString => EmptyString
  | String c r => if decide (c = NUL) then EmptyString else String c (cstr r)
  end.

Definition strlen (s : string) : nat := String.length s.

(** [strcmp] compares bytes as unsigned characters; only the sign of the
    result is specified by C, it is normalised to -1, 0, 1 here. *)
Definition strcmp (a b : string) : Z :=
  match String.compare a b with
  | Eq => 0
  | Lt => -1
  | Gt => 1
  end.

Definition strncmp (a b : string) (n : nat) : Z :=
  strcmp (String.substring 0 n a) (String.substring 0 n b).

(** [s[0]], the terminator when [s] is empty. *)
Definition first_char (s : string) : ascii :=
  match s with
  | EmptyString => NUL
  | String c _ => c
  end.

(** [strchr(s, c) != NULL], for [c] other than NUL. *)
Fixpoint strchr (s : string) (c : ascii) : bool :=
  match s with
  | EmptyString => false
  | String d r => if decide (d = c) then true else strchr r c
  end.

(** The tokens that repeated [strsep(&s, delim)] yields until it returns
    NULL, for a one-character delimiter set: every delimiter ends a token,
    so there is always at least one token and tokens may be empty. *)
Fixpoint strsep_all (s : string) (delim : ascii) : list string :=
  match s with
  | EmptyString => [EmptyString]
  | String c r =>
      if decide (c = delim) then EmptyString :: strsep_all r delim
      else match strsep_all r delim with
           | [] => [String c EmptyString]
           | t :: ts => String c t :: ts
           end
  end.

End CString.
Export CString.

(** ** The keychain, as the Security framework presents it *)

Module Keychain.

(** OSStatus values of [SecBase.h]. *)
Definition noErr : Z := 0.
Definition errSecDuplicateItem : Z := -25299.
Definition errSecItemNotFound : Z := -25300.
Definition errSecInvalidItemRef : Z := -25304.

(** [SecKeychainPromptSelector] of [SecACL.h], a 16-bit set of flags. *)
Definition kSecKeychainPromptRequirePassphase : Z := 1.

Definition errSecNoSuchKeychain : Z := -25294.

Inductive authorization :=
| kSecACLAuthorizationDecrypt
| kSecACLAuthorizationEncrypt
| kSecACLAuthorizationSign
| kSecACLAuthorizationChangeACL.

Global Instance authorization_eq_dec : EqDecision authorization.
Proof. solve_decision. Defined.

(** One entry of an access object.  A trusted application is identified
    by the path it was created from; [acl_apps = None] is the NULL list
    (any application is trusted). *)
Record acl := Acl {
  acl_authorizations : list authorization;
  acl_apps : option (list string);
  acl_description : string;
  acl_prompt : Z
}.

Abbreviation access := (list acl).

(** A generic-password item. *)
Record item := Item {
  item_service : string;
  item_account : string;
  item_description : string;
  item_data : string;
  item_access : access
}.

(** A [SecKeychainItemRef] is the position of the item in its keychain. *)
Abbreviation SecKeychainItemRef := nat.

Definition set_item_data (d : string) (it : item) : item :=
  Item (item_service it) (item_account it) (item_description it) d (item_access it).

Definition set_item_description (d : string) (it : item) : item :=
  Item (item_service it) (item_account it) d (item_data it) (item_access it).

Definition set_item_access (a : access) (it : item) : item :=
  Item (item_service it) (item_account it) (item_description it) (item_data it) a.

Definition matches (service account : string) (it : item) : bool :=
  bool_decide (item_service it = service) && bool_decide (item_account it = account).

(** Position of the first item that satisfies [p]. *)
Fixpoint find_index (p : item -> bool) (l : list item) : option nat :=
  match l with
  | [] => None
  | it :: r => if p it then Some 0%nat else S <$> find_index p r
  end.

(** Positions of all items that satisfy [p], in keychain order. *)
Fixpoint find_indices (p : item -> bool) (i : nat) (l : list item) : list nat :=
  match l with
  | [] => []
  | it :: r => if p it then i :: find_indices p (S i) r else find_indices p (S i) r
  end.

End Keychain.
Export Keychain.

(** ** The world a process runs in, and the monad of its computations *)

Inductive output :=
| Text (s : string)
| OSStatusText (status : Z).  (* the text SecCopyErrorMessageString gives for a status *)

(** What the operating system decides, fixed during one run. *)
Record system := System {
  new_item_access : access;            (* access a freshly added item receives *)
  self_exec_path : string;             (* _NSGetExecutablePath *)
  self_real_path : option string;      (* realpath of it, None when it fails *)
  existing_paths : gset string;        (* access(path, F_OK) == 0 *)
  programs : gset string;              (* what execvp can start *)
  terminal : bool;                     (* stdin is a terminal *)
  errno_text : string                  (* strerror(errno) after a failed call *)
}.

Record world := World {
  sys : system;
  envchain_name : string;
  envchain_keychain : option string;   (* NULL, or the keychain opened from a path *)
  default_keychain : list item;        (* the default search list *)
  keychain_files : gmap string (list item);
  environ : gmap string string;
  stdin : list (option string);        (* results of the coming line reads *)
  stdout : list string;
  stderr : list output
}.

Inductive halt :=
| Exited (status : Z)
| Replaced (exe : string) (args : list string).

Inductive result (A : Type) :=
| Ret (a : A) (w : world)
| Halt (h : halt) (w : world).
Arguments Ret {A} a w.
Arguments Halt {A} h w.

Definition M (A : Type) : Type := world -> result A.

Definition ret {A} (a : A) : M A := fun w => Ret a w.

Definition bind {A B} (m : M A) (k : A -> M B) : M B :=
  fun w => match m w with
           | Ret a w' => k a w'
           | Halt h w' => Halt h w'
           end.

Notation "'let*' x ':=' m 'in' k" := (bind m (fun x => k))
  (at level 10, x pattern, m at level 100, k at level 200).
Notation "m ';;' k" := (bind m (fun _ => k))
  (at level 100, k at level 200, right associativity, only parsing).

Definition exit {A} (status : Z) : M A := fun w => Halt (Exited status) w.

Definition eprint (o : output) : M unit :=
  fun w => Ret tt (World (sys w) (envchain_name w) (envchain_keychain w)
                     (default_keychain w) (keychain_files w) (environ w)
                     (stdin w) (stdout w) (stderr w ++ [o])).

Definition print (s : string) : M unit :=
  fun w => Ret tt (World (sys w) (envchain_name w) (envchain_keychain w)
                     (default_keychain w) (keychain_files w) (environ w)
                     (stdin w) (stdout w ++ [s]) (stderr w)).

Definition gets {A} (f : world -> A) : M A := fun w => Ret (f w) w.

(** The items of the active keychain. *)
Definition items (w : world) : list item :=
  match envchain_keychain w with
  | None => default_keychain w
  | Some path => default [] (keychain_files w !! path)
  end.

Definition set_items (l : list item) (w : world) : world :=
  match envchain_keychain w with
  | None =>
      World (sys w) (envchain_name w) (envchain_keychain w) l
        (keychain_files w) (environ w) (stdin w) (stdout w) (stderr w)
  | Some path =>
      World (sys w) (envchain_name w) (envchain_keychain w) (default_keychain w)
        (<[path := l]> (keychain_files w)) (environ w) (stdin w) (stdout w) (stderr w)
  end.

Definition put_items (l : list item) : M unit := fun w => Ret tt (set_items l w).

Fixpoint for_each {A} (f : A -> M unit) (l : list A) : M unit :=
  match l with
  | [] => ret tt
  | x :: r => f x;; for_each f r
  end.

(** Threading a [void *data] through the calls of a callback. *)
Fixpoint fold_each {A D} (f : A -> D -> M D) (l : list A) (d : D) : M D :=
  match l with
  | [] => ret d
  | x :: r => let* d' := f x d in fold_each f r d'
  end.

(** ** Security framework calls on the active keychain

    Each call returns its OSStatus together with its out-parameters.  The
    calls succeed whenever the keychain state allows it. *)

Module Sec.

Definition item_at (ref : option SecKeychainItemRef) (l : list item) : option item :=
  match ref with
  | None => None
  | Some i => l !! i
  end.

Definition SecKeychainOpen (path : string) : M Z :=
  fun w => match keychain_files w !! path with
           | Some _ =>
               Ret noErr (World (sys w) (envchain_name w) (Some path)
                            (default_keychain w) (keychain_files w) (environ w)
                            (stdin w) (stdout w) (stderr w))
           | None => Ret errSecNoSuchKeychain w
           end.

Definition SecKeychainFindGenericPassword (service account : string)
  : M (Z * option SecKeychainItemRef) :=
  let* l := gets items in
  match find_index (matches service account) l with
  | Some i => ret (noErr, Some i)
  | None => ret (errSecItemNotFound, None)
  end.

Definition SecKeychainAddGenericPassword (service account data : string)
  : M (Z * option SecKeychainItemRef) :=
  let* l := gets items in
  let* a := gets (fun w => new_item_access (sys w)) in
  match find_index (matches service account) l with
  | Some _ => ret (errSecDuplicateItem, None)
  | None =>
      put_items (l ++ [Item service account EmptyString data a]);;
      ret (noErr, Some (length l))
  end.

(** [attrs] is the description attribute to write, when one is passed. *)
Definition SecKeychainItemModifyAttributesAndData
    (ref : option SecKeychainItemRef) (attrs : option string) (data : string) : M Z :=
  let* l := gets items in
  match ref, item_at ref l with
  | Some i, Some it =>
      let it1 := match attrs with
                 | Some d => set_item_description d it
                 | None => it
                 end in
      put_items (<[i := set_item_data data it1]> l);;
      ret noErr
  | _, _ => ret errSecInvalidItemRef
  end.

Definition SecKeychainItemDelete (ref : option SecKeychainItemRef) : M Z :=
  let* l := gets items in
  match ref, item_at ref l with
  | Some i, Some _ => put_items (delete i l);; ret noErr
  | _, _ => ret errSecInvalidItemRef
  end.

Definition SecKeychainItemCopyAccess (ref : option SecKeychainItemRef)
  : M (Z * access) :=
  let* l := gets items in
  match item_at ref l with
  | Some it => ret (noErr, item_access it)
  | None => ret (errSecInvalidItemRef, [])
  end.

Definition SecKeychainItemSetAccess (ref : option SecKeychainItemRef) (a : access)
  : M Z :=
  let* l := gets items in
  match ref, item_at ref l with
  | Some i, Some it => put_items (<[i := set_item_access a it]> l);; ret noErr
  | _, _ => ret errSecInvalidItemRef
  end.

(** The entries of an access object that authorize [auth], as positions
    in the object (a [SecACLRef] points into its access object). *)
Fixpoint SecAccessCopyMatchingACLList_from (i : nat) (a : access) (auth : authorization)
  : list nat :=
  match a with
  | [] => []
  | e :: r =>
      if bool_decide (auth ∈ acl_authorizations e)
      then i :: SecAccessCopyMatchingACLList_from (S i) r auth
      else SecAccessCopyMatchingACLList_from (S i) r auth
  end.

Definition SecAccessCopyMatchingACLList := SecAccessCopyMatchingACLList_from 0.

Definition SecACLSetContents (a : access) (ref : nat)
    (apps : option (list string)) (desc : string) (prompt : Z) : access :=
  match a !! ref with
  | Some e => <[ref := Acl (acl_authorizations e) apps desc prompt]> a
  | None => a
  end.

Inductive query :=
| ByDescription (description : string)   (* kSecAttrDescription *)
| ByService (service : string).          (* kSecAttrService *)

Definition query_matches (q : query) (it : item) : bool :=
  match q with
  | ByDescription d => bool_decide (item_description it = d)
  | ByService s => bool_decide (item_service it = s)
  end.

(** kSecClassGenericPassword, kSecReturnRef, kSecMatchLimitAll, searched
    in the active keychain. *)
Definition SecItemCopyMatching (q : query) : M (Z * list SecKeychainItemRef) :=
  let* l := gets items in
  match find_indices (query_matches q) 0 l with
  | [] => ret (errSecItemNotFound, [])
  | refs => ret (noErr, refs)
  end.

Inductive SecItemAttr := kSecAccountItemAttr | kSecServiceItemAttr.

(** The requested attribute, and the payload when [outData] is not NULL
    ([want_data]); the payload is not touched otherwise. *)
Definition SecKeychainItemCopyContent (ref : SecKeychainItemRef) (tag : SecItemAttr)
    (want_data : bool) : M (Z * option string * string) :=
  let* l := gets items in
  match l !! ref with
  | Some it =>
      ret (noErr,
           Some (match tag with
                 | kSecAccountItemAttr => item_account it
                 | kSecServiceItemAttr => item_service it
                 end),
           if want_data then item_data it else EmptyString)
  | None => ret (errSecInvalidItemRef, None, EmptyString)
  end.

End Sec.
Export Sec.

(** ** envchain_osx.c *)

Definition ENVCHAIN_SERVICE_PREFIX : string := "envchain-".
Definition ENVCHAIN_ITEM_DESCRIPTION : string := "envchain".

Definition envchain_fail_osstatus {A} (status : Z) : M A :=
  eprint (OSStatusText status);;
  exit 10.

Definition envchain_set_keychain (target : option string) : M Z :=
  (fun w => Ret tt (World (sys w) (envchain_name w) None
                      (default_keychain w) (keychain_files w) (environ w)
                      (stdin w) (stdout w) (stderr w)));;
  match target with
  | None => ret 0
  | Some path =>
      if bool_decide (first_char path = NUL) then ret 0
      else
        let* status := SecKeychainOpen path in
        (if bool_decide (status ≠ noErr)
         then
           let* name := gets envchain_name in
           eprint (Text (name +:+ ": failed to open keychain `" +:+ path +:+ "`" +:+ newline));;
           envchain_fail_osstatus status
         else ret tt);;
        ret 0
  end.

Definition envchain_sortcmp_str (a b : string) : Z := strcmp a b.

(** [asprintf(&service_name, "%s%s", ENVCHAIN_SERVICE_PREFIX, name)] *)
Definition envchain_generate_service_name (name : string) : string :=
  ENVCHAIN_SERVICE_PREFIX +:+ name.

Definition envchain_generate_service_name_cf (name : string) : string :=
  ENVCHAIN_SERVICE_PREFIX +:+ name.

Definition envchain_get_self_exec_path : M string :=
  gets (fun w => self_exec_path (sys w)).

Definition envchain_get_real_path (path : string) : M string :=
  let* r := gets (fun w => self_real_path (sys w)) in
  match r with
  | None =>
      let* e := gets (fun w => errno_text (sys w)) in
      eprint (Text ("Error during retrieve executable path of itself: " +:+ e +:+ newline));;
      exit 1
  | Some p => ret p
  end.

(** The trusted applications are named by the paths they are created from;
    [SecTrustedApplicationCreateFromPath] succeeds. *)
Definition envchain_self_trusted_app_list : M (list string) :=
  let* selfexecpath := envchain_get_self_exec_path in
  let* selfrealpath := envchain_get_real_path selfexecpath in
  let app_array := [] in
  let app_array := app_array ++ [selfexecpath] in
  let app_array :=
    if bool_decide (strcmp selfexecpath selfrealpath ≠ 0)
    then app_array ++ [selfrealpath]
    else app_array in
  ret app_array.

Record envchain_search_values_applier_data (D : Type) := {
  search_callback : option (string -> string -> D -> M D);
  namespace_callback : option (string -> D -> M D);
  data : D
}.
Arguments search_callback {D}.
Arguments namespace_callback {D}.
Arguments data {D}.

(** The name the applier hands to its callback for an attribute buffer
    [rawkey] of [keylen] bytes: the service prefix is cut off a service
    attribute that starts with it (lines 208-225). *)
Definition applier_key (tag : SecItemAttr) (rawkey : string) : string :=
  let keylen := strlen rawkey in
  let key := rawkey in
  match tag with
  | kSecServiceItemAttr =>
      if bool_decide (strncmp (cstr key) ENVCHAIN_SERVICE_PREFIX
                              (strlen ENVCHAIN_SERVICE_PREFIX) = 0)
      then
        let keylen := (keylen - strlen ENVCHAIN_SERVICE_PREFIX)%nat in
        String.substring (strlen ENVCHAIN_SERVICE_PREFIX) keylen key
      else key
  | kSecAccountItemAttr => key
  end.

(** One call of [CFArrayApplyFunction]; the result is the [data] the
    callback leaves behind.  [key] and [value] are NUL-terminated copies of
    the buffers, so the callback reads them up to their first NUL.  The
    memory allocations succeed, and the [errno] line of the failure path is
    left out. *)
Definition envchain_search_values_applier {D}
    (ref : SecKeychainItemRef) (context : envchain_search_values_applier_data D) : M D :=
  let tag := if bool_decide (is_Some (search_callback context))
             then kSecAccountItemAttr else kSecServiceItemAttr in
  let* (status, attr, rawvalue) :=
    SecKeychainItemCopyContent ref tag (bool_decide (is_Some (search_callback context))) in
  if bool_decide (status ≠ noErr)
  then eprint (Text ("Something wrong during searching value" +:+ newline));;
       ret (data context)
  else
    match attr with
    | None =>
        eprint (Text ("Can't find account name" +:+ newline));;
        ret (data context)
    | Some rawkey =>
        let key := applier_key tag rawkey in
        match search_callback context, namespace_callback context with
        | Some callback, _ => callback (cstr key) (cstr rawvalue) (data context)
        | None, Some callback => callback (cstr key) (data context)
        | None, None => ret (data context)   (* no caller leaves both NULL *)
        end
    end.

Record envchain_search_namespaces_context (D : Type) := {
  ns_callback : string -> D -> M D;
  head_index : nat;
  names : list string;     (* the slots filled so far, [head_index] of them *)
  ns_data : D
}.
Arguments ns_callback {D}.
Arguments head_index {D}.
Arguments names {D}.
Arguments ns_data {D}.

Definition envchain_search_namespaces_uniqufier {D}
    (name : string) (context : envchain_search_namespaces_context D)
  : M (envchain_search_namespaces_context D) :=
  let item := name in
  ret {| ns_callback := ns_callback context;
         head_index := S (head_index context);
         names := names context ++ [item];
         ns_data := ns_data context |}.

(** [qsort(3)] leaves the array in ascending order of the comparator.  Which
    of the orderings of equal elements it takes is unspecified; for strings
    compared by [strcmp] they cannot be told apart (see
    [qsort_strcmp_unique]). *)
Definition qsort {A} (compar : A -> A -> Z) (l : list A) : list A :=
  @merge_sort A (fun a b => compar a b ≤ 0) (fun a b => decide (compar a b ≤ 0)) l.

(** Lines 324-329: the callback is run on each name that differs from the
    one before it. *)
Fixpoint envchain_search_namespaces_emit {D}
    (callback : string -> D -> M D) (prev_name : option string)
    (names : list string) (data : D) : M D :=
  match names with
  | [] => ret data
  | name :: rest =>
      let* data :=
        (if bool_decide (prev_name = None)
            || bool_decide (strcmp (default EmptyString prev_name) name ≠ 0)
         then callback name data
         else ret data) in
      envchain_search_namespaces_emit callback (Some name) rest data
  end.

Definition envchain_search_namespaces {D}
    (callback : string -> D -> M D) (data : D) : M (Z * D) :=
  let result := 0 in
  let* (status, items) := SecItemCopyMatching (ByDescription ENVCHAIN_ITEM_DESCRIPTION) in
  if bool_decide (status ≠ errSecItemNotFound) && bool_decide (status ≠ noErr)
  then envchain_fail_osstatus status
  else if bool_decide (status = errSecItemNotFound) || bool_decide (length items = 0%nat)
  then ret (result, data)
  else
    let context := {| ns_callback := callback; head_index := 0; names := [];
                      ns_data := data |} in
    let* context :=
      fold_each
        (fun ref context =>
           envchain_search_values_applier ref
             {| search_callback := None;
                namespace_callback := Some envchain_search_namespaces_uniqufier;
                data := context |})
        items context in
    let names := qsort envchain_sortcmp_str (names context) in
    let* data := envchain_search_namespaces_emit callback None names (ns_data context) in
    ret (result, data).

Definition envchain_search_values {D}
    (name : string) (callback : string -> string -> D -> M D) (data : D) : M (Z * D) :=
  let result := 0 in
  let service_name := envchain_generate_service_name_cf name in
  let* (status, items) := SecItemCopyMatching (ByService service_name) in
  if bool_decide (status ≠ errSecItemNotFound) && bool_decide (status ≠ noErr)
  then envchain_fail_osstatus status
  else if bool_decide (status = errSecItemNotFound) || bool_decide (length items = 0%nat)
  then
    let* self := gets envchain_name in
    eprint (Text ("WARNING: namespace `" +:+ name +:+ "` not defined." +:+ newline
                  +:+ "         You can set via running `" +:+ self +:+ " --set "
                  +:+ name +:+ " SOME_ENV_NAME`." +:+ newline +:+ newline));;
    ret (1, data)
  else
    let* data :=
      fold_each
        (fun ref data =>
           envchain_search_values_applier ref
             {| search_callback := Some callback; namespace_callback := None;
                data := data |})
        items data in
    ret (result, data).

Definition envchain_find_value (name key : string) : M (Z * option SecKeychainItemRef) :=
  let service_name := envchain_generate_service_name name in
  let* (status, ref) := SecKeychainFindGenericPassword service_name key in
  (if bool_decide (status ≠ noErr) && bool_decide (status ≠ errSecItemNotFound)
   then envchain_fail_osstatus status
   else ret tt);;
  ret (if bool_decide (status = errSecItemNotFound) then 0 else 1, ref).

Definition envchain_apply_item_access
    (ref : option SecKeychainItemRef) (require_passphrase : Z) : M Z :=
  let* (status, access_ref) := SecKeychainItemCopyAccess ref in
  if bool_decide (status ≠ noErr) then envchain_fail_osstatus status
  else
    let acl_list := SecAccessCopyMatchingACLList access_ref kSecACLAuthorizationDecrypt in
    match acl_list !! 0%nat with
    | None =>
        eprint (Text ("error: There's no ACL?" +:+ newline));;
        envchain_fail_osstatus (-1)
    | Some acl =>
        match access_ref !! acl with
        | None => envchain_fail_osstatus errSecInvalidItemRef
        | Some contents =>
            (* SecACLCopyContents; the list it returns is released at once *)
            let desc := acl_description contents in
            let prompt := acl_prompt contents in
            let* (prompt, app_list) :=
              (if bool_decide (require_passphrase = 1)
               then
                 let prompt := if bool_decide (prompt = 0) then 256 (* 0x100 *) else prompt in
                 let prompt := Z.lor prompt kSecKeychainPromptRequirePassphase in
                 ret (prompt, [])
               else
                 let prompt := 0 in
                 let* app_list := envchain_self_trusted_app_list in
                 ret (prompt, app_list)) in
            let access_ref := SecACLSetContents access_ref acl (Some app_list) desc prompt in
            let* status := SecKeychainItemSetAccess ref access_ref in
            if bool_decide (status ≠ noErr) then envchain_fail_osstatus status
            else ret 0
        end
    end.

Definition envchain_save_value
    (name key value : string) (require_passphrase : Z) : M unit :=
  let service_name := envchain_generate_service_name name in
  let* (found, ref) := envchain_find_value name key in
  let* (status, ref) :=
    (if bool_decide (found = 0)
     then SecKeychainAddGenericPassword service_name key value
     else
       let* status := SecKeychainItemModifyAttributesAndData ref None value in
       ret (status, ref)) in
  if bool_decide (status ≠ noErr) then envchain_fail_osstatus status
  else
    (* Set description *)
    let* status :=
      SecKeychainItemModifyAttributesAndData ref (Some ENVCHAIN_ITEM_DESCRIPTION) value in
    if bool_decide (status ≠ noErr) then envchain_fail_osstatus status
    else
      (if bool_decide (require_passphrase >= 0)
       then envchain_apply_item_access ref require_passphrase;; ret tt
       else ret tt).

Definition envchain_update_value_access
    (name key : string) (require_passphrase : Z) : M Z :=
  if bool_decide (require_passphrase < 0)
  then eprint (Text ("require_passphrase must be 0 or 1" +:+ newline));; ret 1
  else
    let* (found, ref) := envchain_find_value name key in
    if bool_decide (found = 0)
    then
      eprint (Text ("WARNING: key `" +:+ name +:+ "." +:+ key +:+ "` not found" +:+ newline));;
      ret 1
    else
      envchain_apply_item_access ref require_passphrase;;
      ret 0.

Definition envchain_delete_value (name key : string) : M unit :=
  let* (found, ref) := envchain_find_value name key in
  if bool_decide (found ≠ 0)
  then SecKeychainItemDelete ref;; ret tt
  else ret tt.

(** ** envchain.c *)

Definition version : string := "1.1.0".

Definition lines (l : list string) : string :=
  foldr (fun s acc => s +:+ newline +:+ acc) EmptyString l.

(** The text [envchain_abort_with_help] formats, for [envchain_name = name]. *)
Definition help_text (name : string) : string :=
  lines [
    name +:+ " version " +:+ version;
    EmptyString;
    "Usage:";
    "  Global options";
    "    " +:+ name +:+ " [--keychain PATH|--keychain-from-env|--keychain-dir DIR] ...";
    EmptyString;
    "  Add variables";
    "    " +:+ name +:+ " (--set|-s) [--[no-]require-passphrase|-p|-P] [--noecho|-n] NAMESPACE ENV [ENV ..]";
    "  Change access policy without retyping value";
    "    " +:+ name +:+ " --set-access [--require-passphrase|-p|--no-require-passphrase|-P] NAMESPACE ENV [ENV ..]";
    "  Execute with variables";
    "    " +:+ name +:+ " NAMESPACE CMD [ARG ...]";
    "  List namespaces";
    "    " +:+ name +:+ " --list";
    "  Remove variables";
    "    " +:+ name +:+ " --unset NAMESPACE ENV [ENV ..]";
    EmptyString;
    "Options:";
    "  --keychain:";
    "    Use a specific macOS keychain file instead of default search list.";
    EmptyString;
    "  --keychain-from-env:";
    "    Read keychain path from ENVCHAIN_KEYCHAIN (disabled by default for safety).";
    EmptyString;
    "  --keychain-dir:";
    "    Auto-map namespace to DIR/<namespace>.keychain-db.";
    "    Equivalent env var: ENVCHAIN_KEYCHAIN_DIR.";
    EmptyString;
    "  --set (-s):";
    "    Add keychain item of environment variable +ENV+ for namespace +NAMESPACE+.";
    EmptyString;
    "  --set-access:";
    "    Update ACL policy of existing keys without modifying values.";
    "    Must provide either -p or -P.";
    EmptyString;
    "  --noecho (-n):";
    "    Enable noecho mode when prompting values. Requires stdin to be a terminal.";
    EmptyString;
    "  --require-passphrase (-p), --no-require-passphrase (-P):";
    "    Replace the item's ACL list to require passphrase (or not).";
    "    Leave as is when both options are omitted."
  ].

Definition envchain_abort_with_help {A} : M A :=
  let* name := gets envchain_name in
  eprint (Text (help_text name));;
  exit 2.

(** *** --set *)

(** The next line of standard input, as [readline] returns it; [None] when
    the read yields no buffer. *)
Definition read_line : M (option string) :=
  fun w => match stdin w with
           | [] => Ret None w
           | l :: rest =>
               Ret l (World (sys w) (envchain_name w) (envchain_keychain w)
                        (default_keychain w) (keychain_files w) (environ w)
                        rest (stdout w) (stderr w))
           end.

(** [len = getline(&str, &n, stdin)] called with [str = NULL]: the length
    it returns and the buffer it leaves in [str], a line with its newline
    that may hold NUL bytes.  At end of input [getline] returns -1 and the
    buffer it has allocated holds no character. *)
Definition getline : M (Z * string) :=
  let* l := read_line in
  match l with
  | None => ret (-1, EmptyString)
  | Some line => ret (Z.of_nat (strlen line), line)
  end.

(** [str[len-1] = '\0'] when [str[len-1] == '\n']: the buffer without its
    last byte, read as far as [len]. *)
Fixpoint chop_newline (s : string) : string :=
  match s with
  | EmptyString => EmptyString
  | String c EmptyString =>
      if bool_decide (c = ascii_of_nat 10) then EmptyString else s
  | String c r => String c (chop_newline r)
  end.

(** [tcgetattr] fails with ENOTTY when stdin is no terminal; [tcsetattr]
    succeeds on a terminal.  The result of [getline] is not tested: the
    buffer is returned, as a [char*], also at end of input. *)
Definition envchain_noecho_read (prompt : string) : M (option string) :=
  let* tty := gets (fun w => terminal (sys w)) in
  if negb tty
  then
    eprint (Text ("--noecho (-n) requires stdin to be a terminal" +:+ newline));;
    ret None
  else
    print (prompt +:+ " (noecho):");;
    let* (len, str) := getline in
    let str := if bool_decide (0 < len) then chop_newline str else str in
    print newline;;
    ret (Some (cstr str)).

Definition envchain_ask_value (name key : string) (noecho : Z) : M (option string) :=
  let prompt := name +:+ "." +:+ key in
  if bool_decide (noecho ≠ 0)
  then envchain_noecho_read prompt
  else
    print prompt;;
    print ": ";;
    read_line.

(** The option loops of [envchain_set] and [envchain_set_access] stop at an
    option they do not know. *)
Inductive options (A : Type) :=
| Parsed (a : A) (argv : list string)
| UnknownOption (arg : string).
Arguments Parsed {A} a argv.
Arguments UnknownOption {A} arg.

Definition argc (argv : list string) : Z := Z.of_nat (length argv).

(** Lines 168-187, from [(noecho, require_passphrase)]. *)
Fixpoint envchain_set_options (argv : list string) (st : Z * Z) : options (Z * Z) :=
  match argv with
  | [] => Parsed st argv
  | arg :: rest =>
      if negb (bool_decide (2 < argc argv)) then Parsed st argv
      else if bool_decide (first_char arg ≠ "-"%char) then Parsed st argv
      else if bool_decide (strcmp arg "-n" = 0) || bool_decide (strcmp arg "--noecho" = 0)
      then envchain_set_options rest (1, st.2)
      else if bool_decide (strcmp arg "-p" = 0)
              || bool_decide (strcmp arg "--require-passphrase" = 0)
      then envchain_set_options rest (st.1, 1)
      else if bool_decide (strcmp arg "-P" = 0)
              || bool_decide (strcmp arg "--no-require-passphrase" = 0)
      then envchain_set_options rest (st.1, 0)
      else UnknownOption arg
  end.

(** Lines 193-201. *)
Fixpoint envchain_set_keys (name : string) (keys : list string)
    (noecho require_passphrase : Z) : M Z :=
  match keys with
  | [] => ret 0
  | key :: rest =>
      let* value := envchain_ask_value name key noecho in
      match value with
      | None => ret 1
      | Some value =>
          envchain_save_value name key value require_passphrase;;
          envchain_set_keys name rest noecho require_passphrase
      end
  end.

Definition envchain_set (argv : list string) : M Z :=
  let noecho := 0 in
  let require_passphrase := -1 in
  match envchain_set_options argv (noecho, require_passphrase) with
  | UnknownOption arg =>
      eprint (Text ("Unknown option: " +:+ arg +:+ newline));;
      ret 1
  | Parsed (noecho, require_passphrase) argv =>
      if bool_decide (argc argv < 2) then envchain_abort_with_help
      else
        match argv with
        | [] => envchain_abort_with_help
        | name :: argv => envchain_set_keys name argv noecho require_passphrase
        end
  end.

(** *** --list *)

Record envchain_list_context := {
  target : option string;
  show_value : Z
}.

Definition envchain_list_value_callback
    (key value : string) (context : envchain_list_context) : M envchain_list_context :=
  (if bool_decide (show_value context ≠ 0)
   then print (key +:+ "=" +:+ value +:+ newline)
   else print (key +:+ newline));;
  ret context.

Definition envchain_list_namespace_callback
    (name : string) (context : envchain_list_context) : M envchain_list_context :=
  print (name +:+ newline);;
  ret context.

(** Lines 234-244. *)
Fixpoint envchain_list_options (argv : list string) (context : envchain_list_context)
  : M envchain_list_context :=
  match argv with
  | [] => ret context
  | arg :: rest =>
      if bool_decide (strcmp arg "--show-value" = 0) || bool_decide (strcmp arg "-v" = 0)
      then envchain_list_options rest {| target := target context; show_value := 1 |}
      else
        (if bool_decide (is_Some (target context)) then envchain_abort_with_help
         else ret tt);;
        envchain_list_options rest {| target := Some arg; show_value := show_value context |}
  end.

Definition envchain_list (argv : list string) : M Z :=
  let* context := envchain_list_options argv {| target := None; show_value := 0 |} in
  match target context with
  | Some t =>
      envchain_search_values t envchain_list_value_callback context;;
      ret 0
  | None =>
      (if bool_decide (show_value context ≠ 0) then envchain_abort_with_help else ret tt);;
      envchain_search_namespaces envchain_list_namespace_callback context;;
      ret 0
  end.

(** *** --unset *)

Definition envchain_unset (argv : list string) : M Z :=
  if bool_decide (argc argv < 2) then envchain_abort_with_help
  else
    match argv with
    | [] => envchain_abort_with_help
    | name :: argv =>
        for_each (fun key => envchain_delete_value name key) argv;;
        ret 0
    end.

(** *** --set-access *)

(** Lines 289-304, from [require_passphrase]. *)
Fixpoint envchain_set_access_options (argv : list string) (require_passphrase : Z)
  : options Z :=
  match argv with
  | [] => Parsed require_passphrase argv
  | arg :: rest =>
      if negb (bool_decide (2 < argc argv)) then Parsed require_passphrase argv
      else if bool_decide (first_char arg ≠ "-"%char) then Parsed require_passphrase argv
      else if bool_decide (strcmp arg "-p" = 0)
              || bool_decide (strcmp arg "--require-passphrase" = 0)
      then envchain_set_access_options rest 1
      else if bool_decide (strcmp arg "-P" = 0)
              || bool_decide (strcmp arg "--no-require-passphrase" = 0)
      then envchain_set_access_options rest 0
      else UnknownOption arg
  end.

(** Lines 314-320, from [result]. *)
Fixpoint envchain_set_access_keys (name : string) (keys : list string)
    (require_passphrase result : Z) : M Z :=
  match keys with
  | [] => ret result
  | key :: rest =>
      let* r := envchain_update_value_access name key require_passphrase in
      let result := if bool_decide (r ≠ 0) then 1 else result in
      envchain_set_access_keys name rest require_passphrase result
  end.

Definition envchain_set_access (argv : list string) : M Z :=
  let require_passphrase := -1 in
  let result := 0 in
  match envchain_set_access_options argv require_passphrase with
  | UnknownOption arg =>
      eprint (Text ("Unknown option: " +:+ arg +:+ newline));;
      ret 1
  | Parsed require_passphrase argv =>
      if bool_decide (argc argv < 2) then envchain_abort_with_help
      else if bool_decide (require_passphrase < 0)
      then
        eprint (Text ("--set-access requires either -p or -P" +:+ newline));;
        ret 2
      else
        match argv with
        | [] => envchain_abort_with_help
        | name :: argv => envchain_set_access_keys name argv require_passphrase result
        end
  end.

(** *** exec mode *)

(** [setenv(3)]: a name that is empty or holds '=' is refused (EINVAL) and
    the environment stays as it is. *)
Definition setenv (name value : string) (overwrite : Z) : M Z :=
  fun w =>
    if bool_decide (name = EmptyString) || strchr name "="%char then Ret (-1) w
    else if bool_decide (overwrite = 0) && bool_decide (is_Some (environ w !! name))
    then Ret 0 w
    else Ret 0 (World (sys w) (envchain_name w) (envchain_keychain w)
                  (default_keychain w) (keychain_files w)
                  (<[name := value]> (environ w))
                  (stdin w) (stdout w) (stderr w)).

Definition getenv (name : string) : M (option string) :=
  gets (fun w => environ w !! name).

Definition envchain_exec_value_callback (key value : string) (context : unit) : M unit :=
  setenv key value 1;;
  ret context.

(** A successful [execvp] replaces the process: the computation halts with
    the program and its arguments, in the world it has built. *)
Definition execvp (exe : string) (args : list string) : M Z :=
  fun w => if bool_decide (exe ∈ programs (sys w))
           then Halt (Replaced exe args) w
           else Ret (-1) w.

Definition envchain_exec (argv : list string) : M Z :=
  if bool_decide (argc argv < 2) then envchain_abort_with_help
  else
    match argv with
    | names :: exe :: argv =>
        for_each
          (fun name => envchain_search_values name envchain_exec_value_callback tt;; ret tt)
          (strsep_all names ","%char);;
        let args := exe :: argv in
        let* r := execvp exe args in
        if bool_decide (r < 0)
        then
          let* e := gets (fun w => errno_text (sys w)) in
          eprint (Text ("execvp failed: " +:+ e +:+ newline));;
          ret 1
        else ret 0
    | _ => envchain_abort_with_help
    end.

(** *** Namespace inference *)

(** Lines 377-379: [argv + i] once [i] has passed the leading arguments
    that start with '-'. *)
Fixpoint skip_dashes (argv : list string) : list string :=
  match argv with
  | [] => []
  | arg :: rest =>
      if bool_decide (first_char arg = "-"%char) then skip_dashes rest else argv
  end.

(** Lines 387-394. *)
Fixpoint skip_show_value (argv : list string) : option string :=
  match argv with
  | [] => None
  | arg :: rest =>
      if bool_decide (strcmp arg "--show-value" = 0) || bool_decide (strcmp arg "-v" = 0)
      then skip_show_value rest
      else Some arg
  end.

Definition envchain_namespace_from_argv (argv : list string) : option string :=
  match argv with
  | [] => None
  | cmd :: rest =>
      let ns :=
        if bool_decide (strcmp cmd "--set" = 0) || bool_decide (strcmp cmd "-s" = 0)
           || bool_decide (strcmp cmd "--set-access" = 0)
        then head (skip_dashes rest)
        else if bool_decide (strcmp cmd "--unset" = 0)
        then head rest
        else if bool_decide (strcmp cmd "--list" = 0) || bool_decide (strcmp cmd "-l" = 0)
        then skip_show_value rest
        else if bool_decide (first_char cmd ≠ "-"%char)
        then (if negb (strchr cmd ","%char) then Some cmd else None)
        else None in
      match ns with
      | None => None
      | Some ns => if bool_decide (first_char ns = NUL) then None else Some ns
      end
  end.

Definition envchain_build_namespace_keychain_path (dir ns : string) : M (option string) :=
  let path := dir +:+ "/" +:+ ns +:+ ".keychain-db" in
  let* found := gets (fun w => bool_decide (path ∈ existing_paths (sys w))) in
  if negb found then ret None else ret (Some path).

(** *** Entry point *)

Record global_options := {
  keychain_target : option string;
  keychain_dir : option string;
  use_keychain_from_env : Z
}.

(** Lines 439-467.  [None] is the jump to [cleanup] with [rc = 2]. *)
Fixpoint main_options (argv : list string) (o : global_options)
  : M (option (global_options * list string)) :=
  match argv with
  | [] => ret (Some (o, argv))
  | arg :: rest =>
      if bool_decide (strcmp arg "--keychain" = 0)
      then
        match rest with
        | [] =>
            eprint (Text ("Missing argument for --keychain" +:+ newline));;
            ret None
        | path :: rest =>
            main_options rest
              {| keychain_target := Some path; keychain_dir := keychain_dir o;
                 use_keychain_from_env := use_keychain_from_env o |}
        end
      else if bool_decide (strcmp arg "--keychain-from-env" = 0)
      then
        main_options rest
          {| keychain_target := keychain_target o; keychain_dir := keychain_dir o;
             use_keychain_from_env := 1 |}
      else if bool_decide (strcmp arg "--keychain-dir" = 0)
      then
        match rest with
        | [] =>
            eprint (Text ("Missing argument for --keychain-dir" +:+ newline));;
            ret None
        | dir :: rest =>
            main_options rest
              {| keychain_target := keychain_target o; keychain_dir := Some dir;
                 use_keychain_from_env := use_keychain_from_env o |}
        end
      else ret (Some (o, argv))
  end.

(** Lines 490-520. *)
Definition main_dispatch (argv : list string) : M Z :=
  match argv with
  | [] => envchain_abort_with_help
  | cmd :: rest =>
      if bool_decide (strcmp cmd "--set" = 0) || bool_decide (strcmp cmd "-s" = 0)
      then envchain_set rest
      else if bool_decide (strcmp cmd "--list" = 0) || bool_decide (strcmp cmd "-l" = 0)
      then envchain_list rest
      else if bool_decide (strcmp cmd "--unset" = 0)
      then envchain_unset rest
      else if bool_decide (strcmp cmd "--set-access" = 0)
      then envchain_set_access rest
      else if bool_decide (first_char cmd = "-"%char)
      then
        eprint (Text ("Unknown option " +:+ cmd +:+ newline));;
        ret 2
      else envchain_exec argv
  end.

(** The value [main] returns is the exit status of the process.  [argv]
    starts with the program name. *)
Definition main (argv : list string) : M Z :=
  (fun w => Ret tt (World (sys w) (default EmptyString (head argv)) (envchain_keychain w)
                      (default_keychain w) (keychain_files w) (environ w)
                      (stdin w) (stdout w) (stderr w)));;
  if bool_decide (argc argv < 2) then envchain_abort_with_help
  else
    let argv := tail argv in
    let* parsed :=
      main_options argv
        {| keychain_target := None; keychain_dir := None; use_keychain_from_env := 0 |} in
    match parsed with
    | None => ret 2
    | Some (o, argv) =>
        let* keychain_target :=
          (if bool_decide (keychain_target o = None)
              && bool_decide (use_keychain_from_env o ≠ 0)
           then getenv "ENVCHAIN_KEYCHAIN"
           else ret (keychain_target o)) in
        let* keychain_dir :=
          (if bool_decide (keychain_dir o = None)
           then getenv "ENVCHAIN_KEYCHAIN_DIR"
           else ret (keychain_dir o)) in
        let* keychain_target :=
          match keychain_target, keychain_dir with
          | None, Some dir =>
              if bool_decide (first_char dir ≠ NUL)
              then
                match envchain_namespace_from_argv argv with
                | Some auto_namespace =>
                    let* auto_keychain_target :=
                      envchain_build_namespace_keychain_path dir auto_namespace in
                    match auto_keychain_target with
                    | Some path => ret (Some path)
                    | None => ret keychain_target
                    end
                | None => ret keychain_target
                end
              else ret keychain_target
          | _, _ => ret keychain_target
          end in
        let* r := envchain_set_keychain keychain_target in
        if bool_decide (r ≠ 0) then ret 1
        else main_dispatch argv
    end.

(** * Specification-level definitions *)

(** ** Service-identifier codec *)

(** The identifier stored for a namespace. *)
Definition encode (namespace : string) : string :=
  envchain_generate_service_name namespace.

(** What namespace enumeration makes of one service identifier: the applier
    is run, as [envchain_search_namespaces] runs it, on an entry that
    carries the identifier, with a callback that records the name it is
    given.  [None] says that the callback was not called. *)
Definition decode (w : world) (service_id : string) : option string :=
  let entry := Item service_id EmptyString ENVCHAIN_ITEM_DESCRIPTION EmptyString [] in
  match envchain_search_values_applier 0%nat
          {| search_callback := None;
             namespace_callback := Some (fun name _ => ret (Some name));
             data := None |}
          (set_items [entry] w) with
  | Ret name _ => name
  | Halt _ _ => None
  end.

Definition has_marker (service_id : string) : bool :=
  String.prefix ENVCHAIN_SERVICE_PREFIX service_id.

(** A string that stands for a C string holds no NUL. *)
Definition is_cstr (s : string) : Prop := cstr s = s.

(** The part of an identifier that follows the marker. *)
Definition strip_marker (service_id : string) : string :=
  String.substring (strlen ENVCHAIN_SERVICE_PREFIX)
    (strlen service_id - strlen ENVCHAIN_SERVICE_PREFIX) service_id.

(** ** Namespace inference, as the rule table words it *)

Definition is_flag_shaped (token : string) : bool :=
  bool_decide (first_char token = "-"%char).

Definition is_value_display_flag (token : string) : bool :=
  bool_decide (token = "--show-value") || bool_decide (token = "-v").

Definition non_empty (token : option string) : option string :=
  match token with
  | Some (String c r) => Some (String c r)
  | _ => None
  end.

Definition inferNamespace (argv : list string) : option string :=
  match argv with
  | [] => None
  | cmd :: rest =>
      non_empty
        (if bool_decide (cmd ∈ ["--set"; "-s"; "--set-access"])
         then head (filter (fun t => negb (is_flag_shaped t)) rest)
         else if bool_decide (cmd = "--unset")
         then rest !! 0%nat
         else if bool_decide (cmd ∈ ["--list"; "-l"])
         then head (filter (fun t => negb (is_value_display_flag t)) rest)
         else if is_flag_shaped cmd then None
         else if strchr cmd ","%char then None
         else Some cmd)
  end.

(** ** Worlds used in the examples *)

Definition example_acl : acl :=
  Acl [kSecACLAuthorizationDecrypt] (Some ["/usr/bin/security"]) "envchain-db" 0.

Definition example_system : system :=
  System [example_acl] "/usr/local/bin/envchain" (Some "/opt/envchain/bin/envchain")
    ∅ {["bash"]} true "No such file or directory".

Definition empty_world : world :=
  World example_system "envchain" None [] ∅ ∅ [] [] [].

(** ** Namespace enumeration *)

(** The entries the enumeration query returns: those that carry the
    description tag, in keychain order. *)
Definition tagged (it : item) : bool :=
  bool_decide (item_description it = ENVCHAIN_ITEM_DESCRIPTION).

(** The name collected for an entry. *)
Definition collected_name (it : item) : string :=
  cstr (applier_key kSecServiceItemAttr (item_service it)).

Definition collected_names (w : world) : list string :=
  collected_name <$> filter tagged (items w).

(** Dropping every name that equals the one before it. *)
Fixpoint skip_repeats (prev : option string) (l : list string) : list string :=
  match l with
  | [] => []
  | n :: r =>
      if bool_decide (prev = Some n) then skip_repeats (Some n) r
      else n :: skip_repeats (Some n) r
  end.

(** The names the callback of [envchain_search_namespaces] is called with. *)
Definition listed_namespaces (w : world) : list string :=
  skip_repeats None (qsort envchain_sortcmp_str (collected_names w)).

Definition strcmp_le (a b : string) : Prop := strcmp a b ≤ 0.
Definition strcmp_lt (a b : string) : Prop := strcmp a b < 0.

(** A keychain with two entries of namespace [db] and one entry that
    carries the description tag under a service identifier without the
    marker. *)
Definition mixed_world : world :=
  World example_system "envchain" None
    [ Item "envchain-db" "HOST" "envchain" "localhost" [example_acl];
      Item "login" "alice" "envchain" "hunter2" [example_acl];
      Item "envchain-db" "PORT" "envchain" "5432" [example_acl] ]
    ∅ ∅ [] [] [].

(** The name enumeration surfaces for an entry. *)
Definition surfaced (it : item) : string :=
  cstr (if has_marker (item_service it)
        then strip_marker (item_service it)
        else item_service it).

(** ** Access policy *)

(** The entry of an access object that governs decryption: the first one
    that authorizes it. *)
Definition decrypt_acl (a : access) : option acl :=
  match SecAccessCopyMatchingACLList a kSecACLAuthorizationDecrypt !! 0%nat with
  | Some ref => a !! ref
  | None => None
  end.

(** The identity of the running executable: the invocation path, and the
    resolved path when it is another one. *)
Definition self_identity (exec real : string) : list string :=
  if decide (exec = real) then [exec] else [exec; real].

(** The ACL entry that [envchain_apply_item_access] writes in place of [e]. *)
Definition applied_acl (e : acl) (apps : list string) (prompt : Z) : acl :=
  Acl (acl_authorizations e) (Some apps) (acl_description e) prompt.

(** An entry whose decrypt ACL carries the prompt selector 0x0010. *)
Definition prompting_world : world :=
  World example_system "envchain" None
    [ Item "envchain-db" "HOST" "envchain" "localhost"
        [Acl [kSecACLAuthorizationDecrypt] (Some ["/usr/bin/security"]) "envchain-db" 16] ]
    ∅ ∅ [] [] [].

(** ** Entries *)

(** The keychain holds at most one generic-password item per service and
    account. *)
Definition entry_id (it : item) : string * string :=
  (item_service it, item_account it).

Definition keychain_wf (l : list item) : Prop := NoDup (entry_id <$> l).

(** Create or update in place: the items a save leaves in a keychain [l]
    whose new items receive the access [a]. *)
Definition save_items (N K V : string) (a : access) (l : list item) : list item :=
  match find_index (matches (encode N) K) l with
  | Some i =>
      match l !! i with
      | Some it =>
          <[i := Item (item_service it) (item_account it) ENVCHAIN_ITEM_DESCRIPTION V
                   (item_access it)]> l
      | None => l
      end
  | None => l ++ [Item (encode N) K ENVCHAIN_ITEM_DESCRIPTION V a]
  end.

(** A keychain that already holds [db.HOST]. *)
Definition db_world : world :=
  World example_system "envchain" None
    [ Item "envchain-db" "HOST" "envchain" "localhost" [example_acl];
      Item "envchain-db" "PORT" "envchain" "5432" [example_acl] ]
    ∅ ∅ [] [] [].

(** ** Frames *)

Definition final_world {A} (r : result A) : world :=
  match r with
  | Ret _ w => w
  | Halt _ w => w
  end.

(** The keychains of [w'] are those of [w]. *)
Definition same_keychains (w w' : world) : Prop :=
  sys w' = sys w
  /\ envchain_keychain w' = envchain_keychain w
  /\ default_keychain w' = default_keychain w
  /\ keychain_files w' = keychain_files w.

(** No access object of the active keychain was rewritten between [w] and
    [w']: every entry of [w] is still there with the access it had, and
    every entry added since has the access the keychain gives a new item. *)
Definition acl_untouched (w w' : world) : Prop :=
  sys w' = sys w
  /\ (forall i it, items w !! i = Some it ->
        exists it', items w' !! i = Some it' /\ item_access it' = item_access it)
  /\ (forall i it', (length (items w) <= i)%nat -> items w' !! i = Some it' ->
        item_access it' = new_item_access (sys w)).

(** [it] and [it'] differ, at most, in their access objects. *)
Definition same_value (it it' : item) : Prop :=
  item_service it' = item_service it
  /\ item_account it' = item_account it
  /\ item_description it' = item_description it
  /\ item_data it' = item_data it.

Definition is_policy_flag (arg : string) : bool :=
  bool_decide (arg ∈ ["-p"; "--require-passphrase"; "-P"; "--no-require-passphrase"]).

(** A terminal session about to type one value. *)
Definition typing_world : world :=
  World example_system "envchain" None
    [ Item "envchain-db" "HOST" "envchain" "localhost" [example_acl] ]
    ∅ ∅ [Some "5432"] [] [].

(** ** Policy updates *)

Definition present (w : world) (N K : string) : bool :=
  bool_decide (is_Some (find_index (matches (encode N) K) (items w))).

(** [it'] is [it] with, at most, other applications and prompt selectors in
    its access entries. *)
Definition entry_kept (it it' : item) : Prop :=
  item_service it' = item_service it
  /\ item_account it' = item_account it
  /\ item_description it' = item_description it
  /\ item_data it' = item_data it
  /\ acl_authorizations <$> item_access it' = acl_authorizations <$> item_access it.

Definition entries_kept (w w' : world) : Prop :=
  sys w' = sys w /\ Forall2 entry_kept (items w) (items w').

(** Nothing stands in the way of applying a policy to any entry: each has
    an ACL for decryption, and the executable's real path resolves when the
    trusted callers are to be computed. *)
Definition policy_applicable (w : world) (require_passphrase : Z) : Prop :=
  Forall (fun it => is_Some (decrypt_acl (item_access it))) (items w)
  /\ (require_passphrase = 1 \/ is_Some (self_real_path (sys w))).

Definition not_found_warning (N K : string) : output :=
  Text ("WARNING: key `" +:+ N +:+ "." +:+ K +:+ "` not found" +:+ newline).

(** ** Exec mode *)

(** The (key, value) pairs a namespace yields, in keychain order, as the
    value callback receives them. *)
Definition retrieved (w : world) (name : string) : list (string * string) :=
  (fun it => (cstr (item_account it), cstr (item_data it)))
    <$> filter (query_matches (ByService (encode name))) (items w).

(** A name [setenv] accepts. *)
Definition valid_env_name (k : string) : bool :=
  negb (bool_decide (k = EmptyString)) && negb (strchr k "="%char).

(** Installing one pair with overwrite enabled. *)
Definition install (env : gmap string string) (kv : string * string) : gmap string string :=
  if valid_env_name kv.1 then <[kv.1 := kv.2]> env else env.

Definition with_environ (env : gmap string string) (w : world) : world :=
  World (sys w) (envchain_name w) (envchain_keychain w) (default_keychain w)
    (keychain_files w) env (stdin w) (stdout w) (stderr w).

(** Two namespaces that both define HOST. *)
Definition two_namespace_world : world :=
  World example_system "envchain" None
    [ Item "envchain-db" "HOST" "envchain" "db.internal" [example_acl];
      Item "envchain-web" "HOST" "envchain" "www.internal" [example_acl];
      Item "envchain-web" "PORT" "envchain" "8080" [example_acl] ]
    ∅ (<["HOST" := "localhost"]> ∅) [] [] [].

(** ** Outcomes of a run *)

(** The world in which [main] dispatches when no keychain was selected. *)
Definition started (name : string) (w : world) : world :=
  World (sys w) name None (default_keychain w) (keychain_files w) (environ w)
    (stdin w) (stdout w) (stderr w).



Definition global_option_names : list string :=
  ["--keychain"; "--keychain-from-env"; "--keychain-dir"].

Definition command_names : list string :=
  ["--set"; "-s"; "--list"; "-l"; "--unset"; "--set-access"].

Definition set_option_names : list string :=
  ["-n"; "--noecho"; "-p"; "--require-passphrase"; "-P"; "--no-require-passphrase"].

Definition set_access_option_names : list string :=
  ["-p"; "--require-passphrase"; "-P"; "--no-require-passphrase"].


(** Two namespaces that both hold the key [A=B], a name that [--set]
    stores and [setenv] refuses. *)
Definition refused_key_world : world :=
  World example_system "envchain" None
    [ Item "envchain-db" "A=B" "envchain" "1" [example_acl];
      Item "envchain-web" "A=B" "envchain" "2" [example_acl] ]
    ∅ ∅ [] [] [].

(** ** Entries as a map from namespace and key *)

(** The entry [envchain_find_value] returns for a namespace and a key. *)
Definition entry (w : world) (N K : string) : option item :=
  match find_index (matches (encode N) K) (items w) with
  | Some ref => items w !! ref
  | None => None
  end.

(** The payload stored under a namespace and a key. *)
Definition stored (w : world) (N K : string) : option string :=
  item_data <$> entry w N K.

(** ** Key enumeration *)

(** A value callback that leaves the items of the active keychain alone
    whenever it returns. *)
Definition keeps_items {D} (callback : string -> string -> D -> M D) : Prop :=
  forall key value data w data' w',
    callback key value data w = Ret data' w' -> items w' = items w.

Definition namespace_not_defined_warning (self name : string) : output :=
  Text ("WARNING: namespace `" +:+ name +:+ "` not defined." +:+ newline
        +:+ "         You can set via running `" +:+ self +:+ " --set "
        +:+ name +:+ " SOME_ENV_NAME`." +:+ newline +:+ newline).

(** ** Listing *)

(** The arguments of [--list] that are not value-display flags. *)
Definition list_targets (argv : list string) : list string :=
  filter (fun t => negb (is_value_display_flag t)) argv.

Definition wants_values (argv : list string) : bool :=
  existsb is_value_display_flag argv.

(** The line printed for one entry. *)
Definition key_line (show : bool) (kv : string * string) : string :=
  if show then kv.1 +:+ "=" +:+ kv.2 +:+ newline else kv.1 +:+ newline.

(** [w'] is [w] after printing [lines] on the standard output. *)
Definition printed (lines : list string) (w w' : world) : Prop :=
  same_keychains w w'
  /\ stdout w' = stdout w ++ lines
  /\ stderr w' = stderr w
  /\ environ w' = environ w
  /\ stdin w' = stdin w
  /\ envchain_name w' = envchain_name w.

(** ** Typing values *)

(** The value [envchain_noecho_read] returns for the buffer [getline]
    leaves: the buffer without its final newline, read as a C string. *)
Definition noecho_value (line : string) : string := cstr (chop_newline line).

(** The values the noecho reads of [n] keys return when the input holds
    [lines] and then ends: past the end each read returns the empty
    buffer. *)
Definition noecho_values (n : nat) (lines : list string) : list string :=
  (noecho_value <$> lines) ++ replicate (n - length lines) EmptyString.

(** The items left by saving the pairs [kvs] one after the other. *)
Definition typed_items (N : string) (a : access) (kvs : list (string * string))
    (l : list item) : list item :=
  foldl (fun l kv => save_items N kv.1 kv.2 a l) l kvs.

(** A terminal session that types the lines [lines] and then ends. *)
Definition session (terminal : bool) (lines : list string) : world :=
  World (System (new_item_access example_system) (self_exec_path example_system)
           (self_real_path example_system) (existing_paths example_system)
           (programs example_system) terminal (errno_text example_system))
    "envchain" None
    [ Item "envchain-db" "HOST" "envchain" "localhost" [example_acl] ]
    ∅ ∅ (Some <$> lines) [] [].

(** ** Access policies in sequence *)

(** The prompt selector and the applications that
    [envchain_apply_item_access] writes over a decrypt ACL whose selector is
    [prompt], when the path of the executable resolves to [real]. *)
Definition policy_contents (s : system) (real : string)
    (require_passphrase prompt : Z) : Z * list string :=
  if bool_decide (require_passphrase = 1)
  then (Z.lor (if bool_decide (prompt = 0) then 256 else prompt)
          kSecKeychainPromptRequirePassphase, [])
  else (0, self_identity (self_exec_path s) real).

(** The item [it] after a policy was applied to its ACL entry [acl]. *)
Definition with_policy (s : system) (real : string) (require_passphrase : Z)
    (acl : nat) (e : Keychain.acl) (it : item) : item :=
  let contents := policy_contents s real require_passphrase (acl_prompt e) in
  set_item_access (<[acl := applied_acl e contents.2 contents.1]> (item_access it)) it.

(** Applications and prompt selector of the decrypt ACL of an entry. *)
Definition policy_of (w : world) (N K : string) : option (option (list string) * Z) :=
  match entry w N K with
  | Some it =>
      match decrypt_acl (item_access it) with
      | Some e => Some (acl_apps e, acl_prompt e)
      | None => None
      end
  | None => None
  end.

(** ** Choosing the keychain *)

(** A machine with one namespace keychain under [/kc]. *)
Definition mapped_world : world :=
  World (System [example_acl] "/usr/local/bin/envchain" (Some "/opt/envchain/bin/envchain")
           {["/kc/db.keychain-db"]} {["bash"]} true "No such file or directory")
    "envchain" None
    [ Item "envchain-db" "HOST" "envchain" "localhost" [example_acl] ]
    {["/kc/db.keychain-db" := [ Item "envchain-db" "HOST" "envchain" "db.internal"
                                  [example_acl] ]]}
    ∅ [] [] [].

(** ** Exec mode *)

(** The namespaces of a list that hold no entry, in the order they are
    listed. *)
Definition undefined_namespaces (w : world) (names : list string) : list string :=
  filter (fun name => bool_decide (retrieved w name = [])) names.

(** [w'] is [w] up to the environment and the diagnostic stream. *)
Definition same_but_environ_and_stderr (w w' : world) : Prop :=
  same_keychains w w' /\ stdout w' = stdout w /\ stdin w' = stdin w
  /\ envchain_name w' = envchain_name w.

(** The tokens of a list written one after the other with [delim] between
    them. *)
Fixpoint join (delim : ascii) (tokens : list string) : string :=
  match tokens with
  | [] => EmptyString
  | [t] => t
  | t :: r => t +:+ String delim (join delim r)
  end.

(** ** Option flags *)

(** The policy a flag asks for. *)
Definition policy_flag_value (flag : string) : option Z :=
  if bool_decide (flag ∈ ["-p"; "--require-passphrase"]) then Some 1
  else if bool_decide (flag ∈ ["-P"; "--no-require-passphrase"]) then Some 0
  else None.

(** The policy in force after the flags, read left to right from [init]. *)
Definition last_policy (flags : list string) (init : Z) : Z :=
  foldl (fun policy flag => default policy (policy_flag_value flag)) init flags.

Definition is_noecho_flag (flag : string) : bool :=
  bool_decide (flag ∈ ["-n"; "--noecho"]).

(** * Theorems *)

(** ** The monad and the active keychain *)

Arguments applier_key : simpl never.
Arguments eprint : simpl never.
Arguments print : simpl never.
Arguments strncmp : simpl never.
Arguments strcmp : simpl never.

Lemma items_set_items l w : items (set_items l w) = l.
Proof.
  unfold items, set_items. destruct (envchain_keychain w) as [path|]; simpl; [|done].
  by rewrite lookup_insert_eq.
Qed.

Lemma set_items_twice l1 l2 w : set_items l2 (set_items l1 w) = set_items l2 w.
Proof.
  unfold set_items. destruct (envchain_keychain w) as [path|]; simpl; [|done].
  by rewrite insert_insert_eq.
Qed.

(** ** C strings *)

Lemma string_compare_refl s : String.compare s s = Eq.
Proof.
  induction s as [|c r IH]; simpl; [done|].
  unfold Ascii.compare. by rewrite N.compare_refl.
Qed.

Lemma strcmp_eq a b : strcmp a b = 0 <-> a = b.
Proof.
  unfold strcmp. destruct (String.compare a b) eqn:E.
  - apply String.compare_eq_iff in E. by split.
  - split; [done|]. intros ->. by rewrite string_compare_refl in E.
  - split; [done|]. intros ->. by rewrite string_compare_refl in E.
Qed.

Lemma bool_decide_strcmp a b : bool_decide (strcmp a b = 0) = bool_decide (a = b).
Proof. apply bool_decide_ext, strcmp_eq. Qed.

Lemma first_char_NUL s : cstr s = s -> first_char s = NUL -> s = EmptyString.
Proof.
  destruct s as [|c r]; simpl; [done|]. intros H ->.
  by rewrite decide_True in H.
Qed.

Lemma substring_0_0 s : String.substring 0 0 s = EmptyString.
Proof. by destruct s. Qed.

Lemma strncmp_eq a b n :
  strncmp a b n = 0 <-> String.substring 0 n a = String.substring 0 n b.
Proof. apply strcmp_eq. Qed.

(** [strncmp] against a literal without NUL is the prefix test. *)
Lemma strncmp_prefix p s :
  cstr p = p ->
  strncmp (cstr s) p (strlen p) = 0 <-> String.prefix p s = true.
Proof.
  rewrite strncmp_eq. revert s. induction p as [|c p IH]; intros s Hp.
  - simpl. rewrite substring_0_0. by destruct s.
  - simpl in Hp. destruct (decide (c = NUL)) as [|Hc]; [done|].
    injection Hp as Hp.
    destruct s as [|d r]; simpl; [done|].
    destruct (decide (d = NUL)) as [->|Hd]; simpl.
    + destruct (ascii_dec c NUL); [done|]. done.
    + destruct (ascii_dec c d) as [->|Hcd].
      * split; [intros [= H]|intros H; f_equal]; by apply (IH r Hp).
      * split; [intros [= H]; congruence|done].
Qed.

Lemma prefix_app p s : String.prefix p s = true -> exists r, s = p +:+ r.
Proof.
  revert s. induction p as [|c p IH]; intros s.
  - intros _. by exists s.
  - destruct s as [|d r]; simpl; [done|]. destruct (ascii_dec c d) as [->|]; [|done].
    intros [r' ->]%IH. by exists r'.
Qed.

Lemma prefix_app_true p r : String.prefix p (p +:+ r) = true.
Proof.
  induction p as [|c p IH]; [by destruct r|].
  change (String c p +:+ r) with (String c (p +:+ r)). simpl.
  by destruct (ascii_dec c c).
Qed.

Lemma string_length_app (a b : string) :
  String.length (a +:+ b) = (String.length a + String.length b)%nat.
Proof. induction a as [|c a IH]; simpl; [done|]. by rewrite IH. Qed.

Lemma substring_all s : String.substring 0 (String.length s) s = s.
Proof. induction s as [|c s IH]; simpl; [done|]. by rewrite IH. Qed.

Lemma substring_skip p r :
  String.substring (String.length p)
    (String.length (p +:+ r) - String.length p) (p +:+ r) = r.
Proof.
  rewrite string_length_app. replace (_ + _ - _)%nat with (String.length r) by lia.
  induction p as [|c p IH]; simpl; [apply substring_all|done].
Qed.

(** ** The service-identifier codec (lines 77-96 and 208-225) *)

Lemma applier_key_service s :
  applier_key kSecServiceItemAttr s = if has_marker s then strip_marker s else s.
Proof.
  unfold applier_key, has_marker.
  destruct (String.prefix ENVCHAIN_SERVICE_PREFIX s) eqn:E.
  - rewrite bool_decide_true; [done|]. by apply strncmp_prefix.
  - rewrite bool_decide_false; [done|].
    intros H%strncmp_prefix; [congruence|done].
Qed.

Lemma strip_marker_encode n : strip_marker (encode n) = n.
Proof. apply (substring_skip ENVCHAIN_SERVICE_PREFIX n). Qed.

Lemma has_marker_encode n : has_marker (encode n) = true.
Proof. apply prefix_app_true. Qed.

Lemma has_marker_inv s : has_marker s = true -> s = encode (strip_marker s).
Proof.
  intros [r ->]%prefix_app. fold (encode r). by rewrite strip_marker_encode.
Qed.

Lemma SecKeychainItemCopyContent_eq ref tag want w :
  SecKeychainItemCopyContent ref tag want w =
  match items w !! ref with
  | Some it =>
      Ret (noErr,
           Some (match tag with
                 | kSecAccountItemAttr => item_account it
                 | kSecServiceItemAttr => item_service it
                 end),
           if want then item_data it else EmptyString) w
  | None => Ret (errSecInvalidItemRef, None, EmptyString) w
  end.
Proof.
  unfold SecKeychainItemCopyContent, bind, gets. by destruct (items w !! ref).
Qed.

(** The applier in namespace mode hands the callback the (possibly
    stripped) service identifier of the entry. *)
Lemma applier_namespace_mode {D} (cb : string -> D -> M D) (d : D) ref it w :
  items w !! ref = Some it ->
  envchain_search_values_applier ref
    {| search_callback := None; namespace_callback := Some cb; data := d |} w
  = cb (cstr (applier_key kSecServiceItemAttr (item_service it))) d w.
Proof.
  intros Hit. unfold envchain_search_values_applier, bind.
  cbn [search_callback namespace_callback data].
  rewrite bool_decide_false by (by inversion 1).
  rewrite SecKeychainItemCopyContent_eq, Hit. done.
Qed.

(** In value mode it hands over the account and the payload. *)
Lemma applier_search_mode {D} (cb : string -> string -> D -> M D) (d : D) ref it w :
  items w !! ref = Some it ->
  envchain_search_values_applier ref
    {| search_callback := Some cb; namespace_callback := None; data := d |} w
  = cb (cstr (item_account it)) (cstr (item_data it)) d w.
Proof.
  intros Hit. unfold envchain_search_values_applier, bind.
  cbn [search_callback namespace_callback data].
  rewrite bool_decide_true by (by eexists).
  rewrite SecKeychainItemCopyContent_eq, Hit. done.
Qed.

Lemma decode_eq w s :
  decode w s = Some (cstr (if has_marker s then strip_marker s else s)).
Proof.
  unfold decode.
  erewrite applier_namespace_mode by (by rewrite items_set_items).
  simpl. by rewrite applier_key_service.
Qed.

(** C5 (as the code has it): decoding the identifier of a namespace gives
    the namespace back; an identifier that lacks the marker is not rejected,
    the decoding step hands it on unchanged. *)
Theorem C5_codec_round_trip (w : world) (N : string) :
  is_cstr N ->
  decode w (encode N) = Some N /\
  (forall s, has_marker s = false -> decode w s = Some (cstr s)).
Proof.
  intros HN. split.
  - rewrite decode_eq, has_marker_encode, strip_marker_encode. by rewrite HN.
  - intros s Hs. by rewrite decode_eq, Hs.
Qed.

Lemma C5_codec_round_trip_witness :
  decode empty_world (encode "db") = Some "db" /\
  (forall s, has_marker s = false -> decode empty_world s = Some (cstr s)).
Proof. apply (C5_codec_round_trip empty_world "db"). reflexivity. Defined.

(** C5, the claim as worded fails: the identifier "login" lacks the marker
    and still decodes to a name. *)
Lemma C5_decode_without_marker :
  ~ (has_marker "login" = false -> decode empty_world "login" = None).
Proof. intros H. specialize (H eq_refl). vm_compute in H. discriminate. Qed.

(** ** Namespace inference (envchain.c, lines 365-403) *)

Lemma filter_cons_bool {A} (f : A -> bool) x (l : list A) :
  filter f (x :: l) = if f x then x :: filter f l else filter f l.
Proof.
  rewrite filter_cons. destruct (f x); simpl; first [done | by case_decide].
Qed.

Lemma head_skip_dashes argv :
  head (skip_dashes argv) = head (filter (fun t => negb (is_flag_shaped t)) argv).
Proof.
  induction argv as [|arg rest IH]; simpl; [done|].
  rewrite filter_cons_bool. unfold is_flag_shaped at 1.
  by destruct (bool_decide (first_char arg = "-"%char)).
Qed.

Lemma skip_show_value_filter argv :
  skip_show_value argv = head (filter (fun t => negb (is_value_display_flag t)) argv).
Proof.
  induction argv as [|arg rest IH]; simpl; [done|].
  rewrite !bool_decide_strcmp, filter_cons_bool. unfold is_value_display_flag at 1.
  by destruct (bool_decide (arg = "--show-value") || bool_decide (arg = "-v")).
Qed.

Lemma bool_decide_elem_of_3 (x a b c : string) :
  bool_decide (x ∈ [a; b; c])
  = bool_decide (x = a) || bool_decide (x = b) || bool_decide (x = c).
Proof.
  apply eq_true_iff_eq. rewrite bool_decide_eq_true, !orb_true_iff, !bool_decide_eq_true.
  rewrite !elem_of_cons, elem_of_nil. tauto.
Qed.

Lemma bool_decide_elem_of_2 (x a b : string) :
  bool_decide (x ∈ [a; b]) = bool_decide (x = a) || bool_decide (x = b).
Proof.
  apply eq_true_iff_eq. rewrite bool_decide_eq_true, !orb_true_iff, !bool_decide_eq_true.
  rewrite !elem_of_cons, elem_of_nil. tauto.
Qed.

Lemma non_empty_first_char (t : option string) :
  (forall s, t = Some s -> is_cstr s) ->
  match t with
  | None => None
  | Some ns => if bool_decide (first_char ns = NUL) then None else Some ns
  end = non_empty t.
Proof.
  destruct t as [ns|]; [|done]. intros H. specialize (H ns eq_refl).
  case_bool_decide as Hc.
  - by rewrite (first_char_NUL ns H Hc).
  - destruct ns; [|done]. by destruct Hc.
Qed.

Lemma namespace_from_argv_refines argv :
  Forall is_cstr argv -> envchain_namespace_from_argv argv = inferNamespace argv.
Proof.
  destruct argv as [|cmd rest]; [done|]. intros Hargv.
  apply Forall_cons in Hargv as [Hcmd Hrest].
  unfold envchain_namespace_from_argv, inferNamespace.
  rewrite !bool_decide_strcmp, bool_decide_elem_of_3, bool_decide_elem_of_2.
  rewrite head_skip_dashes, skip_show_value_filter.
  rewrite <- non_empty_first_char.
  - replace (rest !! 0%nat) with (head rest) by (by destruct rest).
    destruct (bool_decide (cmd = "--set") || bool_decide (cmd = "-s")
              || bool_decide (cmd = "--set-access")); [done|].
    destruct (bool_decide (cmd = "--unset")); [done|].
    destruct (bool_decide (cmd = "--list") || bool_decide (cmd = "-l")); [done|].
    rewrite bool_decide_not. unfold is_flag_shaped.
    destruct (bool_decide (first_char cmd = "-"%char)); simpl; [done|].
    by destruct (strchr cmd ","%char).
  - intros s Hs.
    assert (forall t : string -> bool, head (filter t rest) = Some s -> is_cstr s)
      as Hfilter.
    { intros t Ht. apply head_Some_elem_of in Ht.
      apply list_elem_of_filter in Ht as [_ Ht].
      by eapply Forall_forall in Hrest. }
    repeat match type of Hs with
           | (if ?b then _ else _) = _ => destruct b eqn:?
           end; try done.
    + by apply (Hfilter (fun t => negb (is_flag_shaped t))).
    + destruct rest; simplify_eq/=. by apply Forall_cons in Hrest as [? _].
    + by apply (Hfilter (fun t => negb (is_value_display_flag t))).
    + by simplify_eq.
Qed.

Lemma namespace_from_argv_non_empty argv :
  envchain_namespace_from_argv argv <> Some EmptyString.
Proof.
  destruct argv as [|cmd rest]; [done|]. unfold envchain_namespace_from_argv.
  match goal with
  | |- match ?t with _ => _ end <> _ => destruct t as [ns|]; [|done]
  end.
  case_bool_decide as H; [done|]. intros [= ->]. by apply H.
Qed.

(** C6: namespace inference follows the per-command rules, gives the stated
    results on the five argument lists, and never infers an empty token. *)
Theorem C6_namespace_inference (argv : list string) :
  Forall is_cstr argv ->
  envchain_namespace_from_argv argv = inferNamespace argv /\
  envchain_namespace_from_argv argv <> Some EmptyString /\
  envchain_namespace_from_argv ["--set"; "-n"; "db"; "HOST"] = Some "db" /\
  envchain_namespace_from_argv ["--unset"; "db"; "HOST"] = Some "db" /\
  envchain_namespace_from_argv ["--list"; "-v"] = None /\
  envchain_namespace_from_argv ["db,web"; "bash"] = None /\
  envchain_namespace_from_argv ["db"; "bash"] = Some "db".
Proof.
  intros Hargv. split; [by apply namespace_from_argv_refines|].
  split; [apply namespace_from_argv_non_empty|].
  by vm_compute.
Qed.

Lemma C6_namespace_inference_witness :
  envchain_namespace_from_argv ["--set-access"; "-p"; "web"; "TOKEN"]
  = inferNamespace ["--set-access"; "-p"; "web"; "TOKEN"].
Proof.
  apply (C6_namespace_inference ["--set-access"; "-p"; "web"; "TOKEN"]).
  repeat constructor.
Defined.

(** ** Ordering by [strcmp] *)

Lemma strcmp_le_leb a b : strcmp_le a b <-> String.le a b.
Proof.
  unfold strcmp_le, strcmp, String.le, String.leb.
  destruct (String.compare a b); simpl; split; (done || lia).
Qed.

Global Instance strcmp_le_total : Total strcmp_le.
Proof. intros a b. rewrite !strcmp_le_leb. apply total, _. Qed.

Global Instance strcmp_le_trans : Transitive strcmp_le.
Proof. intros a b c. rewrite !strcmp_le_leb. apply transitivity. Qed.

Global Instance strcmp_le_antisym : AntiSymm (=) strcmp_le.
Proof. intros a b. rewrite !strcmp_le_leb. apply (anti_symm _). Qed.

Lemma strcmp_lt_le a b : strcmp_lt a b <-> strcmp_le a b /\ a <> b.
Proof.
  unfold strcmp_lt, strcmp_le. rewrite <- strcmp_eq. lia.
Qed.

Lemma strcmp_lt_le_trans a b c : strcmp_lt a b -> strcmp_le b c -> strcmp_lt a c.
Proof.
  rewrite !strcmp_lt_le. intros [Hab Hne] Hbc. split; [by etrans|].
  intros ->. apply Hne. by apply (anti_symm strcmp_le).
Qed.

Lemma qsort_sorted l : StronglySorted strcmp_le (qsort envchain_sortcmp_str l).
Proof.
  unfold qsort.
  apply (StronglySorted_merge_sort strcmp_le).
Qed.

Lemma qsort_perm l : qsort envchain_sortcmp_str l ≡ₚ l.
Proof. unfold qsort. apply (merge_sort_Permutation strcmp_le). Qed.

(** Any array that [qsort] may leave holds the same strings in the same
    order. *)
Lemma qsort_strcmp_unique l l' :
  l' ≡ₚ l -> Sorted strcmp_le l' -> l' = qsort envchain_sortcmp_str l.
Proof.
  intros Hperm Hsorted. apply (Sorted_unique strcmp_le); [done| |].
  - apply StronglySorted_Sorted, qsort_sorted.
  - by rewrite qsort_perm.
Qed.

(** ** The loop that skips repeated names (lines 324-329) *)

Lemma emit_skip_repeats {D} (callback : string -> D -> M D) prev names data w :
  envchain_search_namespaces_emit callback prev names data w
  = fold_each callback (skip_repeats prev names) data w.
Proof.
  revert prev data w. induction names as [|n r IH]; intros prev data w; [done|].
  simpl. unfold bind at 1.
  assert (bool_decide (prev = None)
          || bool_decide (strcmp (default EmptyString prev) n ≠ 0)
          = negb (bool_decide (prev = Some n))) as ->.
  { destruct prev as [p|]; simpl.
    - rewrite bool_decide_not, bool_decide_strcmp. f_equal.
      apply bool_decide_ext. split; congruence.
    - done. }
  destruct (bool_decide (prev = Some n)); simpl.
  - apply IH.
  - unfold bind. destruct (callback n data w) as [d' w'|h w']; [apply IH|done].
Qed.

Lemma skip_repeats_sorted p l :
  StronglySorted strcmp_le l -> Forall (strcmp_le p) l ->
  StronglySorted strcmp_lt (skip_repeats (Some p) l)
  /\ Forall (strcmp_lt p) (skip_repeats (Some p) l)
  /\ (forall x, x ∈ skip_repeats (Some p) l <-> x ∈ l /\ x <> p).
Proof.
  revert p. induction l as [|n r IH]; intros p Hs Hp; simpl.
  - split; [constructor|]. split; [constructor|].
    intros x. split; [by intros ?%elem_of_nil|by intros [?%elem_of_nil _]].
  - apply StronglySorted_inv in Hs as [Hr Hn].
    apply Forall_cons in Hp as [Hpn Hpr].
    case_bool_decide as Heq.
    + injection Heq as ->. destruct (IH n Hr Hn) as (IH1 & IH2 & IH3).
      split; [done|]. split; [done|]. intros x. split.
      * intros Hx. apply IH3 in Hx as [? ?]. split; [by right|done].
      * intros [Hx Hne]. apply IH3. apply elem_of_cons in Hx as [?|?]; done.
    + assert (p <> n) as Hne by congruence.
      assert (strcmp_lt p n) as Hlt by (by apply strcmp_lt_le).
      destruct (IH n Hr Hn) as (IH1 & IH2 & IH3).
      assert (Forall (strcmp_lt p) (skip_repeats (Some n) r)) as Hall.
      { eapply Forall_impl; [exact IH2|]. intros x Hx. simpl in Hx.
        apply strcmp_lt_le in Hx as [Hx _]. by eapply strcmp_lt_le_trans. }
      split; [by constructor|]. split; [by constructor|]. intros x. split.
      * intros Hx. apply elem_of_cons in Hx as [->|Hx]; [split; [by left|done]|].
        split; [right; by apply IH3|].
        eapply Forall_forall in Hall; [|done]. apply strcmp_lt_le in Hall as [_ Hall].
        by intros ->.
      * intros [Hx Hxp]. apply elem_of_cons in Hx as [->|Hx]; [by left|].
        destruct (decide (x = n)) as [->|Hxn]; [by left|]. right. by apply IH3.
Qed.

Lemma skip_repeats_None_sorted l :
  StronglySorted strcmp_le l ->
  StronglySorted strcmp_lt (skip_repeats None l)
  /\ (forall x, x ∈ skip_repeats None l <-> x ∈ l).
Proof.
  destruct l as [|n r]; simpl; [by split; [constructor|]|].
  intros [Hr Hn]%StronglySorted_inv.
  destruct (skip_repeats_sorted n r Hr Hn) as (H1 & H2 & H3). split.
  - by constructor.
  - intros x. rewrite !elem_of_cons, H3.
    destruct (decide (x = n)); tauto.
Qed.

Lemma strcmp_lt_NoDup l : StronglySorted strcmp_lt l -> NoDup l.
Proof.
  induction 1 as [|x l Hs IH Hx]; constructor; [|done].
  intros Hin. eapply Forall_forall in Hx; [|done].
  apply strcmp_lt_le in Hx as [_ Hx]. done.
Qed.

(** ** Enumeration queries *)

Lemma SecItemCopyMatching_eq q w :
  SecItemCopyMatching q w =
  Ret (match find_indices (query_matches q) 0 (items w) with
       | [] => (errSecItemNotFound, [])
       | refs => (noErr, refs)
       end) w.
Proof.
  unfold SecItemCopyMatching, bind, gets.
  by destruct (find_indices (query_matches q) 0 (items w)).
Qed.

Lemma length_find_indices p i l :
  length (find_indices p i l) = length (filter p l).
Proof.
  revert i. induction l as [|it r IH]; intros i; simpl; [done|].
  rewrite filter_cons_bool. destruct (p it); simpl; by rewrite IH.
Qed.

Lemma find_indices_nil p i l : find_indices p i l = [] -> filter p l = [].
Proof.
  intros H. apply nil_length_inv. by rewrite <- (length_find_indices p i), H.
Qed.

(** Applying the applier with the collecting callback to the entries a
    query returned appends their names and leaves the world as it is. *)
Lemma collect_names {D} (p : item -> bool) w pre suf
    (context : envchain_search_namespaces_context D) :
  items w = pre ++ suf ->
  fold_each
    (fun ref context =>
       envchain_search_values_applier ref
         {| search_callback := None;
            namespace_callback := Some envchain_search_namespaces_uniqufier;
            data := context |})
    (find_indices p (length pre) suf) context w
  = Ret {| ns_callback := ns_callback context;
           head_index := head_index context + length (filter p suf);
           names := names context ++ (collected_name <$> filter p suf);
           ns_data := ns_data context |} w.
Proof.
  revert pre context. induction suf as [|it r IH]; intros pre context Hw.
  - simpl. unfold ret. destruct context; simpl.
    by rewrite Nat.add_0_r, app_nil_r.
  - simpl. rewrite filter_cons_bool.
    assert (items w = (pre ++ [it]) ++ r) as Hw' by (by rewrite <- app_assoc).
    specialize (IH (pre ++ [it])). rewrite length_app in IH. simpl in IH.
    rewrite Nat.add_1_r in IH.
    destruct (p it); [|by apply IH].
    simpl. unfold bind at 1.
    erewrite applier_namespace_mode by (by rewrite Hw, list_lookup_middle).
    unfold envchain_search_namespaces_uniqufier, ret.
    rewrite IH by done. simpl. f_equal. f_equal; [lia|].
    by rewrite <- app_assoc.
Qed.

Lemma envchain_search_namespaces_eq {D} (callback : string -> D -> M D) data w :
  envchain_search_namespaces callback data w
  = (let* data := fold_each callback (listed_namespaces w) data in ret (0, data)) w.
Proof.
  unfold envchain_search_namespaces. unfold bind at 1.
  rewrite SecItemCopyMatching_eq. unfold listed_namespaces, collected_names.
  change (query_matches (ByDescription ENVCHAIN_ITEM_DESCRIPTION)) with tagged.
  destruct (find_indices tagged 0 (items w)) as [|ref refs] eqn:E.
  - apply find_indices_nil in E. rewrite E. done.
  - rewrite bool_decide_true by done. rewrite bool_decide_false by (by intros ?).
    rewrite bool_decide_false by done. rewrite bool_decide_false by done.
    cbn [andb orb]. rewrite <- E. unfold bind at 1.
    rewrite (collect_names tagged w [] (items w)) by done.
    cbn [names ns_data app]. unfold bind.
    by rewrite emit_skip_repeats.
Qed.

(** C3: the callback of [envchain_search_namespaces] is called on the
    collected names sorted with [qsort] and stripped of every name equal to
    its predecessor; that sequence is strictly ascending in [strcmp] order,
    has no repetition, and holds exactly the collected names. *)
Theorem C3_namespaces_sorted_distinct
    {D} (callback : string -> D -> M D) (data : D) (w : world) :
  envchain_search_namespaces callback data w
  = (let* data := fold_each callback (listed_namespaces w) data in ret (0, data)) w
  /\ listed_namespaces w
     = skip_repeats None (qsort envchain_sortcmp_str (collected_names w))
  /\ StronglySorted strcmp_lt (listed_namespaces w)
  /\ NoDup (listed_namespaces w)
  /\ (forall n, n ∈ listed_namespaces w <-> n ∈ collected_names w).
Proof.
  split; [apply envchain_search_namespaces_eq|]. split; [done|].
  destruct (skip_repeats_None_sorted (qsort envchain_sortcmp_str (collected_names w)))
    as [Hsorted Hmem]; [apply qsort_sorted|].
  split; [done|]. split; [by apply strcmp_lt_NoDup|].
  intros n. unfold listed_namespaces. rewrite Hmem. by rewrite qsort_perm.
Qed.

Lemma collected_name_surfaced it : collected_name it = surfaced it.
Proof. unfold collected_name, surfaced. by rewrite applier_key_service. Qed.

(** C4 (as the code has it): enumeration scans the entries that carry the
    description tag, and each of them reaches the callback: under its
    namespace when the identifier starts with the marker, under the
    identifier itself when it does not.  No scanned entry is skipped. *)
Theorem C4_enumeration_surfaces_tagged_entries
    {D} (callback : string -> D -> M D) (data : D) (w : world) :
  envchain_search_namespaces callback data w
  = (let* data := fold_each callback (listed_namespaces w) data in ret (0, data)) w
  /\ (forall n, n ∈ listed_namespaces w <->
                exists it, it ∈ items w /\ tagged it = true /\ n = surfaced it)
  /\ (forall it, it ∈ items w -> tagged it = true ->
                 has_marker (item_service it) = true ->
                 cstr (strip_marker (item_service it)) ∈ listed_namespaces w)
  /\ (forall it, it ∈ items w -> tagged it = true ->
                 has_marker (item_service it) = false ->
                 cstr (item_service it) ∈ listed_namespaces w).
Proof.
  split; [apply envchain_search_namespaces_eq|].
  assert (forall n, n ∈ listed_namespaces w <->
                    exists it, it ∈ items w /\ tagged it = true /\ n = surfaced it) as H.
  { intros n. unfold listed_namespaces.
    destruct (skip_repeats_None_sorted (qsort envchain_sortcmp_str (collected_names w)))
      as [_ ->]; [apply qsort_sorted|].
    rewrite qsort_perm. unfold collected_names. rewrite list_elem_of_fmap.
    split.
    - intros (it & -> & Hit). apply list_elem_of_filter in Hit as [Ht Hit].
      exists it. split; [done|]. split; [by apply Is_true_true|].
      apply collected_name_surfaced.
    - intros (it & Hit & Ht & ->). exists it. split; [by rewrite collected_name_surfaced|].
      apply list_elem_of_filter. split; [by apply Is_true_true|done]. }
  split; [done|]. split.
  - intros it Hit Ht Hm. apply H. exists it. unfold surfaced. by rewrite Hm.
  - intros it Hit Ht Hm. apply H. exists it. unfold surfaced. by rewrite Hm.
Qed.

Lemma C4_enumeration_surfaces_tagged_entries_witness :
  cstr (item_service (Item "login" "alice" "envchain" "hunter2" [example_acl]))
  ∈ listed_namespaces mixed_world.
Proof.
  apply (C4_enumeration_surfaces_tagged_entries
           envchain_list_namespace_callback
           {| target := None; show_value := 0 |} mixed_world).
  - vm_compute. apply list_elem_of_further, list_elem_of_here.
  - reflexivity.
  - reflexivity.
Defined.

(** C4, the claim as worded fails: the entry of [mixed_world] whose service
    identifier is "login" does not start with the marker, and enumeration
    passes it to the callback between the namespaces. *)
Lemma C4_unmarked_entry_reaches_callback :
  has_marker "login" = false /\
  envchain_search_namespaces (fun name seen => ret (seen ++ [name])) [] mixed_world
  = Ret (0, ["db"; "login"]) mixed_world.
Proof. split; reflexivity. Qed.

(** ** The access-policy engine (envchain_osx.c, lines 126-164 and 423-476) *)

Lemma matching_acl_list_insert i a auth j e e' :
  a !! j = Some e -> acl_authorizations e' = acl_authorizations e ->
  SecAccessCopyMatchingACLList_from i (<[j := e']> a) auth
  = SecAccessCopyMatchingACLList_from i a auth.
Proof.
  revert i j. induction a as [|x r IH]; intros i j; [done|].
  destruct j as [|j]; simpl.
  - intros [= ->] ->. done.
  - intros Hj He. by rewrite (IH _ _ Hj He).
Qed.

Lemma decrypt_acl_Some a e :
  decrypt_acl a = Some e ->
  exists ref, SecAccessCopyMatchingACLList a kSecACLAuthorizationDecrypt !! 0%nat = Some ref
              /\ a !! ref = Some e.
Proof.
  unfold decrypt_acl.
  destruct (SecAccessCopyMatchingACLList a kSecACLAuthorizationDecrypt !! 0%nat) as [ref|];
    [|done].
  intros H. by exists ref.
Qed.

Lemma decrypt_acl_insert a ref e e' :
  SecAccessCopyMatchingACLList a kSecACLAuthorizationDecrypt !! 0%nat = Some ref ->
  a !! ref = Some e -> acl_authorizations e' = acl_authorizations e ->
  decrypt_acl (<[ref := e']> a) = Some e'.
Proof.
  intros Href He Hauth. unfold decrypt_acl, SecAccessCopyMatchingACLList.
  rewrite (matching_acl_list_insert _ _ _ _ e) by done.
  unfold SecAccessCopyMatchingACLList in Href. rewrite Href.
  apply list_lookup_insert_eq. by eapply lookup_lt_Some.
Qed.

Lemma envchain_self_trusted_app_list_eq w real :
  self_real_path (sys w) = Some real ->
  envchain_self_trusted_app_list w
  = Ret (self_identity (self_exec_path (sys w)) real) w.
Proof.
  intros Hreal.
  unfold envchain_self_trusted_app_list, envchain_get_self_exec_path,
    envchain_get_real_path, bind, gets, ret.
  rewrite Hreal. unfold self_identity. f_equal.
  rewrite bool_decide_not, bool_decide_strcmp.
  by destruct (decide (self_exec_path (sys w) = real)) as [->|Hne];
    [rewrite bool_decide_true|rewrite bool_decide_false].
Qed.

Lemma envchain_apply_item_access_eq w ref it acl e require_passphrase apps prompt :
  items w !! ref = Some it ->
  SecAccessCopyMatchingACLList (item_access it) kSecACLAuthorizationDecrypt !! 0%nat
    = Some acl ->
  item_access it !! acl = Some e ->
  (if bool_decide (require_passphrase = 1)
   then ret (Z.lor (if bool_decide (acl_prompt e = 0) then 256 else acl_prompt e)
               kSecKeychainPromptRequirePassphase, [])
   else let* app_list := envchain_self_trusted_app_list in ret (0, app_list)) w
  = Ret (prompt, apps) w ->
  envchain_apply_item_access (Some ref) require_passphrase w
  = Ret 0 (set_items
             (<[ref := set_item_access
                         (<[acl := applied_acl e apps prompt]> (item_access it)) it]>
                (items w)) w).
Proof.
  intros Hit Hacl He Hpolicy.
  unfold envchain_apply_item_access, SecKeychainItemCopyAccess, bind at 1, gets.
  unfold bind at 1. cbn [item_at]. rewrite Hit. unfold ret at 1.
  rewrite bool_decide_false by (by intros ?). rewrite Hacl, He.
  unfold bind at 1. rewrite Hpolicy.
  unfold SecKeychainItemSetAccess, SecACLSetContents, bind, gets, put_items, ret.
  cbn [item_at]. rewrite Hit, He.
  by rewrite bool_decide_false by (by intros ?).
Qed.

Lemma land_lor_1 x : Z.land (Z.lor x 1) 1 = 1.
Proof.
  apply Z.bits_inj'. intros n Hn. rewrite Z.land_spec, Z.lor_spec.
  change 1 with (2 ^ 0). rewrite Z.pow2_bits_eqb by lia.
  destruct (0 =? n); [by rewrite orb_true_r|apply andb_false_r].
Qed.

Lemma self_identity_spec exec real :
  (1 <= length (self_identity exec real) <= 2)%nat
  /\ (forall p, p ∈ self_identity exec real <-> p = exec \/ p = real).
Proof.
  unfold self_identity. destruct (decide (exec = real)) as [->|Hne]; simpl.
  - split; [lia|]. intros p. rewrite list_elem_of_singleton. tauto.
  - split; [lia|]. intros p. rewrite !elem_of_cons, elem_of_nil. tauto.
Qed.

(** C1 (as the code has it): on an entry with a decrypt ACL, TrustedCallers
    replaces the authorized applications by the executable's own identity
    (one or two paths) and clears the prompt selector; RequirePassphrase
    replaces them by the empty list, adds the require-passphrase flag, and
    sets the flag 0x100 when the selector was zero before.  The former
    application list plays no part in either result. *)
Theorem C1_access_policy (w : world) (ref : SecKeychainItemRef) (it : item) (e : acl) :
  items w !! ref = Some it ->
  decrypt_acl (item_access it) = Some e ->
  (forall real, self_real_path (sys w) = Some real ->
     let identity := self_identity (self_exec_path (sys w)) real in
     exists w' a',
       envchain_apply_item_access (Some ref) 0 w = Ret 0 w'
       /\ items w' = <[ref := set_item_access a' it]> (items w)
       /\ decrypt_acl a' = Some (applied_acl e identity 0)
       /\ (1 <= length identity <= 2)%nat
       /\ (forall p, p ∈ identity <-> p = self_exec_path (sys w) \/ p = real))
  /\
  (let prompt :=
     Z.lor (if bool_decide (acl_prompt e = 0) then 256 else acl_prompt e)
       kSecKeychainPromptRequirePassphase in
   exists w' a',
     envchain_apply_item_access (Some ref) 1 w = Ret 0 w'
     /\ items w' = <[ref := set_item_access a' it]> (items w)
     /\ decrypt_acl a' = Some (applied_acl e [] prompt)
     /\ Z.land prompt kSecKeychainPromptRequirePassphase
        = kSecKeychainPromptRequirePassphase
     /\ (acl_prompt e = 0 -> Z.land prompt 256 = 256)).
Proof.
  intros Hit (acl & Hacl & He)%decrypt_acl_Some. split.
  - intros real Hreal identity.
    eexists _, _. split; [|split; [|split; [|apply self_identity_spec]]].
    + eapply envchain_apply_item_access_eq; [done..|].
      rewrite bool_decide_false by done. unfold bind.
      by rewrite (envchain_self_trusted_app_list_eq w real).
    + by rewrite items_set_items.
    + by eapply decrypt_acl_insert.
  - intros prompt. eexists _, _. split; [|split; [|split; [|split]]].
    + eapply envchain_apply_item_access_eq; [done..|]. by rewrite bool_decide_true.
    + by rewrite items_set_items.
    + by eapply decrypt_acl_insert.
    + apply land_lor_1.
    + intros H0. unfold prompt. by rewrite H0.
Qed.

Lemma C1_access_policy_witness :
  (exists w' a',
     envchain_apply_item_access (Some 0%nat) 0 prompting_world = Ret 0 w'
     /\ decrypt_acl a'
        = Some (Acl [kSecACLAuthorizationDecrypt]
                  (Some ["/usr/local/bin/envchain"; "/opt/envchain/bin/envchain"])
                  "envchain-db" 0))
  /\ (exists w' a',
        envchain_apply_item_access (Some 0%nat) 1 prompting_world = Ret 0 w'
        /\ decrypt_acl a'
           = Some (Acl [kSecACLAuthorizationDecrypt] (Some []) "envchain-db" 17)).
Proof.
  destruct (C1_access_policy prompting_world 0%nat
              (Item "envchain-db" "HOST" "envchain" "localhost"
                 [Acl [kSecACLAuthorizationDecrypt] (Some ["/usr/bin/security"])
                    "envchain-db" 16])
              (Acl [kSecACLAuthorizationDecrypt] (Some ["/usr/bin/security"])
                 "envchain-db" 16) eq_refl eq_refl) as [Htrusted Hpassphrase].
  split.
  - destruct (Htrusted "/opt/envchain/bin/envchain" eq_refl) as (w' & a' & H1 & _ & H3 & _).
    exists w', a'. split; [exact H1|exact H3].
  - destruct Hpassphrase as (w' & a' & H1 & _ & H3 & _).
    exists w', a'. split; [exact H1|exact H3].
Defined.

(** C1, the claim as worded fails: on an entry whose prompt selector is
    0x0010, RequirePassphrase leaves the selector 0x0011; the flag 0x100 is
    not set. *)
Lemma C1_always_prompt_flag_not_set :
  (decrypt_acl <$> (item_access <$>
     (match envchain_apply_item_access (Some 0%nat) 1 prompting_world with
      | Ret _ w' => items w' !! 0%nat
      | Halt _ _ => None
      end)))
  = Some (Some (Acl [kSecACLAuthorizationDecrypt] (Some []) "envchain-db" 17))
  /\ Z.land 17 256 = 0.
Proof. split; reflexivity. Qed.

(** ** Entry lookup and save (envchain_osx.c, lines 399-421 and 478-527) *)

Lemma find_index_Some p l i :
  find_index p l = Some i ->
  exists it, l !! i = Some it /\ p it = true /\ filter p (take i l) = [].
Proof.
  revert i. induction l as [|x r IH]; intros i; simpl; [done|].
  destruct (p x) eqn:Hx.
  - intros [= <-]. by exists x.
  - destruct (find_index p r) as [j|] eqn:Hj; [|done]. intros [= <-].
    destruct (IH j eq_refl) as (it & Hit & Hp & Hbefore). exists it.
    simpl. rewrite filter_cons_bool, Hx. done.
Qed.

Lemma find_index_None p l : find_index p l = None -> filter p l = [].
Proof.
  induction l as [|x r IH]; simpl; [done|]. rewrite filter_cons_bool.
  destruct (p x); [done|]. destruct (find_index p r); [done|]. auto.
Qed.

Lemma find_index_first p l i it :
  l !! i = Some it -> p it = true -> filter p (take i l) = [] ->
  find_index p l = Some i.
Proof.
  revert i. induction l as [|x r IH]; intros i; [done|].
  destruct i as [|i]; simpl.
  - intros [= ->] ->. done.
  - rewrite filter_cons_bool. intros Hit Hp. destruct (p x); [done|].
    intros Hbefore. by rewrite (IH i Hit Hp Hbefore).
Qed.

Lemma envchain_find_value_eq name key w :
  envchain_find_value name key w =
  Ret (match find_index (matches (encode name) key) (items w) with
       | Some i => (1, Some i)
       | None => (0, None)
       end) w.
Proof.
  unfold envchain_find_value, SecKeychainFindGenericPassword, bind, gets, encode.
  by destruct (find_index _ (items w)).
Qed.

Lemma matches_spec service account it :
  matches service account it = true <-> entry_id it = (service, account).
Proof.
  unfold matches, entry_id. rewrite andb_true_iff, !bool_decide_eq_true.
  split; [by intros [-> ->]|by intros [= -> ->]].
Qed.

Lemma SecKeychainItemModifyAttributesAndData_eq i it attrs value w :
  items w !! i = Some it ->
  SecKeychainItemModifyAttributesAndData (Some i) attrs value w
  = Ret noErr
      (set_items
         (<[i := set_item_data value
                   (match attrs with
                    | Some d => set_item_description d it
                    | None => it
                    end)]> (items w)) w).
Proof.
  intros Hit. unfold SecKeychainItemModifyAttributesAndData, bind, gets, put_items, ret.
  change (item_at (Some i) (items w)) with (items w !! i). by rewrite Hit.
Qed.

Lemma SecKeychainAddGenericPassword_eq service account value w :
  find_index (matches service account) (items w) = None ->
  SecKeychainAddGenericPassword service account value w
  = Ret (noErr, Some (length (items w)))
      (set_items
         (items w ++ [Item service account EmptyString value (new_item_access (sys w))]) w).
Proof.
  intros Hfind. unfold SecKeychainAddGenericPassword, bind, gets, put_items, ret.
  by rewrite Hfind.
Qed.

Lemma envchain_save_value_eq N K V w :
  envchain_save_value N K V (-1) w
  = Ret tt (set_items (save_items N K V (new_item_access (sys w)) (items w)) w).
Proof.
  unfold envchain_save_value, bind. rewrite envchain_find_value_eq.
  unfold save_items.
  destruct (find_index (matches (encode N) K) (items w)) as [i|] eqn:Hfind.
  - destruct (find_index_Some _ _ _ Hfind) as (it & Hit & Hm & _). rewrite Hit.
    rewrite bool_decide_false by done.
    rewrite (SecKeychainItemModifyAttributesAndData_eq i it) by done.
    unfold ret. rewrite bool_decide_false by (by intros ?).
    erewrite SecKeychainItemModifyAttributesAndData_eq; last first.
    { rewrite items_set_items. apply list_lookup_insert_eq. by eapply lookup_lt_Some. }
    rewrite bool_decide_false by (by intros ?).
    rewrite bool_decide_false by lia.
    by rewrite items_set_items, set_items_twice, list_insert_insert_eq.
  - rewrite bool_decide_true by done.
    rewrite SecKeychainAddGenericPassword_eq by done.
    rewrite bool_decide_false by (by intros ?).
    erewrite SecKeychainItemModifyAttributesAndData_eq; last first.
    { rewrite items_set_items. by apply list_lookup_middle. }
    rewrite bool_decide_false by (by intros ?).
    rewrite bool_decide_false by lia.
    rewrite items_set_items, set_items_twice. unfold ret. do 2 f_equal.
    rewrite insert_app_r_alt by done. by rewrite Nat.sub_diag.
Qed.

(** What a save leaves under the name and key it was given. *)
Lemma save_items_lookup N K V a l :
  exists ref acc,
    find_index (matches (encode N) K) (save_items N K V a l) = Some ref
    /\ save_items N K V a l !! ref
       = Some (Item (encode N) K ENVCHAIN_ITEM_DESCRIPTION V acc)
    /\ match find_index (matches (encode N) K) l with
       | Some i => ref = i /\ (item_access <$> l !! i) = Some acc
       | None => ref = length l /\ acc = a
       end.
Proof.
  unfold save_items.
  destruct (find_index (matches (encode N) K) l) as [i|] eqn:Hfind.
  - destruct (find_index_Some _ _ _ Hfind) as (it & Hit & Hm & Hbefore). rewrite Hit.
    apply matches_spec in Hm as [= Hs Ha]. rewrite Hs, Ha.
    assert (i < length l)%nat as Hi by (by eapply lookup_lt_Some).
    exists i, (item_access it). split; [|split; [|done]].
    + eapply find_index_first.
      * by apply list_lookup_insert_eq.
      * by apply matches_spec.
      * by rewrite take_insert_ge.
    + by apply list_lookup_insert_eq.
  - exists (length l), a. split; [|split; [|done]].
    + eapply find_index_first.
      * by apply list_lookup_middle.
      * by apply matches_spec.
      * rewrite take_app_length. by apply find_index_None.
    + by apply list_lookup_middle.
Qed.

Lemma filter_matches_nil service account l :
  (service, account) ∉ entry_id <$> l -> filter (matches service account) l = [].
Proof.
  induction l as [|x r IH]; [done|]. rewrite fmap_cons, not_elem_of_cons.
  intros [Hx Hr]. rewrite filter_cons_bool.
  destruct (matches service account x) eqn:E; [|by apply IH].
  apply matches_spec in E. congruence.
Qed.

Lemma not_elem_of_entry_ids service account l :
  filter (matches service account) l = [] -> (service, account) ∉ entry_id <$> l.
Proof.
  intros Hf (it & Hid & Hit)%list_elem_of_fmap.
  assert (it ∈ filter (matches service account) l) as Hin.
  { apply list_elem_of_filter. split; [|done]. apply Is_true_true. by apply matches_spec. }
  rewrite Hf in Hin. by apply elem_of_nil in Hin.
Qed.

Lemma save_items_wf N K V a l : keychain_wf l -> keychain_wf (save_items N K V a l).
Proof.
  unfold keychain_wf, save_items. intros Hwf.
  destruct (find_index (matches (encode N) K) l) as [i|] eqn:Hfind.
  - destruct (l !! i) as [it|] eqn:Hit; [|done].
    rewrite list_fmap_insert. rewrite list_insert_id; [done|].
    by rewrite list_lookup_fmap, Hit.
  - rewrite fmap_app. apply NoDup_app. split; [done|]. split; [|apply NoDup_singleton].
    intros id Hid ->%list_elem_of_singleton. revert Hid.
    apply not_elem_of_entry_ids. by apply find_index_None.
Qed.

(** In a well-formed keychain the save leaves one entry under the name and
    key. *)
Lemma save_items_single N K V a l :
  keychain_wf l ->
  exists acc, filter (matches (encode N) K) (save_items N K V a l)
              = [Item (encode N) K ENVCHAIN_ITEM_DESCRIPTION V acc].
Proof.
  intros Hwf. unfold save_items.
  destruct (find_index (matches (encode N) K) l) as [i|] eqn:Hfind.
  - destruct (find_index_Some _ _ _ Hfind) as (it & Hit & Hm & Hbefore). rewrite Hit.
    apply matches_spec in Hm as Hid. injection Hid as Hs Ha. rewrite Hs, Ha.
    exists (item_access it).
    assert (i < length l)%nat as Hi by (by eapply lookup_lt_Some).
    rewrite insert_take_drop by done. rewrite filter_app, filter_cons_bool, Hbefore.
    replace (matches (encode N) K (Item (encode N) K ENVCHAIN_ITEM_DESCRIPTION V
                                      (item_access it))) with true
      by (symmetry; by apply matches_spec).
    rewrite filter_matches_nil; [done|].
    unfold keychain_wf in Hwf. rewrite <- (take_drop_middle l i it Hit) in Hwf.
    rewrite fmap_app, fmap_cons in Hwf.
    apply NoDup_app in Hwf as (_ & _ & Hwf). apply NoDup_cons in Hwf as [Hwf _].
    unfold entry_id at 1 in Hwf. by rewrite Hs, Ha in Hwf.
  - exists a. rewrite filter_app, (find_index_None _ _ Hfind). simpl.
    rewrite filter_cons_bool.
    replace (matches (encode N) K (Item (encode N) K ENVCHAIN_ITEM_DESCRIPTION V a))
      with true by (symmetry; by apply matches_spec).
    done.
Qed.

Lemma save_items_idem N K V a l :
  save_items N K V a (save_items N K V a l) = save_items N K V a l.
Proof.
  destruct (save_items_lookup N K V a l) as (ref & acc & Hfind & Hit & _).
  unfold save_items at 1. rewrite Hfind, Hit. simpl. by apply list_insert_id.
Qed.

Lemma sys_set_items l w : sys (set_items l w) = sys w.
Proof. unfold set_items. by destruct (envchain_keychain w). Qed.

(** C2: after [save(N,K,V,Unspecified)], [find(N,K)] locates the one entry
    stored under the encoded service identifier and the key; its payload
    reads back as V and it carries the description tag, whether the save
    created the entry or updated it in place; saving V again changes
    nothing. *)
Theorem C2_save_then_find (w : world) (N K V : string) :
  keychain_wf (items w) ->
  exists w' ref acc,
    let entry := Item (encode N) K ENVCHAIN_ITEM_DESCRIPTION V acc in
    envchain_save_value N K V (-1) w = Ret tt w'
    /\ envchain_find_value N K w' = Ret (1, Some ref) w'
    /\ items w' !! ref = Some entry
    /\ SecKeychainItemCopyContent ref kSecAccountItemAttr true w'
       = Ret (noErr, Some K, V) w'
    /\ filter (matches (encode N) K) (items w') = [entry]
    /\ match find_index (matches (encode N) K) (items w) with
       | None => items w' = items w ++ [entry]
       | Some i => ref = i /\ items w' = <[i := entry]> (items w)
       end
    /\ envchain_save_value N K V (-1) w' = Ret tt w'
    /\ keychain_wf (items w').
Proof.
  intros Hwf. set (a := new_item_access (sys w)).
  destruct (save_items_lookup N K V a (items w)) as (ref & acc & Hfind & Hit & Hcase).
  destruct (save_items_single N K V a (items w) Hwf) as (acc' & Hsingle).
  assert (acc' = acc) as ->.
  { assert (Item (encode N) K ENVCHAIN_ITEM_DESCRIPTION V acc
            ∈ filter (matches (encode N) K) (save_items N K V a (items w))) as Hin.
    { apply list_elem_of_filter. split.
      - apply Is_true_true. by apply matches_spec.
      - by eapply list_elem_of_lookup_2. }
    rewrite Hsingle in Hin. apply list_elem_of_singleton in Hin. by injection Hin. }
  exists (set_items (save_items N K V a (items w)) w), ref, acc. simpl.
  rewrite !items_set_items.
  split; [apply envchain_save_value_eq|].
  split; [by rewrite envchain_find_value_eq, items_set_items, Hfind|].
  split; [done|].
  split; [by rewrite SecKeychainItemCopyContent_eq, items_set_items, Hit|].
  split; [done|]. split; [|split].
  - unfold save_items in *.
    destruct (find_index (matches (encode N) K) (items w)) as [i|] eqn:Hfind0.
    + destruct Hcase as [-> Hacc]. split; [done|].
      destruct (items w !! i) as [it|] eqn:Hi; [|done].
      rewrite list_lookup_insert_eq in Hit by (by eapply lookup_lt_Some).
      injection Hit as Hs Ha Hc. by rewrite Hs, Ha, Hc.
    + by destruct Hcase as [-> ->].
  - rewrite envchain_save_value_eq, items_set_items, sys_set_items. fold a.
    by rewrite save_items_idem, set_items_twice.
  - by apply save_items_wf.
Qed.

Lemma C2_save_then_find_witness :
  exists w' ref acc,
    envchain_save_value "db" "HOST" "db.internal" (-1) db_world = Ret tt w'
    /\ envchain_find_value "db" "HOST" w' = Ret (1, Some ref) w'
    /\ items w' !! ref
       = Some (Item (encode "db") "HOST" ENVCHAIN_ITEM_DESCRIPTION "db.internal" acc).
Proof.
  destruct (C2_save_then_find db_world "db" "HOST" "db.internal")
    as (w' & ref & acc & H1 & H2 & H3 & _).
  - unfold keychain_wf. apply (bool_decide_unpack _). vm_compute. exact I.
  - exists w', ref, acc. split; [exact H1|]. split; [exact H2|exact H3].
Defined.

(** ** Frames: what leaves the access objects alone *)

Lemma same_keychains_items w w' : same_keychains w w' -> items w' = items w.
Proof. intros (_ & Hk & Hd & Hf). unfold items. by rewrite Hk, Hd, Hf. Qed.

Lemma same_keychains_refl w : same_keychains w w.
Proof. by repeat split. Qed.

Lemma same_keychains_trans w1 w2 w3 :
  same_keychains w1 w2 -> same_keychains w2 w3 -> same_keychains w1 w3.
Proof.
  intros (? & ? & ? & ?) (? & ? & ? & ?). repeat split; by etrans.
Qed.

Lemma eprint_same o w : exists w', eprint o w = Ret tt w' /\ same_keychains w w'.
Proof. eexists. split; [reflexivity|]. by repeat split. Qed.

Lemma print_same s w : exists w', print s w = Ret tt w' /\ same_keychains w w'.
Proof. eexists. split; [reflexivity|]. by repeat split. Qed.

Lemma read_line_same w : exists l w', read_line w = Ret l w' /\ same_keychains w w'.
Proof.
  unfold read_line. destruct (stdin w) as [|l rest]; eexists _, _;
    (split; [reflexivity|]); by repeat split.
Qed.

Lemma getline_same w : exists r w', getline w = Ret r w' /\ same_keychains w w'.
Proof.
  unfold getline, bind. destruct (read_line_same w) as ([line|] & w' & -> & Hs);
    by eexists _, _.
Qed.

Lemma envchain_abort_with_help_eq {A} w :
  exists w', @envchain_abort_with_help A w = Halt (Exited 2) w'
             /\ same_keychains w w'
             /\ stderr w' = stderr w ++ [Text (help_text (envchain_name w))]
             /\ stdout w' = stdout w.
Proof. eexists. split; [reflexivity|]. by repeat split. Qed.

Lemma acl_untouched_same w w' : same_keychains w w' -> acl_untouched w w'.
Proof.
  intros Hs. pose proof (same_keychains_items _ _ Hs) as Hi.
  destruct Hs as (Hsys & _). split; [done|]. rewrite Hi. split.
  - intros i it Hit. by exists it.
  - intros i it' Hle Hit. apply lookup_lt_Some in Hit. lia.
Qed.

Lemma acl_untouched_trans w1 w2 w3 :
  acl_untouched w1 w2 -> acl_untouched w2 w3 -> acl_untouched w1 w3.
Proof.
  intros (Hs1 & Hold1 & Hnew1) (Hs2 & Hold2 & Hnew2). split; [by etrans|]. split.
  - intros i it Hit. destruct (Hold1 i it Hit) as (it2 & Hit2 & Ha2).
    destruct (Hold2 i it2 Hit2) as (it3 & Hit3 & Ha3). exists it3.
    split; [done|]. by etrans.
  - intros i it3 Hle Hit3. destruct (items w2 !! i) as [it2|] eqn:Hit2.
    + destruct (Hold2 i it2 Hit2) as (it3' & Hit3' & Ha3).
      assert (it3' = it3) as -> by congruence. rewrite Ha3. by eapply Hnew1.
    + rewrite <- Hs1. eapply Hnew2; [|done]. by apply lookup_ge_None.
Qed.

Lemma save_items_acl N K V a l :
  (forall i it, l !! i = Some it ->
     exists it', save_items N K V a l !! i = Some it' /\ item_access it' = item_access it)
  /\ (forall i it', (length l <= i)%nat -> save_items N K V a l !! i = Some it' ->
        item_access it' = a).
Proof.
  unfold save_items.
  destruct (find_index (matches (encode N) K) l) as [j|] eqn:Hfind.
  - destruct (find_index_Some _ _ _ Hfind) as (itj & Hj & _). rewrite Hj. split.
    + intros i it Hit. destruct (decide (j = i)) as [->|Hne].
      * eexists. split; [apply list_lookup_insert_eq; by eapply lookup_lt_Some|].
        simpl. congruence.
      * exists it. by rewrite list_lookup_insert_ne.
    + intros i it' Hle Hit. apply lookup_lt_Some in Hit. rewrite length_insert in Hit. lia.
  - split.
    + intros i it Hit. exists it. split; [by apply lookup_app_l_Some|done].
    + intros i it' Hle Hit. rewrite lookup_app_r in Hit by done.
      by apply list_lookup_singleton_Some in Hit as [_ <-].
Qed.

Lemma envchain_save_value_acl_untouched N K V w :
  exists w', envchain_save_value N K V (-1) w = Ret tt w'
             /\ acl_untouched w w'
             /\ stderr w' = stderr w.
Proof.
  eexists. split; [apply envchain_save_value_eq|].
  destruct (save_items_acl N K V (new_item_access (sys w)) (items w)) as [Hold Hnew].
  split; [|unfold set_items; by destruct (envchain_keychain w)].
  split; [apply sys_set_items|]. by rewrite items_set_items.
Qed.

(** One step of a computation that only reads or prints. *)
Ltac frame_step :=
  let w' := fresh "w" in
  let H := fresh "Hs" in
  match goal with
  | |- context [print ?s ?w] => destruct (print_same s w) as (w' & -> & H)
  | |- context [eprint ?o ?w] => destruct (eprint_same o w) as (w' & -> & H)
  | |- context [getline ?w] =>
      let len := fresh "len" in
      let str := fresh "str" in
      destruct (getline_same w) as ([len str] & w' & -> & H)
  | |- context [read_line ?w] =>
      let l := fresh "l" in destruct (read_line_same w) as (l & w' & -> & H)
  end;
  cbv beta iota.

Lemma envchain_ask_value_same name key noecho w :
  exists v w', envchain_ask_value name key noecho w = Ret v w' /\ same_keychains w w'.
Proof.
  unfold envchain_ask_value. cbv zeta. case_bool_decide.
  - unfold envchain_noecho_read, bind, gets. destruct (terminal (sys w)); cbn [negb].
    + repeat frame_step. eexists _, _. split; [reflexivity|].
      eauto using same_keychains_trans.
    + repeat frame_step. by eexists _, _.
  - unfold bind. repeat frame_step.
    eexists _, _. split; [reflexivity|]. eauto using same_keychains_trans.
Qed.

Lemma envchain_set_keys_acl_untouched name keys noecho w :
  acl_untouched w (final_world (envchain_set_keys name keys noecho (-1) w)).
Proof.
  revert w. induction keys as [|key rest IH]; intros w; simpl.
  - apply acl_untouched_same, same_keychains_refl.
  - unfold bind.
    destruct (envchain_ask_value_same name key noecho w) as (v & w1 & -> & H1).
    apply acl_untouched_same in H1.
    destruct v as [value|]; [|done].
    destruct (envchain_save_value_acl_untouched name key value w1) as (w2 & -> & H2 & _).
    eapply acl_untouched_trans; [done|]. eapply acl_untouched_trans; [done|]. apply IH.
Qed.

Lemma envchain_set_options_unspecified argv st :
  Forall (fun arg => is_policy_flag arg = false) argv -> st.2 = -1 ->
  match envchain_set_options argv st with
  | Parsed (_, require_passphrase) _ => require_passphrase = -1
  | UnknownOption _ => True
  end.
Proof.
  revert st. induction argv as [|arg rest IH]; intros [noecho rp] Hargv Hst; [done|].
  apply Forall_cons in Hargv as [Harg Hrest]. cbn [envchain_set_options].
  unfold is_policy_flag in Harg. apply bool_decide_eq_false in Harg.
  rewrite !elem_of_cons, elem_of_nil in Harg.
  destruct (bool_decide (2 < argc (arg :: rest))); [|done]. cbn [negb].
  destruct (bool_decide (first_char arg ≠ "-"%char)); [done|].
  destruct (bool_decide (strcmp arg "-n" = 0) || bool_decide (strcmp arg "--noecho" = 0));
    [by apply IH|].
  rewrite !bool_decide_strcmp.
  rewrite (bool_decide_false (arg = "-p")), (bool_decide_false (arg = "-P")),
    (bool_decide_false (arg = "--require-passphrase")),
    (bool_decide_false (arg = "--no-require-passphrase")) by tauto.
  done.
Qed.

Lemma same_value_find service account l l' :
  Forall2 same_value l l' ->
  find_index (matches service account) l' = find_index (matches service account) l.
Proof.
  induction 1 as [|it it' l l' (Hs & Ha & _) _ IH]; [done|]. simpl.
  unfold matches at 1 3. by rewrite Hs, Ha, IH.
Qed.

(** The items a save leaves do not depend on the access objects it finds. *)
Lemma save_items_same_value N K V a a' l l' :
  Forall2 same_value l l' ->
  Forall2 same_value (save_items N K V a l) (save_items N K V a' l').
Proof.
  intros H. unfold save_items. rewrite (same_value_find _ _ _ _ H).
  destruct (find_index (matches (encode N) K) l) as [i|].
  - destruct (l !! i) as [it|] eqn:Hit.
    + destruct (Forall2_lookup_l _ _ _ _ _ H Hit) as (it' & -> & Hs & Ha & _).
      apply Forall2_insert; [done|]. unfold same_value. simpl. by rewrite Hs, Ha.
    + assert (l' !! i = None) as ->; [|done].
      apply lookup_ge_None. apply lookup_ge_None in Hit.
      by rewrite <- (Forall2_length _ _ _ H).
  - apply Forall2_app; [done|]. by repeat constructor.
Qed.

(** C8: a save with the policy left Unspecified writes the value and the
    description and rewrites no access object: the entries that existed
    keep their access, a created entry has the access the keychain gave it,
    and the items it leaves are the same whatever the access objects hold;
    a [--set] run without -p and -P saves every key that way. *)
Theorem C8_unspecified_keeps_access (w : world) (N K V : string) (argv : list string) :
  (exists w',
     envchain_save_value N K V (-1) w = Ret tt w'
     /\ acl_untouched w w'
     /\ stderr w' = stderr w
     /\ (exists ref it,
           envchain_find_value N K w' = Ret (1, Some ref) w'
           /\ items w' !! ref = Some it
           /\ item_data it = V
           /\ item_description it = ENVCHAIN_ITEM_DESCRIPTION)
     /\ (forall v, Forall2 same_value (items w) (items v) ->
           exists v', envchain_save_value N K V (-1) v = Ret tt v'
                      /\ Forall2 same_value (items w') (items v')))
  /\ (Forall (fun arg => is_policy_flag arg = false) argv ->
      acl_untouched w (final_world (envchain_set argv w))).
Proof.
  split.
  - destruct (envchain_save_value_acl_untouched N K V w) as (w' & Hsave & Hacl & Herr).
    exists w'. split; [done|]. split; [done|]. split; [done|].
    rewrite envchain_save_value_eq in Hsave. injection Hsave as <-.
    destruct (save_items_lookup N K V (new_item_access (sys w)) (items w))
      as (ref & acc & Hfind & Hit & _).
    split.
    + exists ref, (Item (encode N) K ENVCHAIN_ITEM_DESCRIPTION V acc).
      rewrite envchain_find_value_eq, items_set_items, Hfind. done.
    + intros v Hv. eexists. split; [apply envchain_save_value_eq|].
      rewrite !items_set_items. by apply save_items_same_value.
  - intros Hargv. unfold envchain_set.
    pose proof (envchain_set_options_unspecified argv (0, -1) Hargv eq_refl) as Hopt.
    destruct (envchain_set_options argv (0, -1)) as [[noecho rp] rest|arg].
    + subst rp. case_bool_decide.
      * destruct (@envchain_abort_with_help_eq Z w) as (w' & -> & Hs & _).
        by apply acl_untouched_same.
      * destruct rest as [|name keys].
        -- destruct (@envchain_abort_with_help_eq Z w) as (w' & -> & Hs & _).
           by apply acl_untouched_same.
        -- apply envchain_set_keys_acl_untouched.
    + unfold bind.
      destruct (eprint_same (Text ("Unknown option: " +:+ arg +:+ newline)) w)
        as (w' & -> & Hs).
      by apply acl_untouched_same.
Qed.

Lemma C8_unspecified_keeps_access_witness :
  acl_untouched typing_world (final_world (envchain_set ["-n"; "db"; "PORT"] typing_world)).
Proof.
  apply (C8_unspecified_keeps_access typing_world "db" "PORT" "5432" ["-n"; "db"; "PORT"]).
  repeat (constructor; [reflexivity|]). constructor.
Defined.

(** ** Policy-only updates (envchain_osx.c, lines 529-550; envchain.c, 282-323) *)

Lemma entry_kept_refl it : entry_kept it it.
Proof. by repeat split. Qed.

Lemma entries_kept_refl w : entries_kept w w.
Proof. split; [done|]. apply Forall2_same_length_lookup. split; [done|].
  intros i x y Hx Hy. assert (x = y) as -> by congruence. apply entry_kept_refl. Qed.

Lemma entry_kept_trans a b c : entry_kept a b -> entry_kept b c -> entry_kept a c.
Proof.
  intros (? & ? & ? & ? & ?) (? & ? & ? & ? & ?). repeat split; by etrans.
Qed.

Lemma entries_kept_trans w1 w2 w3 :
  entries_kept w1 w2 -> entries_kept w2 w3 -> entries_kept w1 w3.
Proof.
  intros [Hs1 H1] [Hs2 H2]. split; [by etrans|].
  eapply Forall2_trans; [|done..]. apply entry_kept_trans.
Qed.

Lemma entries_kept_same w w' : same_keychains w w' -> entries_kept w w'.
Proof.
  intros Hs. pose proof (same_keychains_items _ _ Hs) as Hi. destruct Hs as [Hsys _].
  split; [done|]. rewrite Hi. apply (entries_kept_refl w).
Qed.

Lemma entries_kept_find service account w w' :
  entries_kept w w' ->
  find_index (matches service account) (items w')
  = find_index (matches service account) (items w).
Proof.
  intros [_ H]. induction H as [|it it' l l' Hk _ IH]; [done|]. simpl.
  destruct Hk as (Hs & Ha & _). unfold matches at 1 3. by rewrite Hs, Ha, IH.
Qed.

Lemma entries_kept_present w w' N K : entries_kept w w' -> present w' N K = present w N K.
Proof. intros H. unfold present. by rewrite (entries_kept_find _ _ _ _ H). Qed.

Lemma entries_kept_data w w' :
  entries_kept w w' -> item_data <$> items w' = item_data <$> items w.
Proof.
  intros [_ H]. induction H as [|it it' l l' Hk _ IH]; [done|].
  destruct Hk as (_ & _ & _ & Hd & _). by rewrite !fmap_cons, Hd, IH.
Qed.

Lemma matching_acl_list_authorizations i a a' auth :
  acl_authorizations <$> a' = acl_authorizations <$> a ->
  SecAccessCopyMatchingACLList_from i a' auth = SecAccessCopyMatchingACLList_from i a auth.
Proof.
  revert i a'. induction a as [|e r IH]; intros i [|e' r']; try done.
  rewrite !fmap_cons. intros [= He Hr]. simpl. by rewrite He, (IH _ _ Hr).
Qed.

Lemma decrypt_acl_authorizations a a' :
  acl_authorizations <$> a' = acl_authorizations <$> a ->
  is_Some (decrypt_acl a) -> is_Some (decrypt_acl a').
Proof.
  intros Hauth [e (ref & Href & He)%decrypt_acl_Some].
  unfold decrypt_acl, SecAccessCopyMatchingACLList.
  rewrite (matching_acl_list_authorizations _ a) by done.
  unfold SecAccessCopyMatchingACLList in Href. rewrite Href.
  apply lookup_lt_is_Some. apply lookup_lt_Some in He.
  apply (f_equal length) in Hauth. rewrite !length_fmap in Hauth. lia.
Qed.

Lemma entries_kept_applicable w w' require_passphrase :
  entries_kept w w' ->
  policy_applicable w require_passphrase -> policy_applicable w' require_passphrase.
Proof.
  intros [Hsys H] [Hacl Hreal]. split; [|by rewrite Hsys].
  clear Hsys Hreal. induction H as [|it it' l l' Hk _ IH]; [done|].
  apply Forall_cons in Hacl as [Hit Hl]. constructor; [|by apply IH].
  destruct Hk as (_ & _ & _ & _ & Hauth). by eapply decrypt_acl_authorizations.
Qed.

Lemma stderr_set_items l w : stderr (set_items l w) = stderr w.
Proof. unfold set_items. by destruct (envchain_keychain w). Qed.

Lemma envchain_apply_item_access_kept w ref it require_passphrase :
  items w !! ref = Some it ->
  is_Some (decrypt_acl (item_access it)) ->
  require_passphrase = 1 \/ is_Some (self_real_path (sys w)) ->
  exists w', envchain_apply_item_access (Some ref) require_passphrase w = Ret 0 w'
             /\ entries_kept w w' /\ stderr w' = stderr w.
Proof.
  intros Hit [e (acl & Hacl & He)%decrypt_acl_Some] Hreal.
  assert (exists prompt apps,
            (if bool_decide (require_passphrase = 1)
             then ret (Z.lor (if bool_decide (acl_prompt e = 0) then 256 else acl_prompt e)
                         kSecKeychainPromptRequirePassphase, [])
             else let* app_list := envchain_self_trusted_app_list in ret (0, app_list)) w
            = Ret (prompt, apps) w) as (prompt & apps & Hpolicy).
  { case_bool_decide as Hrp; [by eexists _, _|].
    destruct Hreal as [?|[real Hreal]]; [done|]. unfold bind.
    rewrite (envchain_self_trusted_app_list_eq w real Hreal). by eexists _, _. }
  eexists. split; [by eapply envchain_apply_item_access_eq|].
  split; [|apply stderr_set_items].
  split; [apply sys_set_items|]. rewrite items_set_items.
  rewrite <- (list_insert_id (items w) ref it) at 1 by done.
  apply Forall2_insert; [apply (entries_kept_refl w)|].
  unfold entry_kept. simpl. repeat (split; [done|]).
  rewrite list_fmap_insert. apply list_insert_id.
  by rewrite list_lookup_fmap, He.
Qed.

Lemma envchain_update_value_access_absent N K require_passphrase w :
  0 <= require_passphrase ->
  find_index (matches (encode N) K) (items w) = None ->
  exists w', envchain_update_value_access N K require_passphrase w = Ret 1 w'
             /\ same_keychains w w'
             /\ stderr w' = stderr w ++ [not_found_warning N K].
Proof.
  intros Hrp Hfind. unfold envchain_update_value_access.
  rewrite bool_decide_false by lia. unfold bind at 1.
  rewrite envchain_find_value_eq, Hfind. rewrite bool_decide_true by done.
  eexists. split; [reflexivity|]. by repeat split.
Qed.

Lemma envchain_update_value_access_spec N K require_passphrase w :
  0 <= require_passphrase -> policy_applicable w require_passphrase ->
  exists w', envchain_update_value_access N K require_passphrase w
             = Ret (if present w N K then 0 else 1) w'
             /\ entries_kept w w'.
Proof.
  intros Hrp [Hacl Hreal]. unfold present.
  destruct (find_index (matches (encode N) K) (items w)) as [ref|] eqn:Hfind.
  - rewrite bool_decide_true by done. unfold envchain_update_value_access.
    rewrite bool_decide_false by lia. unfold bind at 1.
    rewrite envchain_find_value_eq, Hfind. rewrite bool_decide_false by done.
    destruct (find_index_Some _ _ _ Hfind) as (it & Hit & _).
    destruct (envchain_apply_item_access_kept w ref it require_passphrase)
      as (w' & Happly & Hkept & _); [done| |done|].
    { eapply Forall_forall in Hacl; [done|]. by eapply list_elem_of_lookup_2. }
    unfold bind. rewrite Happly. by exists w'.
  - rewrite bool_decide_false by (by inversion 1).
    destruct (envchain_update_value_access_absent N K require_passphrase w)
      as (w' & Hupd & Hsame & _); [done..|].
    exists w'. split; [done|]. by apply entries_kept_same.
Qed.

Lemma forallb_pointwise {A} (f g : A -> bool) l :
  (forall x, f x = g x) -> forallb f l = forallb g l.
Proof. intros H. induction l as [|x r IH]; simpl; [done|]. by rewrite H, IH. Qed.

Lemma envchain_set_access_keys_spec N keys require_passphrase result w :
  0 <= require_passphrase -> policy_applicable w require_passphrase ->
  exists w', envchain_set_access_keys N keys require_passphrase result w
             = Ret (if forallb (present w N) keys then result else 1) w'
             /\ entries_kept w w'.
Proof.
  intros Hrp. revert result w. induction keys as [|K rest IH]; intros result w Happ.
  - exists w. split; [done|apply entries_kept_refl].
  - cbn [envchain_set_access_keys forallb]. unfold bind.
    destruct (envchain_update_value_access_spec N K require_passphrase w)
      as (w1 & -> & Hk1); [done..|].
    destruct (IH (if bool_decide ((if present w N K then 0 else 1) ≠ 0) then 1 else result)
                w1) as (w2 & -> & Hk2); [by eapply entries_kept_applicable|].
    exists w2. split; [|by eapply entries_kept_trans].
    f_equal. rewrite (forallb_pointwise (present w1 N) (present w N))
      by (intros K'; by apply entries_kept_present).
    destruct (present w N K); simpl; [done|]. by destruct (forallb _ rest).
Qed.

Lemma envchain_set_access_options_stop N keys require_passphrase :
  first_char N <> "-"%char ->
  envchain_set_access_options (N :: keys) require_passphrase
  = Parsed require_passphrase (N :: keys).
Proof.
  intros HN. cbn [envchain_set_access_options].
  destruct (bool_decide (2 < argc (N :: keys))); [|done]. cbn [negb].
  by rewrite bool_decide_true.
Qed.

Lemma envchain_set_access_options_flag (flag : string) value rest require_passphrase :
  (flag = "-p" /\ value = 1) \/ (flag = "-P" /\ value = 0) ->
  2 < argc (flag :: rest) ->
  envchain_set_access_options (flag :: rest) require_passphrase
  = envchain_set_access_options rest value.
Proof.
  intros Hflag Hargc.
  change (envchain_set_access_options (flag :: rest) require_passphrase)
    with (if negb (bool_decide (2 < argc (flag :: rest)))
          then Parsed require_passphrase (flag :: rest)
          else if bool_decide (first_char flag ≠ "-"%char)
          then Parsed require_passphrase (flag :: rest)
          else if bool_decide (strcmp flag "-p" = 0)
                  || bool_decide (strcmp flag "--require-passphrase" = 0)
          then envchain_set_access_options rest 1
          else if bool_decide (strcmp flag "-P" = 0)
                  || bool_decide (strcmp flag "--no-require-passphrase" = 0)
          then envchain_set_access_options rest 0
          else UnknownOption flag).
  rewrite (bool_decide_true _ Hargc).
  by destruct Hflag as [[-> ->]|[-> ->]].
Qed.

(** A [--set-access] run with a policy flag, a namespace and keys is the
    loop over the keys. *)
Lemma envchain_set_access_run N K keys w :
  first_char N <> "-"%char ->
  envchain_set_access ("-p" :: N :: K :: keys) w
  = envchain_set_access_keys N (K :: keys) 1 0 w
  /\ envchain_set_access ("-P" :: N :: K :: keys) w
     = envchain_set_access_keys N (K :: keys) 0 0 w.
Proof.
  intros HN. unfold envchain_set_access.
  assert (2 < argc ("-p" :: N :: K :: keys) /\ 2 < argc ("-P" :: N :: K :: keys)
          /\ ~ argc (N :: K :: keys) < 2) as (H1 & H2 & H3).
  { unfold argc. simpl length. lia. }
  split.
  - rewrite (envchain_set_access_options_flag "-p" 1) by auto.
    rewrite envchain_set_access_options_stop by done.
    by rewrite (bool_decide_false _ H3).
  - rewrite (envchain_set_access_options_flag "-P" 0) by auto.
    rewrite envchain_set_access_options_stop by done.
    by rewrite (bool_decide_false _ H3).
Qed.

(** C7: on a key that has no entry, [updateAccess] prints the warning,
    returns 1 and leaves every keychain as it was; [--set-access] goes on
    with the keys that follow, and its overall result is 1 when a key was
    missing and 0 when all were found, no stored value having changed. *)
Theorem C7_update_access_on_missing_key
    (w : world) (N K : string) (require_passphrase : Z) (keys : list string) :
  0 <= require_passphrase ->
  (find_index (matches (encode N) K) (items w) = None ->
   exists w',
     envchain_update_value_access N K require_passphrase w = Ret 1 w'
     /\ same_keychains w w'
     /\ stderr w' = stderr w ++ [not_found_warning N K]
     /\ forall rest result,
          envchain_set_access_keys N (K :: rest) require_passphrase result w
          = envchain_set_access_keys N rest require_passphrase 1 w')
  /\ (policy_applicable w require_passphrase ->
      exists w',
        envchain_set_access_keys N keys require_passphrase 0 w
        = Ret (if forallb (present w N) keys then 0 else 1) w'
        /\ entries_kept w w'
        /\ item_data <$> items w' = item_data <$> items w)
  /\ (first_char N <> "-"%char ->
      envchain_set_access ("-p" :: N :: K :: keys) w
      = envchain_set_access_keys N (K :: keys) 1 0 w
      /\ envchain_set_access ("-P" :: N :: K :: keys) w
         = envchain_set_access_keys N (K :: keys) 0 0 w).
Proof.
  intros Hrp. split; [|split].
  - intros Hfind.
    destruct (envchain_update_value_access_absent N K require_passphrase w Hrp Hfind)
      as (w' & Hupd & Hsame & Herr).
    exists w'. repeat (split; [done|]). intros rest result.
    cbn [envchain_set_access_keys]. unfold bind. by rewrite Hupd.
  - intros Happ.
    destruct (envchain_set_access_keys_spec N keys require_passphrase 0 w Hrp Happ)
      as (w' & Hkeys & Hkept).
    exists w'. split; [done|]. split; [done|]. by apply entries_kept_data.
  - apply envchain_set_access_run.
Qed.

Lemma C7_update_access_on_missing_key_witness :
  (exists w',
     envchain_update_value_access "db" "USER" 1 db_world = Ret 1 w'
     /\ same_keychains db_world w'
     /\ stderr w' = stderr db_world ++ [not_found_warning "db" "USER"])
  /\ (exists w',
        envchain_set_access_keys "db" ["HOST"; "USER"; "PORT"] 1 0 db_world = Ret 1 w'
        /\ item_data <$> items w' = item_data <$> items db_world).
Proof.
  destruct (C7_update_access_on_missing_key db_world "db" "USER" 1 ["HOST"; "USER"; "PORT"])
    as (Hmissing & Hkeys & _); [done|].
  split.
  - destruct (Hmissing eq_refl) as (w' & H1 & H2 & H3 & _).
    exists w'. split; [exact H1|]. split; [exact H2|exact H3].
  - destruct Hkeys as (w' & H1 & _ & H2).
    + split; [|by left]. repeat (constructor; [by eexists|]). constructor.
    + exists w'. split; [exact H1|exact H2].
Defined.

(** ** Exec mode (envchain.c, lines 327-363) *)

Lemma with_environ_same env w : same_keychains w (with_environ env w).
Proof. by repeat split. Qed.

Lemma with_environ_id w : with_environ (environ w) w = w.
Proof. by destruct w. Qed.

Lemma envchain_exec_value_callback_eq key value w :
  envchain_exec_value_callback key value tt w
  = Ret tt (with_environ (install (environ w) (key, value)) w).
Proof.
  unfold envchain_exec_value_callback, setenv, bind, install, valid_env_name. simpl.
  destruct (bool_decide (key = EmptyString)); simpl; [by rewrite with_environ_id|].
  destruct (strchr key "="%char); simpl; [by rewrite with_environ_id|]. done.
Qed.

Lemma install_values w p pre suf :
  items w = pre ++ suf ->
  fold_each
    (fun ref data =>
       envchain_search_values_applier ref
         {| search_callback := Some envchain_exec_value_callback;
            namespace_callback := None; data := data |})
    (find_indices p (length pre) suf) tt w
  = Ret tt (with_environ
              (foldl install (environ w)
                 ((fun it => (cstr (item_account it), cstr (item_data it)))
                    <$> filter p suf)) w).
Proof.
  revert w pre. induction suf as [|it r IH]; intros w pre Hw.
  - simpl. by rewrite with_environ_id.
  - simpl. rewrite filter_cons_bool.
    assert (forall w', items w' = items w -> items w' = (pre ++ [it]) ++ r) as Hw'.
    { intros w' ->. by rewrite <- app_assoc. }
    specialize (IH) as IH'.
    destruct (p it).
    + simpl. unfold bind at 1.
      erewrite applier_search_mode by (by rewrite Hw, list_lookup_middle).
      rewrite envchain_exec_value_callback_eq.
      specialize (IH (with_environ (install (environ w)
                                      (cstr (item_account it), cstr (item_data it))) w)
                    (pre ++ [it])).
      rewrite length_app in IH. simpl in IH. rewrite Nat.add_1_r in IH.
      rewrite IH by (by apply Hw'). done.
    + specialize (IH w (pre ++ [it])).
      rewrite length_app in IH. simpl in IH. rewrite Nat.add_1_r in IH.
      by rewrite IH by (by apply Hw').
Qed.

(** One namespace of the list: its pairs are installed in order; a
    namespace without entries only draws the warning. *)
Lemma envchain_search_values_exec name w :
  exists r w',
    envchain_search_values name envchain_exec_value_callback tt w = Ret (r, tt) w'
    /\ same_keychains w w'
    /\ environ w' = foldl install (environ w) (retrieved w name).
Proof.
  unfold envchain_search_values. unfold bind at 1. rewrite SecItemCopyMatching_eq.
  unfold retrieved, encode, envchain_generate_service_name_cf, envchain_generate_service_name.
  set (p := query_matches (ByService (ENVCHAIN_SERVICE_PREFIX +:+ name))).
  destruct (find_indices p 0 (items w)) as [|ref refs] eqn:E.
  - apply find_indices_nil in E. rewrite E.
    rewrite bool_decide_false by (by intros ?). rewrite bool_decide_true by done.
    cbn [andb orb]. unfold bind, gets.
    eexists _, _. split; [reflexivity|]. split; [by repeat split|done].
  - rewrite bool_decide_true by done. rewrite bool_decide_false by (by intros ?).
    rewrite bool_decide_false by done. rewrite bool_decide_false by done.
    cbn [andb orb]. rewrite <- E. unfold bind.
    pose proof (install_values w p [] (items w) eq_refl) as Hfold.
    simpl length in Hfold. rewrite Hfold.
    eexists _, _. split; [reflexivity|]. split; [apply with_environ_same|done].
Qed.

Lemma retrieved_same w w' name : same_keychains w w' -> retrieved w' name = retrieved w name.
Proof. intros H. unfold retrieved. by rewrite (same_keychains_items _ _ H). Qed.

Lemma for_each_cons {A} (f : A -> M unit) x r w :
  for_each f (x :: r) w
  = match f x w with
    | Ret _ w' => for_each f r w'
    | Halt h w' => Halt h w'
    end.
Proof. done. Qed.

(** The namespaces of the list, left to right. *)
Lemma envchain_exec_namespaces names w :
  exists w',
    for_each
      (fun name => envchain_search_values name envchain_exec_value_callback tt;; ret tt)
      names w = Ret tt w'
    /\ same_keychains w w'
    /\ environ w' = foldl install (environ w) (concat (retrieved w <$> names)).
Proof.
  revert w. induction names as [|name rest IH]; intros w.
  - exists w. split; [done|]. split; [apply same_keychains_refl|done].
  - rewrite for_each_cons. cbv beta.
    destruct (envchain_search_values_exec name w) as (r & w1 & Hsearch & Hs1 & He1).
    assert ((envchain_search_values name envchain_exec_value_callback tt;; ret tt) w
            = Ret tt w1) as ->.
    { unfold bind. by rewrite Hsearch. }
    destruct (IH w1) as (w2 & -> & Hs2 & He2).
    exists w2. split; [done|]. split; [by eapply same_keychains_trans|].
    rewrite fmap_cons, concat_cons, foldl_app, <- He1, He2.
    f_equal. f_equal. apply list_fmap_ext. intros _ m _. by apply retrieved_same.
Qed.

Lemma foldl_install_other env pairs K :
  K ∉ pairs.*1 -> foldl install env pairs !! K = env !! K.
Proof.
  revert env. induction pairs as [|[k v] rest IH]; intros env; [done|].
  rewrite fmap_cons, not_elem_of_cons. simpl. intros [Hne Hrest].
  rewrite IH by done. unfold install. simpl.
  destruct (valid_env_name k); [|done]. by rewrite lookup_insert_ne.
Qed.

Lemma foldl_install_last env p1 p2 K v :
  valid_env_name K = true -> K ∉ p2.*1 ->
  foldl install env (p1 ++ (K, v) :: p2) !! K = Some v.
Proof.
  intros Hvalid Hlater. rewrite foldl_app. simpl.
  rewrite foldl_install_other by done. unfold install. simpl.
  rewrite Hvalid. apply lookup_insert_eq.
Qed.

Lemma not_elem_of_concat_keys (w : world) (K : string) (after : list string) :
  Forall (fun m => K ∉ (retrieved w m).*1) after ->
  K ∉ (concat (retrieved w <$> after)).*1.
Proof.
  induction 1 as [|m rest Hm _ IH]; simpl; [by apply not_elem_of_nil|].
  rewrite fmap_app, elem_of_app. tauto.
Qed.

(** C10 (as the code has it): in exec mode the namespaces of the
    comma-separated first argument are processed left to right and
    [setenv] is called with overwrite on every retrieved pair, its result
    not being looked at; for a key that [setenv] accepts (not empty, without
    '='), the started program sees the value of the last listed namespace
    that holds the key. *)
Theorem C10_exec_last_namespace_wins
    (w : world) (names exe : string) (args : list string)
    (before after : list string) (n K v : string) (p1 p2 : list (string * string)) :
  strsep_all names ","%char = before ++ n :: after ->
  retrieved w n = p1 ++ (K, v) :: p2 ->
  K ∉ p2.*1 ->
  Forall (fun m => K ∉ (retrieved w m).*1) after ->
  valid_env_name K = true ->
  exe ∈ programs (sys w) ->
  exists w',
    envchain_exec (names :: exe :: args) w = Halt (Replaced exe (exe :: args)) w'
    /\ environ w'
       = foldl install (environ w) (concat (retrieved w <$> strsep_all names ","%char))
    /\ environ w' !! K = Some v.
Proof.
  intros Hnames Hn Hp2 Hafter Hvalid Hexe.
  destruct (envchain_exec_namespaces (strsep_all names ","%char) w)
    as (w' & Hloop & Hsame & Henv).
  exists w'. unfold envchain_exec.
  rewrite bool_decide_false by (unfold argc; simpl length; lia).
  unfold bind at 1. rewrite Hloop. unfold bind, execvp.
  destruct Hsame as (Hsys & _). rewrite Hsys, bool_decide_true by done.
  split; [done|]. split; [done|].
  rewrite Henv, Hnames, fmap_app, fmap_cons, concat_app, concat_cons, Hn.
  rewrite <- !app_assoc, app_assoc. simpl.
  apply foldl_install_last; [done|].
  rewrite fmap_app, elem_of_app.
  pose proof (not_elem_of_concat_keys w K after Hafter). tauto.
Qed.

Lemma C10_exec_last_namespace_wins_witness :
  exists w',
    envchain_exec ["db,web"; "bash"; "-c"; "env"] two_namespace_world
    = Halt (Replaced "bash" ["bash"; "-c"; "env"]) w'
    /\ environ w' !! "HOST" = Some "www.internal".
Proof.
  destruct (C10_exec_last_namespace_wins two_namespace_world "db,web" "bash" ["-c"; "env"]
              ["db"] [] "web" "HOST" "www.internal" [] [("PORT", "8080")])
    as (w' & H1 & _ & H2).
  - reflexivity.
  - reflexivity.
  - vm_compute. by intros [?|?%elem_of_nil]%elem_of_cons.
  - constructor.
  - reflexivity.
  - vm_compute. reflexivity.
  - exists w'. split; [exact H1|exact H2].
Defined.

(** C10, the claim as worded fails: [--set] stores a value under the key
    [A=B]; with that key in both namespaces of the list, [setenv] refuses
    each pair and the started program sees no value for the key, not the one
    of the last listed namespace. *)
Lemma C10_refused_key_is_not_installed :
  (exists w1,
     envchain_set ["web"; "A=B"] typing_world = Ret 0 w1
     /\ retrieved w1 "web" = [("A=B", "5432")])
  /\ retrieved refused_key_world "db" = [("A=B", "1")]
  /\ retrieved refused_key_world "web" = [("A=B", "2")]
  /\ exists w',
       envchain_exec ["db,web"; "bash"] refused_key_world
       = Halt (Replaced "bash" ["bash"]) w'
       /\ environ w' !! "A=B" = None.
Proof.
  split; [|split; [reflexivity|split; [reflexivity|]]].
  - exists (final_world (envchain_set ["web"; "A=B"] typing_world)).
    split; vm_compute; reflexivity.
  - exists (final_world (envchain_exec ["db,web"; "bash"] refused_key_world)).
    split; vm_compute; reflexivity.
Qed.

(** ** Usage errors (envchain.c) *)

Lemma not_elem_of_cons_strcmp (x a : string) l :
  x ∉ a :: l -> bool_decide (strcmp x a = 0) = false /\ x ∉ l.
Proof.
  rewrite not_elem_of_cons. intros [Hne Hl]. split; [|done].
  rewrite bool_decide_strcmp. by apply bool_decide_false.
Qed.






















(** * Further properties of the code *)

(** ** Entries as a map from namespace and key *)

Lemma find_index_head p l :
  match find_index p l with
  | Some i => l !! i
  | None => None
  end = head (filter p l).
Proof.
  induction l as [|x r IH]; [done|]. simpl. rewrite filter_cons_bool.
  destruct (p x); [done|]. rewrite <- IH. by destruct (find_index p r).
Qed.

Lemma entry_head w N K : entry w N K = head (filter (matches (encode N) K) (items w)).
Proof. apply find_index_head. Qed.

Lemma encode_inj N N' : encode N = encode N' -> N = N'.
Proof. apply (inj (String.app ENVCHAIN_SERVICE_PREFIX)). Qed.

(** [entry] is what the lookup of the code finds. *)
Lemma entry_find w N K it :
  entry w N K = Some it <->
  exists ref, envchain_find_value N K w = Ret (1, Some ref) w /\ items w !! ref = Some it.
Proof.
  unfold entry. rewrite envchain_find_value_eq.
  destruct (find_index (matches (encode N) K) (items w)) as [i|].
  - split; [by exists i|]. by intros (ref & [= <-] & Hit).
  - split; [done|]. by intros (ref & [=] & _).
Qed.

Lemma entry_None_find w N K :
  entry w N K = None <-> envchain_find_value N K w = Ret (0, None) w.
Proof.
  unfold entry. rewrite envchain_find_value_eq.
  destruct (find_index (matches (encode N) K) (items w)) as [i|] eqn:Hfind.
  - destruct (find_index_Some _ _ _ Hfind) as (it & -> & _). by split.
  - by split.
Qed.

Lemma filter_delete_other (p : item -> bool) (l : list item) (i : nat) x :
  l !! i = Some x -> p x = false -> filter p (delete i l) = filter p l.
Proof.
  intros Hi Hx. rewrite <- (take_drop_middle l i x Hi) at 2.
  rewrite delete_take_drop, !filter_app, filter_cons_bool. by rewrite Hx.
Qed.

Lemma filter_insert_other (p : item -> bool) (l : list item) (i : nat) x x' :
  l !! i = Some x -> p x = false -> p x' = false -> filter p (<[i := x']> l) = filter p l.
Proof.
  intros Hi Hx Hx'. rewrite <- (take_drop_middle l i x Hi) at 2.
  rewrite insert_take_drop by (by eapply lookup_lt_Some).
  rewrite !filter_app, !filter_cons_bool. by rewrite Hx, Hx'.
Qed.

Lemma matches_other N K s a it :
  (encode N, K) <> (s, a) -> matches (encode N) K it = true -> matches s a it = false.
Proof.
  intros Hne Hm. apply matches_spec in Hm.
  destruct (matches s a it) eqn:E; [|done]. apply matches_spec in E. congruence.
Qed.

(** A save leaves the entries of every other service and account where
    they are. *)
Lemma save_items_filter_other N K V a l s' a' :
  (encode N, K) <> (s', a') ->
  filter (matches s' a') (save_items N K V a l) = filter (matches s' a') l.
Proof.
  intros Hne. unfold save_items.
  destruct (find_index (matches (encode N) K) l) as [i|] eqn:Hfind.
  - destruct (find_index_Some _ _ _ Hfind) as (it & Hit & Hm & _). rewrite Hit.
    apply (filter_insert_other _ _ _ it); [done|by eapply matches_other|].
    apply (matches_other N K); [done|]. apply matches_spec.
    apply matches_spec in Hm. done.
  - rewrite filter_app, filter_cons_bool.
    rewrite (matches_other N K s' a'); [by rewrite app_nil_r|done|].
    by apply matches_spec.
Qed.

(** Save and lookup behave as insertion and lookup in a map. *)
Lemma entry_save w N K V N' K' :
  exists w' acc,
    envchain_save_value N K V (-1) w = Ret tt w'
    /\ entry w' N K = Some (Item (encode N) K ENVCHAIN_ITEM_DESCRIPTION V acc)
    /\ ((N, K) <> (N', K') -> entry w' N' K' = entry w N' K').
Proof.
  destruct (save_items_lookup N K V (new_item_access (sys w)) (items w))
    as (ref & acc & Hfind & Hit & _).
  eexists _, acc. split; [apply envchain_save_value_eq|]. split.
  - unfold entry. by rewrite items_set_items, Hfind.
  - intros Hne. rewrite !entry_head, items_set_items.
    rewrite save_items_filter_other; [done|].
    intros Heq. apply Hne. f_equal; [apply encode_inj|]; congruence.
Qed.

(** X1: saving a value under a namespace and key makes the lookup of that
    pair return it, and leaves what the lookup returns for every other pair
    (entry, value, description and access) as it was. *)
Theorem save_then_lookup_other (w : world) (N K V N' K' : string) :
  exists w',
    envchain_save_value N K V (-1) w = Ret tt w'
    /\ stored w' N K = Some V
    /\ (exists ref it, envchain_find_value N K w' = Ret (1, Some ref) w'
                       /\ items w' !! ref = Some it /\ item_data it = V)
    /\ ((N, K) <> (N', K') -> entry w' N' K' = entry w N' K').
Proof.
  destruct (entry_save w N K V N' K') as (w' & acc & Hsave & Hentry & Hother).
  exists w'. split; [done|]. split; [unfold stored; by rewrite Hentry|]. split; [|done].
  apply entry_find in Hentry as (ref & Hfind & Hit). by eexists ref, _.
Qed.

Lemma save_then_lookup_other_witness :
  exists w',
    envchain_save_value "db" "HOST" "db.internal" (-1) db_world = Ret tt w'
    /\ stored w' "db" "HOST" = Some "db.internal"
    /\ stored w' "db" "PORT" = Some "5432".
Proof.
  destruct (save_then_lookup_other db_world "db" "HOST" "db.internal" "db" "PORT")
    as (w' & H1 & H2 & _ & H3).
  exists w'. split; [exact H1|]. split; [exact H2|].
  unfold stored. rewrite H3; [reflexivity|discriminate].
Defined.

(** ** Removing entries (envchain_osx.c, lines 552-558; envchain.c, 260-278) *)

Lemma envchain_delete_value_eq N K w :
  envchain_delete_value N K w
  = Ret tt (match find_index (matches (encode N) K) (items w) with
            | Some ref => set_items (delete ref (items w)) w
            | None => w
            end).
Proof.
  unfold envchain_delete_value, bind. rewrite envchain_find_value_eq.
  destruct (find_index (matches (encode N) K) (items w)) as [i|] eqn:Hfind; [|done].
  rewrite bool_decide_true by done.
  destruct (find_index_Some _ _ _ Hfind) as (it & Hit & _).
  unfold SecKeychainItemDelete, bind, gets, put_items, ret.
  change (item_at (Some i) (items w)) with (items w !! i). by rewrite Hit.
Qed.

Lemma keychain_wf_delete (l : list item) (i : nat) : keychain_wf l -> keychain_wf (delete i l).
Proof.
  unfold keychain_wf. intros Hwf. destruct (l !! i) as [x|] eqn:Hi.
  - rewrite <- (take_drop_middle l i x Hi) in Hwf. rewrite delete_take_drop.
    rewrite fmap_app, fmap_cons in Hwf. rewrite fmap_app.
    apply NoDup_app in Hwf as (H1 & H2 & H3). apply NoDup_cons in H3 as [_ H3].
    apply NoDup_app. split; [done|]. split; [|done].
    intros id Hid Hin. apply (H2 id Hid). by right.
  - apply lookup_ge_None in Hi.
    by rewrite delete_take_drop, take_ge, drop_ge, app_nil_r by lia.
Qed.

(** In a well-formed keychain the entry found first is the only one. *)
Lemma filter_matches_unique l i it s a :
  keychain_wf l -> l !! i = Some it -> matches s a it = true ->
  filter (matches s a) (delete i l) = [].
Proof.
  intros Hwf Hi Hm. apply filter_matches_nil.
  unfold keychain_wf in Hwf. rewrite <- (take_drop_middle l i it Hi) in Hwf.
  rewrite delete_take_drop. rewrite fmap_app, fmap_cons in Hwf.
  apply matches_spec in Hm. rewrite Hm in Hwf.
  apply NoDup_app in Hwf as (H1 & H2 & H3). apply NoDup_cons in H3 as [H3 _].
  rewrite fmap_app, elem_of_app. intros [Hin|Hin]; [|done].
  apply (H2 _ Hin). by left.
Qed.

Lemma stdout_set_items l w : stdout (set_items l w) = stdout w.
Proof. unfold set_items. by destruct (envchain_keychain w). Qed.

(** What a delete does, whether the key has an entry or not. *)
Lemma envchain_delete_value_spec w N K :
  keychain_wf (items w) ->
  exists w',
    envchain_delete_value N K w = Ret tt w'
    /\ entry w' N K = None
    /\ (forall N' K', (N, K) <> (N', K') -> entry w' N' K' = entry w N' K')
    /\ keychain_wf (items w')
    /\ stderr w' = stderr w /\ stdout w' = stdout w.
Proof.
  intros Hwf. eexists. split; [apply envchain_delete_value_eq|].
  destruct (find_index (matches (encode N) K) (items w)) as [i|] eqn:Hfind.
  - destruct (find_index_Some _ _ _ Hfind) as (it' & Hit' & Hm & _).
    split; [|split; [|split; [|split]]].
    + rewrite entry_head, items_set_items. by rewrite (filter_matches_unique _ _ it').
    + intros N' K' Hne. rewrite !entry_head, items_set_items.
      rewrite (filter_delete_other _ _ _ it'); [done..|].
      eapply (matches_other N K); [|done].
      intros Heq. apply Hne. f_equal; [apply encode_inj|]; congruence.
    + rewrite items_set_items. by apply keychain_wf_delete.
    + apply stderr_set_items.
    + apply stdout_set_items.
  - split; [unfold entry; by rewrite Hfind|]. by repeat split.
Qed.

(** X2: deleting a key that has an entry removes that entry and no other:
    afterwards the lookup of the pair finds nothing, the lookup of every
    other pair finds what it found before, and nothing is printed. *)
Theorem delete_removes_the_entry (w : world) (N K N' K' : string) :
  keychain_wf (items w) ->
  is_Some (entry w N K) ->
  exists w',
    envchain_delete_value N K w = Ret tt w'
    /\ envchain_find_value N K w' = Ret (0, None) w'
    /\ ((N, K) <> (N', K') -> entry w' N' K' = entry w N' K')
    /\ S (length (items w')) = length (items w)
    /\ keychain_wf (items w')
    /\ stderr w' = stderr w /\ stdout w' = stdout w.
Proof.
  intros Hwf [it Hit].
  destruct (envchain_delete_value_spec w N K Hwf)
    as (w' & Hdel & Hgone & Hother & Hwf' & Herr & Hout).
  exists w'. split; [done|]. split; [by apply entry_None_find|].
  split; [apply Hother|]. split; [|done].
  rewrite envchain_delete_value_eq in Hdel. injection Hdel as <-.
  unfold entry in Hit.
  destruct (find_index (matches (encode N) K) (items w)) as [i|]; [|done].
  rewrite items_set_items, length_delete by (by eexists).
  apply lookup_lt_Some in Hit. lia.
Qed.

Lemma delete_removes_the_entry_witness :
  exists w',
    envchain_delete_value "db" "HOST" db_world = Ret tt w'
    /\ envchain_find_value "db" "HOST" w' = Ret (0, None) w'
    /\ stored w' "db" "PORT" = Some "5432".
Proof.
  destruct (delete_removes_the_entry db_world "db" "HOST" "db" "PORT")
    as (w' & H1 & H2 & H3 & _).
  - unfold keychain_wf. apply (bool_decide_unpack _). vm_compute. exact I.
  - by eexists.
  - exists w'. split; [exact H1|]. split; [exact H2|].
    unfold stored. rewrite H3; [reflexivity|discriminate].
Defined.

(** X3: deleting a key that has no entry is a silent no-op: the call
    returns and the world is the one it started in. *)
Theorem delete_missing_key_is_noop (w : world) (N K : string) :
  entry w N K = None ->
  envchain_delete_value N K w = Ret tt w.
Proof.
  intros Hentry. rewrite envchain_delete_value_eq. unfold entry in Hentry.
  destruct (find_index (matches (encode N) K) (items w)) as [i|] eqn:Hfind; [|done].
  destruct (find_index_Some _ _ _ Hfind) as (it & Hit & _). congruence.
Qed.

Lemma delete_missing_key_is_noop_witness :
  envchain_delete_value "db" "USER" db_world = Ret tt db_world.
Proof. apply (delete_missing_key_is_noop db_world "db" "USER"). reflexivity. Defined.

(** X4: on a key that had no entry, a save followed by a delete gives the
    keychain back as it was, item by item. *)
Theorem save_then_delete_restores (w : world) (N K V : string) :
  entry w N K = None ->
  exists w1 w2,
    envchain_save_value N K V (-1) w = Ret tt w1
    /\ envchain_delete_value N K w1 = Ret tt w2
    /\ items w2 = items w
    /\ stderr w2 = stderr w /\ stdout w2 = stdout w.
Proof.
  intros Hentry. unfold entry in Hentry.
  destruct (find_index (matches (encode N) K) (items w)) as [i|] eqn:Hfind.
  { destruct (find_index_Some _ _ _ Hfind) as (it & Hit & _). congruence. }
  destruct (save_items_lookup N K V (new_item_access (sys w)) (items w))
    as (ref & acc & Hfind' & Hit & Hcase).
  rewrite Hfind in Hcase. destruct Hcase as [-> ->].
  eexists _, _. split; [apply envchain_save_value_eq|].
  split; [apply envchain_delete_value_eq|].
  rewrite items_set_items, Hfind'. rewrite set_items_twice, items_set_items.
  rewrite stderr_set_items, stdout_set_items. split; [|done].
  unfold save_items. rewrite Hfind. by rewrite delete_middle, app_nil_r.
Qed.

Lemma save_then_delete_restores_witness :
  exists w1 w2,
    envchain_save_value "db" "USER" "admin" (-1) db_world = Ret tt w1
    /\ envchain_delete_value "db" "USER" w1 = Ret tt w2
    /\ items w2 = items db_world.
Proof.
  destruct (save_then_delete_restores db_world "db" "USER" "admin" eq_refl)
    as (w1 & w2 & H1 & H2 & H3 & _).
  exists w1, w2. split; [exact H1|]. split; [exact H2|exact H3].
Defined.

Lemma for_each_nil {A} (f : A -> M unit) w : for_each f [] w = Ret tt w.
Proof. done. Qed.

Lemma envchain_unset_keys w N keys :
  keychain_wf (items w) ->
  exists w',
    for_each (fun key => envchain_delete_value N key) keys w = Ret tt w'
    /\ (forall K, K ∈ keys -> entry w' N K = None)
    /\ (forall N' K', N' <> N \/ K' ∉ keys -> entry w' N' K' = entry w N' K')
    /\ keychain_wf (items w')
    /\ stderr w' = stderr w /\ stdout w' = stdout w.
Proof.
  revert w. induction keys as [|K rest IH]; intros w Hwf.
  - exists w. split; [done|]. split; [by intros K ?%elem_of_nil|]. by repeat split.
  - rewrite for_each_cons.
    destruct (envchain_delete_value_spec w N K Hwf)
      as (w1 & -> & Hgone & Hother & Hwf1 & Herr1 & Hout1).
    destruct (IH w1 Hwf1) as (w2 & -> & Hgone2 & Hother2 & Hwf2 & Herr2 & Hout2).
    exists w2. split; [done|]. split; [|split; [|split; [done|split; congruence]]].
    + intros K' HK'. destruct (decide (K' ∈ rest)) as [Hin|Hnotin]; [by apply Hgone2|].
      apply elem_of_cons in HK' as [->|?]; [|done].
      rewrite Hother2 by (by right). done.
    + intros N' K' Hne. rewrite Hother2, Hother.
      * done.
      * intros [= <- <-]. destruct Hne as [?|Hne]; [done|]. apply Hne. by left.
      * destruct Hne as [?|Hne]; [by left|]. right. intros ?. apply Hne. by right.
Qed.

(** X5: [--unset NAMESPACE KEY...] deletes every listed key of the
    namespace, touches no entry of another namespace or key, prints nothing
    and returns 0, whether the keys had entries or not. *)
Theorem unset_removes_the_listed_keys (w : world) (N K : string) (keys : list string) :
  keychain_wf (items w) ->
  exists w',
    envchain_unset (N :: K :: keys) w = Ret 0 w'
    /\ (forall K', K' ∈ K :: keys -> envchain_find_value N K' w' = Ret (0, None) w')
    /\ (forall N' K', N' <> N \/ K' ∉ K :: keys -> entry w' N' K' = entry w N' K')
    /\ keychain_wf (items w')
    /\ stderr w' = stderr w /\ stdout w' = stdout w.
Proof.
  intros Hwf. unfold envchain_unset.
  rewrite bool_decide_false by (unfold argc; simpl length; lia).
  destruct (envchain_unset_keys w N (K :: keys) Hwf)
    as (w' & Hloop & Hgone & Hother & Hwf' & Herr & Hout).
  exists w'. unfold bind. rewrite Hloop. split; [done|].
  split; [|done]. intros K' HK'. by apply entry_None_find, Hgone.
Qed.

Lemma unset_removes_the_listed_keys_witness :
  exists w',
    envchain_unset ["db"; "HOST"; "USER"] db_world = Ret 0 w'
    /\ envchain_find_value "db" "HOST" w' = Ret (0, None) w'
    /\ stored w' "db" "PORT" = Some "5432".
Proof.
  destruct (unset_removes_the_listed_keys db_world "db" "HOST" ["USER"])
    as (w' & H1 & H2 & H3 & _).
  - unfold keychain_wf. apply (bool_decide_unpack _). vm_compute. exact I.
  - exists w'. split; [exact H1|]. split.
    + apply H2. apply list_elem_of_here.
    + unfold stored. rewrite H3; [reflexivity|]. right.
      intros Hin. rewrite !elem_of_cons, elem_of_nil in Hin.
      destruct Hin as [?|[?|[]]]; discriminate.
Defined.

(** ** Key enumeration (envchain_osx.c, lines 167-263 and 344-397) *)

Lemma fold_each_cons {A D} (f : A -> D -> M D) x r d w :
  fold_each f (x :: r) d w
  = match f x d w with
    | Ret d' w' => fold_each f r d' w'
    | Halt h w' => Halt h w'
    end.
Proof. done. Qed.

Lemma apply_values {D} (callback : string -> string -> D -> M D) p w pre suf data :
  keeps_items callback ->
  items w = pre ++ suf ->
  fold_each
    (fun ref data =>
       envchain_search_values_applier ref
         {| search_callback := Some callback; namespace_callback := None; data := data |})
    (find_indices p (length pre) suf) data w
  = fold_each (fun kv data => callback kv.1 kv.2 data)
      ((fun it => (cstr (item_account it), cstr (item_data it))) <$> filter p suf) data w.
Proof.
  intros Hkeeps. revert w pre data. induction suf as [|it r IH]; intros w pre data Hw.
  - done.
  - simpl. rewrite filter_cons_bool.
    assert (forall w', items w' = items w -> items w' = (pre ++ [it]) ++ r) as Hw'.
    { intros w' ->. by rewrite <- app_assoc. }
    destruct (p it).
    + rewrite fmap_cons, !fold_each_cons. cbn [fst snd].
      erewrite applier_search_mode by (by rewrite Hw, list_lookup_middle).
      destruct (callback (cstr (item_account it)) (cstr (item_data it)) data w)
        as [data' w'|h w'] eqn:Hcb; [|done].
      specialize (IH w' (pre ++ [it]) data').
      rewrite length_app in IH. simpl in IH. rewrite Nat.add_1_r in IH.
      apply IH, Hw'. by eapply Hkeeps.
    + specialize (IH w (pre ++ [it]) data).
      rewrite length_app in IH. simpl in IH. rewrite Nat.add_1_r in IH.
      by apply IH, Hw'.
Qed.

Lemma envchain_search_values_eq {D} (callback : string -> string -> D -> M D) name data w :
  keeps_items callback ->
  envchain_search_values name callback data w
  = match retrieved w name with
    | [] =>
        (eprint (namespace_not_defined_warning (envchain_name w) name);; ret (1, data)) w
    | pairs =>
        (let* data := fold_each (fun kv data => callback kv.1 kv.2 data) pairs data in
         ret (0, data)) w
    end.
Proof.
  intros Hkeeps. unfold envchain_search_values. unfold bind at 1.
  rewrite SecItemCopyMatching_eq.
  unfold retrieved, encode, envchain_generate_service_name_cf, envchain_generate_service_name.
  set (p := query_matches (ByService (ENVCHAIN_SERVICE_PREFIX +:+ name))).
  destruct (find_indices p 0 (items w)) as [|ref refs] eqn:E.
  - apply find_indices_nil in E. rewrite E.
    rewrite bool_decide_false by (by intros ?). rewrite bool_decide_true by done.
    done.
  - rewrite bool_decide_true by done. rewrite bool_decide_false by (by intros ?).
    rewrite bool_decide_false by done. rewrite bool_decide_false by done.
    cbn [andb orb]. rewrite <- E.
    pose proof (apply_values callback p w [] (items w) data Hkeeps eq_refl) as Hfold.
    simpl length in Hfold. unfold bind at 1. rewrite Hfold.
    assert (filter p (items w) <> []) as Hne.
    { intros Hnil. apply (f_equal length) in Hnil.
      by rewrite <- (length_find_indices p 0), E in Hnil. }
    destruct (filter p (items w)) as [|it its]; [done|]. done.
Qed.

Lemma keeps_items_pure {D} (f : string -> string -> D -> D) :
  keeps_items (fun key value data => ret (f key value data)).
Proof. intros key value data w data' w' [= _ <-]. done. Qed.

Lemma fold_each_pure {A D} (f : A -> D -> D) l d w :
  fold_each (fun x d => ret (f x d)) l d w = Ret (foldl (fun d x => f x d) d l) w.
Proof. revert d. induction l as [|x r IH]; intros d; [done|]. apply IH. Qed.

(** X6: [envchain_search_values] calls its callback once for every entry of
    the namespace, in keychain order, with the account and the payload read
    as C strings, and returns 0, as long as the callback leaves the items
    alone; on a namespace without entries it calls nothing, prints the
    warning and returns 1. *)
Theorem search_values_visits_each_entry
    {D} (callback : string -> string -> D -> M D) (name : string) (data : D) (w : world) :
  keeps_items callback ->
  (retrieved w name = [] ->
   exists w',
     envchain_search_values name callback data w = Ret (1, data) w'
     /\ stderr w' = stderr w ++ [namespace_not_defined_warning (envchain_name w) name]
     /\ stdout w' = stdout w
     /\ same_keychains w w')
  /\ (retrieved w name <> [] ->
      envchain_search_values name callback data w
      = (let* data :=
           fold_each (fun kv data => callback kv.1 kv.2 data) (retrieved w name) data in
         ret (0, data)) w)
  /\ (forall f : string -> string -> D -> D,
      retrieved w name <> [] ->
      envchain_search_values name (fun key value data => ret (f key value data)) data w
      = Ret (0, foldl (fun data kv => f kv.1 kv.2 data) data (retrieved w name)) w).
Proof.
  intros Hkeeps. split; [|split].
  - intros Hnone. rewrite envchain_search_values_eq, Hnone by done.
    eexists. split; [reflexivity|]. by repeat split.
  - intros Hsome. rewrite envchain_search_values_eq by done.
    by destruct (retrieved w name).
  - intros f Hsome. rewrite envchain_search_values_eq by apply keeps_items_pure.
    destruct (retrieved w name) as [|kv pairs] eqn:E; [done|].
    unfold bind.
    by rewrite (fold_each_pure (fun kv data => f kv.1 kv.2 data) (kv :: pairs) data w).
Qed.

Lemma search_values_visits_each_entry_witness :
  envchain_search_values "db" (fun key value seen => ret (seen ++ [(key, value)])) []
    db_world
  = Ret (0, [("HOST", "localhost"); ("PORT", "5432")]) db_world
  /\ exists w',
       envchain_search_values "web" (fun key value seen => ret (seen ++ [(key, value)])) []
         db_world
       = Ret (1, []) w'.
Proof.
  destruct (search_values_visits_each_entry
              (fun key value seen => ret (seen ++ [(key, value)])) "db" [] db_world)
    as (_ & _ & Hpure).
  { intros key value data w data' w' H. injection H as _ <-. reflexivity. }
  destruct (search_values_visits_each_entry
              (fun key value seen => ret (seen ++ [(key, value)])) "web" [] db_world)
    as (Hnone & _).
  { intros key value data w data' w' H. injection H as _ <-. reflexivity. }
  split.
  - rewrite (Hpure (fun key value seen => seen ++ [(key, value)])); [reflexivity|].
    discriminate.
  - destruct (Hnone eq_refl) as (w' & H & _). exists w'. exact H.
Defined.

(** ** Listing (envchain.c, lines 208-256) *)

Lemma printed_nil w : printed [] w w.
Proof. unfold printed. rewrite app_nil_r. by repeat split. Qed.

Lemma printed_app l1 l2 w1 w2 w3 :
  printed l1 w1 w2 -> printed l2 w2 w3 -> printed (l1 ++ l2) w1 w3.
Proof.
  intros (Hs1 & Ho1 & He1 & Hv1 & Hi1 & Hn1) (Hs2 & Ho2 & He2 & Hv2 & Hi2 & Hn2).
  split; [by eapply same_keychains_trans|].
  rewrite Ho2, Ho1, app_assoc. repeat split; congruence.
Qed.

Lemma print_printed s w : exists w', print s w = Ret tt w' /\ printed [s] w w'.
Proof. eexists. split; [reflexivity|]. by repeat split. Qed.

Lemma envchain_list_options_spec argv context w :
  let show := if wants_values argv then 1 else show_value context in
  envchain_list_options argv context w
  = match option_list (target context) ++ list_targets argv with
    | [] => Ret {| target := None; show_value := show |} w
    | [t] => Ret {| target := Some t; show_value := show |} w
    | _ => envchain_abort_with_help w
    end.
Proof.
  revert context. induction argv as [|arg rest IH]; intros [tgt sv]; simpl.
  - unfold list_targets. simpl. rewrite app_nil_r. by destruct tgt.
  - rewrite !bool_decide_strcmp.
    change (bool_decide (arg = "--show-value") || bool_decide (arg = "-v"))
      with (is_value_display_flag arg).
    unfold list_targets, wants_values. simpl. rewrite filter_cons_bool.
    destruct (is_value_display_flag arg); simpl.
    + rewrite IH. simpl. fold (list_targets rest).
      by destruct (wants_values rest).
    + unfold bind. destruct tgt as [t|]; simpl.
      * done.
      * rewrite IH. simpl. fold (list_targets rest) (wants_values rest).
        by destruct (list_targets rest) as [|? [|? ?]].
Qed.

Lemma keeps_items_list_value_callback : keeps_items envchain_list_value_callback.
Proof.
  intros key value data w data' w' H. unfold envchain_list_value_callback, bind in H.
  destruct (bool_decide (show_value data ≠ 0)); injection H as _ <-; done.
Qed.

Lemma list_value_callback_lines pairs context w :
  exists w',
    fold_each (fun kv data => envchain_list_value_callback kv.1 kv.2 data) pairs context w
    = Ret context w'
    /\ printed (key_line (bool_decide (show_value context ≠ 0)) <$> pairs) w w'.
Proof.
  revert w. induction pairs as [|[k v] rest IH]; intros w.
  - exists w. split; [done|apply printed_nil].
  - rewrite fold_each_cons. unfold envchain_list_value_callback at 1, bind. cbn [fst snd].
    destruct (print_printed
                (key_line (bool_decide (show_value context ≠ 0)) (k, v)) w)
      as (w1 & Hprint & Hp1).
    unfold key_line in Hprint. cbn [fst snd] in Hprint.
    destruct (bool_decide (show_value context ≠ 0)) eqn:Hshow; rewrite Hprint;
      unfold ret at 1; destruct (IH w1) as (w2 & -> & Hp2); exists w2;
      (split; [done|]); apply (printed_app [_] _ w w1 w2); done.
Qed.

Lemma wants_values_show argv :
  bool_decide ((if wants_values argv then 1 else 0) ≠ 0) = wants_values argv.
Proof. by destruct (wants_values argv). Qed.

(** X7: [--list] with one namespace prints one line per entry of the
    namespace, in keychain order: the key alone, or key=value when a
    value-display flag is given anywhere among the arguments.  It returns 0
    also when the namespace has no entry (only the warning is printed), and
    changes no keychain. *)
Theorem list_prints_the_keys_of_a_namespace (w : world) (argv : list string) (N : string) :
  list_targets argv = [N] ->
  exists w',
    envchain_list argv w = Ret 0 w'
    /\ stdout w' = stdout w ++ (key_line (wants_values argv) <$> retrieved w N)
    /\ stderr w'
       = stderr w ++ (if bool_decide (retrieved w N = [])
                      then [namespace_not_defined_warning (envchain_name w) N] else [])
    /\ same_keychains w w'.
Proof.
  intros Htargets. unfold envchain_list, bind.
  pose proof (envchain_list_options_spec argv {| target := None; show_value := 0 |} w)
    as Hopt. cbv zeta in Hopt. cbn [target show_value] in Hopt.
  rewrite Htargets in Hopt. cbv [option_list option_rect app] in Hopt.
  rewrite Hopt. cbn [target].
  rewrite envchain_search_values_eq by apply keeps_items_list_value_callback.
  destruct (retrieved w N) as [|kv pairs] eqn:Hret.
  - eexists. split; [reflexivity|]. rewrite bool_decide_true by done.
    split; [by rewrite app_nil_r|]. by repeat split.
  - unfold bind.
    destruct (list_value_callback_lines (kv :: pairs)
                {| target := Some N; show_value := if wants_values argv then 1 else 0 |} w)
      as (w' & -> & Hs & Hout & Herr & _).
    exists w'. split; [done|]. cbn [show_value] in Hout.
    rewrite wants_values_show in Hout. rewrite bool_decide_false by done.
    by rewrite app_nil_r.
Qed.

Lemma list_prints_the_keys_of_a_namespace_witness :
  exists w',
    envchain_list ["db"; "-v"] db_world = Ret 0 w'
    /\ stdout w' = ["HOST=localhost" +:+ newline; "PORT=5432" +:+ newline].
Proof.
  destruct (list_prints_the_keys_of_a_namespace db_world ["db"; "-v"] "db" eq_refl)
    as (w' & H1 & H2 & _).
  exists w'. split; [exact H1|exact H2].
Defined.

Lemma list_namespace_callback_lines names context w :
  exists w',
    fold_each envchain_list_namespace_callback names context w = Ret context w'
    /\ printed ((fun n => n +:+ newline) <$> names) w w'.
Proof.
  revert w. induction names as [|n rest IH]; intros w.
  - exists w. split; [done|apply printed_nil].
  - rewrite fold_each_cons. unfold envchain_list_namespace_callback at 1, bind.
    destruct (print_printed (n +:+ newline) w) as (w1 & -> & Hp1). unfold ret at 1.
    destruct (IH w1) as (w2 & -> & Hp2). exists w2. split; [done|].
    by apply (printed_app [_] _ w w1 w2).
Qed.

(** X8: [--list] without arguments prints the namespaces of the keychain,
    one per line, each once and in ascending order, returns 0 and changes no
    keychain. *)
Theorem list_prints_the_namespaces (w : world) :
  exists w',
    envchain_list [] w = Ret 0 w'
    /\ stdout w' = stdout w ++ ((fun n => n +:+ newline) <$> listed_namespaces w)
    /\ stderr w' = stderr w
    /\ same_keychains w w'
    /\ StronglySorted strcmp_lt (listed_namespaces w).
Proof.
  unfold envchain_list, bind. cbn [envchain_list_options]. unfold ret at 1.
  cbn [target show_value]. rewrite bool_decide_false by (by intros ?).
  unfold ret at 1. rewrite envchain_search_namespaces_eq. unfold bind.
  destruct (list_namespace_callback_lines (listed_namespaces w)
              {| target := None; show_value := 0 |} w) as (w' & -> & Hs & Hout & Herr & _).
  exists w'. split; [done|]. split; [done|]. split; [done|]. split; [done|].
  destruct (skip_repeats_None_sorted (qsort envchain_sortcmp_str (collected_names w)))
    as [Hsorted _]; [apply qsort_sorted|]. done.
Qed.

(** X9: [--list] with more than one namespace, or with a value-display flag
    and no namespace, lists nothing: it prints the help text and exits with
    status 2. *)
Theorem list_rejects_other_argument_shapes (w : world) (argv : list string) :
  (2 <= length (list_targets argv))%nat
  \/ (list_targets argv = [] /\ wants_values argv = true) ->
  exists w',
    envchain_list argv w = Halt (Exited 2) w'
    /\ stderr w' = stderr w ++ [Text (help_text (envchain_name w))]
    /\ stdout w' = stdout w
    /\ same_keychains w w'.
Proof.
  intros Hshape. unfold envchain_list, bind.
  pose proof (envchain_list_options_spec argv {| target := None; show_value := 0 |} w)
    as Hopt. cbv zeta in Hopt. cbn [target show_value] in Hopt.
  rewrite Hopt. cbv [option_list option_rect]. rewrite app_nil_l.
  destruct Hshape as [Hlen|[Hnone Hshow]].
  - destruct (list_targets argv) as [|t1 [|t2 ts]]; simpl in Hlen; [lia..|].
    destruct (@envchain_abort_with_help_eq envchain_list_context w)
      as (w' & -> & Hs & Herr & Hout).
    by exists w'.
  - rewrite Hnone, Hshow. cbn [target show_value].
    rewrite bool_decide_true by done.
    destruct (@envchain_abort_with_help_eq unit w) as (w' & -> & Hs & Herr & Hout).
    by exists w'.
Qed.

Lemma list_rejects_other_argument_shapes_witness :
  exists w',
    envchain_list ["db"; "web"] db_world = Halt (Exited 2) w'
    /\ stdout w' = stdout db_world.
Proof.
  destruct (list_rejects_other_argument_shapes db_world ["db"; "web"])
    as (w' & H1 & _ & H2 & _).
  - left. simpl. lia.
  - exists w'. split; [exact H1|exact H2].
Defined.

(** ** Typing values (envchain.c, lines 100-204) *)

Lemma chop_newline_newline s : chop_newline (s +:+ newline) = s.
Proof.
  induction s as [|c r IH]; [done|].
  change (String c r +:+ newline) with (String c (r +:+ newline)).
  cbn [chop_newline]. rewrite IH. by destruct r.
Qed.

Lemma envchain_ask_value_echo name key l rest w :
  stdin w = l :: rest ->
  exists w',
    envchain_ask_value name key 0 w = Ret l w'
    /\ same_keychains w w' /\ stdin w' = rest /\ stderr w' = stderr w.
Proof.
  intros Hin. unfold envchain_ask_value. cbv zeta.
  rewrite bool_decide_false by (by intros ?).
  unfold bind, print, read_line. cbn [stdin]. rewrite Hin.
  eexists. split; [done|]. by repeat split.
Qed.

Lemma envchain_ask_value_echo_end name key w :
  stdin w = [] ->
  exists w',
    envchain_ask_value name key 0 w = Ret None w'
    /\ same_keychains w w' /\ stdin w' = [] /\ stderr w' = stderr w.
Proof.
  intros Hin. unfold envchain_ask_value. cbv zeta.
  rewrite bool_decide_false by (by intros ?).
  unfold bind, print, read_line. cbn [stdin]. rewrite Hin.
  eexists. split; [done|]. by repeat split.
Qed.

(** A noecho read on a terminal returns a value whether a line is there or
    not. *)
Lemma envchain_ask_value_noecho name key noecho line rest w :
  noecho ≠ 0 -> terminal (sys w) = true ->
  stdin w = Some line :: rest ->
  exists w',
    envchain_ask_value name key noecho w = Ret (Some (noecho_value line)) w'
    /\ same_keychains w w' /\ stdin w' = rest /\ stderr w' = stderr w.
Proof.
  intros Hnoecho Htty Hin.
  assert ((if bool_decide (0 < Z.of_nat (strlen line)) then chop_newline line else line)
          = chop_newline line) as Hchop.
  { destruct line as [|c r]; [done|].
    rewrite bool_decide_true; [done|]. unfold strlen. simpl String.length. lia. }
  unfold envchain_ask_value. cbv zeta.
  rewrite bool_decide_true by done.
  unfold envchain_noecho_read, getline, bind, gets. rewrite Htty. cbn [negb].
  unfold print at 1. cbv beta iota. unfold read_line. cbn [stdin]. rewrite Hin.
  unfold ret at 1. cbv beta iota. rewrite Hchop. fold (noecho_value line).
  eexists. split; [reflexivity|]. by repeat split.
Qed.

Lemma envchain_ask_value_noecho_end name key noecho w :
  noecho ≠ 0 -> terminal (sys w) = true ->
  stdin w = [] ->
  exists w',
    envchain_ask_value name key noecho w = Ret (Some EmptyString) w'
    /\ same_keychains w w' /\ stdin w' = [] /\ stderr w' = stderr w.
Proof.
  intros Hnoecho Htty Hin. unfold envchain_ask_value. cbv zeta.
  rewrite bool_decide_true by done.
  unfold envchain_noecho_read, getline, bind, gets. rewrite Htty. cbn [negb].
  unfold print at 1. cbv beta iota. unfold read_line. cbn [stdin]. rewrite Hin.
  eexists. split; [reflexivity|]. by repeat split.
Qed.

Lemma stdin_set_items l w : stdin (set_items l w) = stdin w.
Proof. unfold set_items. by destruct (envchain_keychain w). Qed.

(** The loop of [envchain_set] over the keys with echo, on an input of
    [lines]: it saves one value per line, and stops with 1 where the input
    ends. *)
Lemma envchain_set_keys_echo N keys lines rest w :
  stdin w = (Some <$> lines) ++ rest ->
  (length lines <= length keys)%nat ->
  (length lines < length keys -> rest = [])%nat ->
  exists w',
    envchain_set_keys N keys 0 (-1) w
    = Ret (if bool_decide (length lines = length keys) then 0 else 1) w'
    /\ items w' = typed_items N (new_item_access (sys w)) (zip keys lines) (items w)
    /\ sys w' = sys w /\ stdin w' = rest /\ stderr w' = stderr w.
Proof.
  revert lines w. induction keys as [|key keys IH]; intros lines w Hin Hlen Hend.
  - destruct lines; [|simpl in Hlen; lia]. exists w. by repeat split.
  - cbn [envchain_set_keys]. unfold bind. destruct lines as [|line lines].
    + rewrite Hend in * by (simpl; lia).
      destruct (envchain_ask_value_echo_end N key w Hin)
        as (w1 & -> & Hs & Hin1 & Herr1).
      exists w1. rewrite bool_decide_false by done. split; [done|].
      split; [by apply same_keychains_items|]. split; [apply Hs|done].
    + destruct (envchain_ask_value_echo N key _ _ w Hin)
        as (w1 & -> & Hs & Hin1 & Herr1).
      rewrite envchain_save_value_eq.
      pose proof (same_keychains_items _ _ Hs) as Hitems. destruct Hs as (Hsys & _).
      destruct (IH lines
                  (set_items (save_items N key line
                                (new_item_access (sys w1)) (items w1)) w1))
        as (w2 & -> & Hitems2 & Hsys2 & Hin2 & Herr2).
      * by rewrite stdin_set_items.
      * simpl in Hlen. lia.
      * intros Hlt. apply Hend. simpl. lia.
      * exists w2. split.
        { f_equal. simpl. repeat case_bool_decide; done || lia. }
        rewrite Hitems2, Hsys2, Hin2, Herr2, !sys_set_items, items_set_items,
          stderr_set_items, Hsys, Hitems, Herr1.
        by repeat split.
Qed.

(** The loop without echo, on a terminal: it saves a value for every key
    and returns 0, the empty buffer standing for the lines the input does
    not hold. *)
Lemma envchain_set_keys_noecho N keys lines rest noecho w :
  noecho ≠ 0 -> terminal (sys w) = true ->
  stdin w = (Some <$> lines) ++ rest ->
  (length lines <= length keys)%nat ->
  (length lines < length keys -> rest = [])%nat ->
  exists w',
    envchain_set_keys N keys noecho (-1) w = Ret 0 w'
    /\ items w'
       = typed_items N (new_item_access (sys w))
           (zip keys (noecho_values (length keys) lines)) (items w)
    /\ sys w' = sys w /\ stdin w' = rest /\ stderr w' = stderr w.
Proof.
  intros Hnoecho. revert lines w.
  induction keys as [|key keys IH]; intros lines w Htty Hin Hlen Hend.
  - destruct lines; [|simpl in Hlen; lia]. exists w. by repeat split.
  - cbn [envchain_set_keys]. unfold bind. destruct lines as [|line lines].
    + rewrite Hend in * by (simpl; lia).
      destruct (envchain_ask_value_noecho_end N key noecho w Hnoecho Htty Hin)
        as (w1 & -> & Hs & Hin1 & Herr1).
      rewrite envchain_save_value_eq.
      pose proof (same_keychains_items _ _ Hs) as Hitems. destruct Hs as (Hsys & _).
      destruct (IH [] (set_items (save_items N key EmptyString
                                    (new_item_access (sys w1)) (items w1)) w1))
        as (w2 & -> & Hitems2 & Hsys2 & Hin2 & Herr2).
      * by rewrite sys_set_items, Hsys.
      * by rewrite stdin_set_items.
      * simpl. lia.
      * done.
      * exists w2. split; [done|].
        rewrite Hitems2, Hsys2, Hin2, Herr2, !sys_set_items, items_set_items,
          stderr_set_items, Hsys, Hitems, Herr1.
        split; [|done]. unfold noecho_values. simpl. by rewrite Nat.sub_0_r.
    + destruct (envchain_ask_value_noecho N key noecho _ _ w Hnoecho Htty Hin)
        as (w1 & -> & Hs & Hin1 & Herr1).
      rewrite envchain_save_value_eq.
      pose proof (same_keychains_items _ _ Hs) as Hitems. destruct Hs as (Hsys & _).
      destruct (IH lines
                  (set_items (save_items N key (noecho_value line)
                                (new_item_access (sys w1)) (items w1)) w1))
        as (w2 & -> & Hitems2 & Hsys2 & Hin2 & Herr2).
      * by rewrite sys_set_items, Hsys.
      * by rewrite stdin_set_items.
      * simpl in Hlen. lia.
      * intros Hlt. apply Hend. simpl. lia.
      * exists w2. split; [done|].
        rewrite Hitems2, Hsys2, Hin2, Herr2, !sys_set_items, items_set_items,
          stderr_set_items, Hsys, Hitems, Herr1.
        by repeat split.
Qed.

Lemma typed_items_filter_other N a kvs l s' a' :
  (forall K, K ∈ kvs.*1 -> (encode N, K) <> (s', a')) ->
  filter (matches s' a') (typed_items N a kvs l) = filter (matches s' a') l.
Proof.
  revert l. induction kvs as [|[K V] kvs IH]; intros l Hne; [done|].
  change (typed_items N a ((K, V) :: kvs) l)
    with (typed_items N a kvs (save_items N K V a l)).
  rewrite IH by (intros K' HK'; apply Hne; by right).
  apply save_items_filter_other, Hne. by left.
Qed.

(** The last value typed for a key is the one the keychain holds. *)
Lemma typed_items_last N a kvs l i K V :
  kvs !! i = Some (K, V) -> K ∉ (drop (S i) kvs).*1 ->
  item_data <$> head (filter (matches (encode N) K) (typed_items N a kvs l)) = Some V.
Proof.
  intros Hi Hlast. rewrite <- (take_drop_middle kvs i (K, V) Hi).
  unfold typed_items. rewrite foldl_app.
  change (foldl (fun l kv => save_items N kv.1 kv.2 a l)
            (foldl (fun l kv => save_items N kv.1 kv.2 a l) l (take i kvs))
            ((K, V) :: drop (S i) kvs))
    with (typed_items N a (drop (S i) kvs)
            (save_items N K V a (typed_items N a (take i kvs) l))).
  rewrite typed_items_filter_other
    by (intros K' HK' [= ->]; by apply Hlast).
  destruct (save_items_lookup N K V a (typed_items N a (take i kvs) l))
    as (ref & acc & Hfind & Hit & _).
  rewrite <- find_index_head, Hfind, Hit. done.
Qed.

Lemma envchain_set_options_namespace N keys st :
  first_char N ≠ "-"%char -> envchain_set_options (N :: keys) st = Parsed st (N :: keys).
Proof.
  intros HN. cbn [envchain_set_options].
  destruct (bool_decide (2 < argc (N :: keys))); [|done]. cbn [negb].
  by rewrite bool_decide_true.
Qed.

Lemma argc_keys (N : string) (keys : list string) :
  keys ≠ [] -> bool_decide (argc (N :: keys) < 2) = false.
Proof.
  intros Hkeys. apply bool_decide_false. unfold argc. destruct keys; [done|].
  simpl length. lia.
Qed.

(** The entries after the values [lines] were saved for the first keys. *)
Lemma typed_entries w w' N a (keys lines : list string) :
  (length lines <= length keys)%nat ->
  items w' = typed_items N a (zip keys lines) (items w) ->
  (forall i K V, keys !! i = Some K -> lines !! i = Some V ->
     K ∉ drop (S i) (take (length lines) keys) -> stored w' N K = Some V)
  /\ (forall N' K', N' ≠ N \/ K' ∉ take (length lines) keys ->
        entry w' N' K' = entry w N' K').
Proof.
  intros Hlen Hitems. rewrite <- (zip_with_take_l pair keys lines) in Hitems.
  assert (length (take (length lines) keys) = length lines) as Htake
    by (rewrite length_take; lia).
  split.
  - intros i K V HK HV Hlast. unfold stored. rewrite entry_head, Hitems.
    apply (typed_items_last _ _ _ _ i).
    + apply lookup_zip_with_Some. exists K, V. split; [done|]. split; [|done].
      rewrite lookup_take_lt; [done|]. by eapply lookup_lt_Some.
    + rewrite zip_with_drop. rewrite fst_zip; [done|]. rewrite !length_drop. lia.
  - intros N' K' Hother. rewrite !entry_head, Hitems.
    f_equal. apply typed_items_filter_other. intros K HK Heq.
    assert (N = N') as <- by (apply encode_inj; congruence).
    assert (K = K') as <- by congruence.
    destruct Hother as [Hne|Hnot]; [done|].
    apply Hnot. rewrite fst_zip in HK by lia. done.
Qed.

(** X10: [--set NAMESPACE KEY ...] with one line of input per key returns 0
    and consumes exactly these lines; afterwards each key holds the last
    line typed for it, and the entry of every pair of another namespace, or
    of a key that was not named, is as before. *)
Theorem set_stores_the_typed_values (w : world) (N : string)
    (keys lines : list string) (rest : list (option string)) :
  first_char N ≠ "-"%char -> keys ≠ [] ->
  length lines = length keys ->
  stdin w = (Some <$> lines) ++ rest ->
  exists w',
    envchain_set (N :: keys) w = Ret 0 w'
    /\ stdin w' = rest
    /\ stderr w' = stderr w
    /\ (forall i K V, keys !! i = Some K -> lines !! i = Some V ->
          K ∉ drop (S i) keys -> stored w' N K = Some V)
    /\ (forall N' K', N' ≠ N \/ K' ∉ keys -> entry w' N' K' = entry w N' K').
Proof.
  intros HN Hkeys Hlen Hin. unfold envchain_set. cbv zeta.
  rewrite envchain_set_options_namespace by done. rewrite argc_keys by done.
  destruct (envchain_set_keys_echo N keys lines rest w)
    as (w' & -> & Hitems & Hsys & Hin' & Herr'); [done|lia|lia|].
  rewrite bool_decide_true by done. exists w'. split; [done|]. split; [done|].
  split; [done|].
  apply typed_entries in Hitems; [|lia].
  by rewrite Hlen, firstn_all in Hitems.
Qed.

Lemma set_stores_the_typed_values_witness :
  exists w',
    envchain_set ["db"; "HOST"; "PORT"; "HOST"] (session true ["a"; "5432"; "b"]) = Ret 0 w'
    /\ stored w' "db" "HOST" = Some "b"
    /\ stored w' "db" "PORT" = Some "5432"
    /\ stored w' "web" "HOST" = None.
Proof.
  destruct (set_stores_the_typed_values (session true ["a"; "5432"; "b"]) "db"
              ["HOST"; "PORT"; "HOST"] ["a"; "5432"; "b"] [])
    as (w' & H1 & _ & _ & H2 & H3); [done|done|done|done|].
  exists w'. split; [exact H1|]. split; [|split].
  - apply (H2 2%nat); [done|done|]. simpl. apply not_elem_of_nil.
  - apply (H2 1%nat); [done|done|]. simpl. by intros [=]%list_elem_of_singleton.
  - unfold stored. rewrite (H3 "web" "HOST"); [done|]. left. done.
Defined.

Lemma envchain_set_options_noecho flag N keys :
  flag ∈ ["-n"; "--noecho"] -> first_char N ≠ "-"%char -> keys ≠ [] ->
  envchain_set_options (flag :: N :: keys) (0, -1) = Parsed (1, -1) (N :: keys).
Proof.
  intros Hflag HN Hkeys.
  change (envchain_set_options (flag :: N :: keys) (0, -1))
    with (if negb (bool_decide (2 < argc (flag :: N :: keys))) then Parsed (0, -1) (flag :: N :: keys)
          else if bool_decide (first_char flag ≠ "-"%char) then Parsed (0, -1) (flag :: N :: keys)
          else if bool_decide (strcmp flag "-n" = 0) || bool_decide (strcmp flag "--noecho" = 0)
          then envchain_set_options (N :: keys) (1, -1)
          else if bool_decide (strcmp flag "-p" = 0)
                  || bool_decide (strcmp flag "--require-passphrase" = 0)
          then envchain_set_options (N :: keys) (0, 1)
          else if bool_decide (strcmp flag "-P" = 0)
                  || bool_decide (strcmp flag "--no-require-passphrase" = 0)
          then envchain_set_options (N :: keys) (0, 0)
          else UnknownOption flag).
  rewrite (bool_decide_true (2 < _)) by (unfold argc; destruct keys; [done|simpl length; lia]).
  cbn [negb]. rewrite envchain_set_options_namespace by done.
  rewrite !bool_decide_strcmp.
  apply elem_of_cons in Hflag as [->|Hflag]; [done|].
  apply list_elem_of_singleton in Hflag as ->. done.
Qed.

Lemma last_occurrence (K : string) (l : list string) :
  K ∈ l -> exists i, l !! i = Some K /\ K ∉ drop (S i) l.
Proof.
  induction l as [|x r IH]; [by intros ?%elem_of_nil|]. intros Hin.
  destruct (decide (K ∈ r)) as [Hr|Hr].
  - destruct (IH Hr) as (i & Hi & Hlast). by exists (S i).
  - apply elem_of_cons in Hin as [->|?]; [|done]. by exists 0%nat.
Qed.

Lemma length_noecho_values n (lines : list string) :
  (length lines <= n)%nat -> length (noecho_values n lines) = n.
Proof.
  intros Hlen. unfold noecho_values.
  rewrite length_app, length_fmap, length_replicate. lia.
Qed.

Lemma noecho_value_newline v : noecho_value (v +:+ newline) = cstr v.
Proof. unfold noecho_value. by rewrite chop_newline_newline. Qed.

(** X11: when the input ends before every key of [--set] has its line: with
    echo the command stops and returns 1, the values typed until then stay
    saved, and the entries of the remaining keys and of other namespaces are
    as before; without echo, on a terminal, the end of input is not tested:
    the command goes on, gives every key an entry, the keys past the input
    from the buffer [getline] leaves, and returns 0. *)
Theorem set_at_the_end_of_input (w : world) (N : string) (keys lines : list string) :
  first_char N ≠ "-"%char ->
  (length lines < length keys)%nat ->
  stdin w = Some <$> lines ->
  (exists w',
     envchain_set (N :: keys) w = Ret 1 w'
     /\ stderr w' = stderr w
     /\ (forall i K V, keys !! i = Some K -> lines !! i = Some V ->
           K ∉ drop (S i) (take (length lines) keys) -> stored w' N K = Some V)
     /\ (forall N' K', N' ≠ N \/ K' ∉ take (length lines) keys ->
           entry w' N' K' = entry w N' K'))
  /\ (forall flag, flag ∈ ["-n"; "--noecho"] -> terminal (sys w) = true ->
      exists w',
        envchain_set (flag :: N :: keys) w = Ret 0 w'
        /\ stdin w' = []
        /\ (forall K, K ∈ keys -> is_Some (stored w' N K))
        /\ (forall i K V, keys !! i = Some K -> lines !! i = Some V ->
              K ∉ drop (S i) keys -> stored w' N K = Some (noecho_value V))
        /\ (forall N' K', N' ≠ N \/ K' ∉ keys -> entry w' N' K' = entry w N' K')).
Proof.
  intros HN Hlen Hin.
  assert (keys ≠ []) as Hkeys by (intros ->; simpl in Hlen; lia).
  split.
  - unfold envchain_set. cbv zeta.
    rewrite envchain_set_options_namespace by done. rewrite argc_keys by done.
    destruct (envchain_set_keys_echo N keys lines [] w)
      as (w' & -> & Hitems & Hsys & Hin' & Herr'); [by rewrite app_nil_r|lia|done|].
    rewrite bool_decide_false by lia. exists w'. split; [done|]. split; [done|].
    apply typed_entries in Hitems; [done|lia].
  - intros flag Hflag Htty. unfold envchain_set. cbv zeta.
    rewrite envchain_set_options_noecho by done. rewrite argc_keys by done.
    destruct (envchain_set_keys_noecho N keys lines [] 1 w)
      as (w' & -> & Hitems & Hsys & Hin' & Herr');
      [done|done|by rewrite app_nil_r|lia|done|].
    exists w'. split; [done|]. split; [done|].
    pose proof (length_noecho_values (length keys) lines) as Hvalues.
    apply typed_entries in Hitems as [Hstored Hother]; [|lia].
    rewrite Hvalues, firstn_all in * by lia.
    split; [|split; [|done]].
    + intros K (i & Hi & Hlast)%last_occurrence.
      destruct (lookup_lt_is_Some_2 (noecho_values (length keys) lines) i) as [V HV].
      { rewrite Hvalues by lia. by eapply lookup_lt_Some. }
      rewrite (Hstored i K V); done.
    + intros i K V HK HV Hlast. apply (Hstored i); [done| |done].
      unfold noecho_values. apply lookup_app_l_Some.
      by rewrite list_lookup_fmap, HV.
Qed.

Lemma set_at_the_end_of_input_witness :
  (exists w',
     envchain_set ["db"; "PORT"; "HOST"] (session true ["5432"]) = Ret 1 w'
     /\ stored w' "db" "PORT" = Some "5432"
     /\ stored w' "db" "HOST" = Some "localhost")
  /\ (exists w',
        envchain_set ["-n"; "db"; "PORT"; "USER"] (session true ["5432" +:+ newline])
        = Ret 0 w'
        /\ stored w' "db" "PORT" = Some "5432"
        /\ is_Some (stored w' "db" "USER")).
Proof.
  split.
  - destruct (set_at_the_end_of_input (session true ["5432"]) "db"
                ["PORT"; "HOST"] ["5432"])
      as [(w' & H1 & _ & H2 & H3) _]; [done|simpl; lia|done|].
    exists w'. split; [exact H1|]. split.
    + apply (H2 0%nat); [done|done|]. simpl. apply not_elem_of_nil.
    + unfold stored. rewrite (H3 "db" "HOST"); [done|]. right. simpl.
      by intros [=]%list_elem_of_singleton.
  - destruct (set_at_the_end_of_input (session true ["5432" +:+ newline]) "db"
                ["PORT"; "USER"] ["5432" +:+ newline])
      as [_ H]; [done|simpl; lia|done|].
    destruct (H "-n") as (w' & H1 & _ & H2 & H3 & _); [by left|done|].
    exists w'. split; [exact H1|]. split.
    + rewrite (H3 0%nat "PORT" ("5432" +:+ newline)); [reflexivity|done|done|].
      simpl. by intros [=]%list_elem_of_singleton.
    + apply H2. by right; left.
Defined.

(** X12: [--set --noecho] on a terminal stores each typed line without its
    final newline, as the C string the buffer holds: after one line per key
    the command returns 0 and each key holds what was typed for it last, up
    to the newline and cut at the first NUL, if the line has one. *)
Theorem set_noecho_stores_the_line_without_newline (w : world) (flag N : string)
    (keys values : list string) (rest : list (option string)) :
  flag ∈ ["-n"; "--noecho"] -> first_char N ≠ "-"%char -> keys ≠ [] ->
  terminal (sys w) = true ->
  length values = length keys ->
  stdin w = ((fun v => Some (v +:+ newline)) <$> values) ++ rest ->
  exists w',
    envchain_set (flag :: N :: keys) w = Ret 0 w'
    /\ stdin w' = rest
    /\ stderr w' = stderr w
    /\ (forall i K V, keys !! i = Some K -> values !! i = Some V ->
          K ∉ drop (S i) keys -> stored w' N K = Some (cstr V))
    /\ (forall N' K', N' ≠ N \/ K' ∉ keys -> entry w' N' K' = entry w N' K').
Proof.
  intros Hflag HN Hkeys Htty Hlen Hin. unfold envchain_set. cbv zeta.
  rewrite envchain_set_options_noecho by done. rewrite argc_keys by done.
  destruct (envchain_set_keys_noecho N keys ((fun v => v +:+ newline) <$> values) rest 1 w)
    as (w' & -> & Hitems & Hsys & Hin' & Herr').
  { done. }
  { done. }
  { by rewrite <- list_fmap_compose. }
  { rewrite length_fmap. lia. }
  { rewrite length_fmap. lia. }
  exists w'. split; [done|]. split; [done|]. split; [done|].
  assert (noecho_values (length keys) ((fun v => v +:+ newline) <$> values)
          = cstr <$> values) as Hvalues.
  { unfold noecho_values. rewrite length_fmap, Hlen, Nat.sub_diag, app_nil_r.
    rewrite <- list_fmap_compose. apply list_fmap_ext. intros _ v _.
    apply noecho_value_newline. }
  rewrite Hvalues in Hitems. apply typed_entries in Hitems as [Hstored Hother];
    [|rewrite length_fmap; lia].
  rewrite length_fmap, Hlen, firstn_all in *. split; [|done].
  intros i K V HK HV Hlast. apply (Hstored i); [done| |done].
  by rewrite list_lookup_fmap, HV.
Qed.

Lemma set_noecho_stores_the_line_without_newline_witness :
  exists w',
    envchain_set ["-n"; "db"; "PORT"]
      (session true [("ab" +:+ String NUL "cd") +:+ newline]) = Ret 0 w'
    /\ stored w' "db" "PORT" = Some "ab".
Proof.
  destruct (set_noecho_stores_the_line_without_newline
              (session true [("ab" +:+ String NUL "cd") +:+ newline]) "-n" "db" ["PORT"]
              ["ab" +:+ String NUL "cd"] [])
    as (w' & H1 & _ & _ & H2 & _); [by left|done|done|done|done|done|].
  exists w'. split; [exact H1|].
  rewrite (H2 0%nat "PORT" ("ab" +:+ String NUL "cd")); [reflexivity|done|done|].
  simpl. apply not_elem_of_nil.
Defined.

(** X13: [--set --noecho] away from a terminal stores nothing: it reads no
    input, prints that a terminal is required and returns 1, with every
    keychain as it was. *)
Theorem set_noecho_requires_a_terminal (w : world) (flag N : string) (keys : list string) :
  flag ∈ ["-n"; "--noecho"] -> first_char N ≠ "-"%char -> keys ≠ [] ->
  terminal (sys w) = false ->
  exists w',
    envchain_set (flag :: N :: keys) w = Ret 1 w'
    /\ stderr w'
       = stderr w ++ [Text ("--noecho (-n) requires stdin to be a terminal" +:+ newline)]
    /\ stdout w' = stdout w
    /\ stdin w' = stdin w
    /\ same_keychains w w'.
Proof.
  intros Hflag HN Hkeys Htty. unfold envchain_set. cbv zeta.
  rewrite envchain_set_options_noecho by done. rewrite argc_keys by done.
  destruct keys as [|key keys]; [done|].
  cbn [envchain_set_keys]. unfold bind, envchain_ask_value. cbv zeta.
  rewrite bool_decide_true by done.
  unfold envchain_noecho_read, bind, gets. rewrite Htty. cbn [negb].
  eexists. split; [reflexivity|]. by repeat split.
Qed.

Lemma set_noecho_requires_a_terminal_witness :
  exists w',
    envchain_set ["--noecho"; "db"; "PORT"] (session false ["5432" +:+ newline]) = Ret 1 w'
    /\ stdin w' = [Some ("5432" +:+ newline)]
    /\ same_keychains (session false ["5432" +:+ newline]) w'.
Proof.
  destruct (set_noecho_requires_a_terminal (session false ["5432" +:+ newline])
              "--noecho" "db" ["PORT"])
    as (w' & H1 & _ & _ & H2 & H3); [by right; left|done|done|done|].
  exists w'. split; [exact H1|]. split; [exact H2|exact H3].
Defined.

(** ** Access policies in sequence (envchain_osx.c, lines 423-476, 529-550) *)

Lemma envchain_policy_contents w real require_passphrase prompt :
  self_real_path (sys w) = Some real ->
  (if bool_decide (require_passphrase = 1)
   then ret (Z.lor (if bool_decide (prompt = 0) then 256 else prompt)
               kSecKeychainPromptRequirePassphase, [])
   else let* app_list := envchain_self_trusted_app_list in ret (0, app_list)) w
  = Ret (policy_contents (sys w) real require_passphrase prompt) w.
Proof.
  intros Hreal. unfold policy_contents. case_bool_decide; [done|].
  unfold bind. by rewrite (envchain_self_trusted_app_list_eq w real Hreal).
Qed.

(** A policy update of an entry that exists and has a decrypt ACL. *)
Lemma envchain_update_value_access_present N K require_passphrase w ref it acl e real :
  0 <= require_passphrase ->
  find_index (matches (encode N) K) (items w) = Some ref ->
  items w !! ref = Some it ->
  SecAccessCopyMatchingACLList (item_access it) kSecACLAuthorizationDecrypt !! 0%nat
    = Some acl ->
  item_access it !! acl = Some e ->
  self_real_path (sys w) = Some real ->
  envchain_update_value_access N K require_passphrase w
  = Ret 0 (set_items
             (<[ref := with_policy (sys w) real require_passphrase acl e it]> (items w)) w).
Proof.
  intros Hrp Hfind Hit Hacl He Hreal. unfold envchain_update_value_access.
  rewrite bool_decide_false by lia. unfold bind at 1.
  rewrite envchain_find_value_eq, Hfind. rewrite bool_decide_false by done.
  unfold bind.
  rewrite (envchain_apply_item_access_eq w ref it acl e require_passphrase
             (policy_contents (sys w) real require_passphrase (acl_prompt e)).2
             (policy_contents (sys w) real require_passphrase (acl_prompt e)).1); try done.
  rewrite (envchain_policy_contents w real) by done.
  by destruct (policy_contents (sys w) real require_passphrase (acl_prompt e)).
Qed.

Lemma find_index_insert (p : item -> bool) (l : list item) (i : nat) it' :
  find_index p l = Some i -> p it' = true -> find_index p (<[i := it']> l) = Some i.
Proof.
  intros Hfind Hp. destruct (find_index_Some _ _ _ Hfind) as (it & Hit & _ & Hbefore).
  apply (find_index_first _ _ _ it'); [|done|].
  - apply list_lookup_insert_eq. by eapply lookup_lt_Some.
  - by rewrite take_insert_ge by lia.
Qed.

Lemma policy_contents_twice s real p1 p2 prompt :
  p1 = p2 \/ p2 ≠ 1 ->
  policy_contents s real p2 (policy_contents s real p1 prompt).1
  = policy_contents s real p2 prompt.
Proof.
  intros Hp. unfold policy_contents.
  destruct (bool_decide_reflect (p2 = 1)) as [H2|H2]; [|done].
  destruct Hp as [->|?]; [|done]. rewrite (bool_decide_true (p2 = 1)) by done. cbn [fst].
  f_equal. set (x := if bool_decide (prompt = 0) then 256 else prompt).
  rewrite bool_decide_false.
  - by rewrite <- Z.lor_assoc, Z.lor_diag.
  - intros H0. pose proof (land_lor_1 x) as H1.
    unfold kSecKeychainPromptRequirePassphase in H0. by rewrite H0 in H1.
Qed.

(** Two policy updates of the same entry, one after the other. *)
Lemma envchain_update_value_access_twice N K p1 p2 w ref it acl e real :
  0 <= p1 -> 0 <= p2 ->
  find_index (matches (encode N) K) (items w) = Some ref ->
  items w !! ref = Some it ->
  SecAccessCopyMatchingACLList (item_access it) kSecACLAuthorizationDecrypt !! 0%nat
    = Some acl ->
  item_access it !! acl = Some e ->
  self_real_path (sys w) = Some real ->
  exists w1,
    envchain_update_value_access N K p1 w = Ret 0 w1
    /\ envchain_update_value_access N K p2 w1
       = Ret 0 (set_items
                  (<[ref := set_item_access
                              (<[acl := applied_acl e
                                          (policy_contents (sys w) real p2
                                             (policy_contents (sys w) real p1 (acl_prompt e)).1).2
                                          (policy_contents (sys w) real p2
                                             (policy_contents (sys w) real p1 (acl_prompt e)).1).1]>
                                 (item_access it)) it]> (items w)) w).
Proof.
  intros Hp1 Hp2 Hfind Hit Hacl He Hreal.
  eexists. split; [by eapply envchain_update_value_access_present|].
  pose proof (lookup_lt_Some _ _ _ Hit) as Href.
  pose proof (lookup_lt_Some _ _ _ He) as Hlt.
  set (c1 := policy_contents (sys w) real p1 (acl_prompt e)).
  rewrite (envchain_update_value_access_present N K p2 _ ref
             (with_policy (sys w) real p1 acl e it) acl (applied_acl e c1.2 c1.1) real).
  - rewrite items_set_items, set_items_twice, list_insert_insert_eq, sys_set_items.
    unfold with_policy, set_item_access, applied_acl. cbn.
    by rewrite list_insert_insert_eq.
  - done.
  - rewrite items_set_items. apply find_index_insert; [done|].
    destruct (find_index_Some _ _ _ Hfind) as (it0 & Hit0 & Hm & _).
    rewrite Hit in Hit0. by injection Hit0 as <-.
  - rewrite items_set_items. by apply list_lookup_insert_eq.
  - unfold with_policy. cbn [item_access set_item_access].
    unfold SecAccessCopyMatchingACLList.
    rewrite (matching_acl_list_insert _ _ _ _ e); done.
  - unfold with_policy. cbn [item_access set_item_access].
    by apply list_lookup_insert_eq.
  - by rewrite sys_set_items.
Qed.

(** X14: on an entry that has a decrypt ACL, applying an access policy
    twice gives what applying it once gives, and applying the
    trusted-callers policy after any policy gives what it gives alone: the
    keychain is the same, item for item. *)
Theorem access_policy_applied_twice (w : world) (N K : string) (p1 p2 : Z)
    (it : item) (e : acl) :
  0 <= p1 -> 0 <= p2 -> p1 = p2 \/ p2 ≠ 1 ->
  entry w N K = Some it ->
  decrypt_acl (item_access it) = Some e ->
  is_Some (self_real_path (sys w)) ->
  exists w1 w2,
    envchain_update_value_access N K p1 w = Ret 0 w1
    /\ envchain_update_value_access N K p2 w1 = Ret 0 w2
    /\ envchain_update_value_access N K p2 w = Ret 0 w2.
Proof.
  intros Hp1 Hp2 Hp Hentry (acl & Hacl & He)%decrypt_acl_Some [real Hreal].
  unfold entry in Hentry.
  destruct (find_index (matches (encode N) K) (items w)) as [ref|] eqn:Hfind; [|done].
  destruct (envchain_update_value_access_twice N K p1 p2 w ref it acl e real)
    as (w1 & H1 & H2); [done..|].
  eexists w1, _. split; [done|]. split; [done|].
  erewrite envchain_update_value_access_present by done.
  unfold with_policy. by rewrite policy_contents_twice.
Qed.

Lemma access_policy_applied_twice_witness :
  exists w1 w2,
    envchain_update_value_access "db" "HOST" 1 prompting_world = Ret 0 w1
    /\ envchain_update_value_access "db" "HOST" 0 w1 = Ret 0 w2
    /\ envchain_update_value_access "db" "HOST" 0 prompting_world = Ret 0 w2.
Proof.
  apply (access_policy_applied_twice prompting_world "db" "HOST" 1 0
           (Item "envchain-db" "HOST" "envchain" "localhost"
              [Acl [kSecACLAuthorizationDecrypt] (Some ["/usr/bin/security"])
                 "envchain-db" 16])
           (Acl [kSecACLAuthorizationDecrypt] (Some ["/usr/bin/security"])
              "envchain-db" 16)); [lia|lia|by right|done|done|by eexists].
Defined.

(** X15: requiring the passphrase on an entry that trusts its callers always
    leaves the prompt selector 0x101 and no trusted application, whatever
    the selector was before the two updates; requiring it at once keeps the
    other bits of a selector that was not zero. *)
Theorem require_passphrase_after_trusted_callers (w : world) (N K : string)
    (it : item) (e : acl) :
  entry w N K = Some it ->
  decrypt_acl (item_access it) = Some e ->
  is_Some (self_real_path (sys w)) ->
  (exists w1 w2,
     envchain_update_value_access N K 0 w = Ret 0 w1
     /\ envchain_update_value_access N K 1 w1 = Ret 0 w2
     /\ policy_of w2 N K = Some (Some [], 257))
  /\ (exists w2,
        envchain_update_value_access N K 1 w = Ret 0 w2
        /\ policy_of w2 N K
           = Some (Some [], Z.lor (if bool_decide (acl_prompt e = 0) then 256
                                   else acl_prompt e) 1)).
Proof.
  intros Hentry (acl & Hacl & He)%decrypt_acl_Some [real Hreal].
  unfold entry in Hentry.
  destruct (find_index (matches (encode N) K) (items w)) as [ref|] eqn:Hfind; [|done].
  pose proof (lookup_lt_Some _ _ _ Hentry) as Href.
  assert (matches (encode N) K it = true) as Hm.
  { destruct (find_index_Some _ _ _ Hfind) as (it0 & Hit0 & Hm & _).
    rewrite Hentry in Hit0. by injection Hit0 as <-. }
  assert (forall apps prompt,
    policy_of (set_items (<[ref := set_item_access
                                     (<[acl := applied_acl e apps prompt]> (item_access it))
                                     it]> (items w)) w) N K
    = Some (Some apps, prompt)) as Hpolicy.
  { intros apps prompt. unfold policy_of, entry. rewrite items_set_items.
    rewrite find_index_insert by done. rewrite list_lookup_insert_eq by done.
    cbn [item_access set_item_access].
    by rewrite (decrypt_acl_insert _ _ e). }
  split.
  - destruct (envchain_update_value_access_twice N K 0 1 w ref it acl e real)
      as (w1 & H1 & H2); [done..|].
    eexists w1, _. split; [done|]. split; [done|]. by rewrite Hpolicy.
  - eexists. split; [by eapply (envchain_update_value_access_present N K 1)|].
    unfold with_policy. by rewrite Hpolicy.
Qed.

Lemma require_passphrase_after_trusted_callers_witness :
  (exists w1 w2,
     envchain_update_value_access "db" "HOST" 0 prompting_world = Ret 0 w1
     /\ envchain_update_value_access "db" "HOST" 1 w1 = Ret 0 w2
     /\ policy_of w2 "db" "HOST" = Some (Some [], 257))
  /\ (exists w2,
        envchain_update_value_access "db" "HOST" 1 prompting_world = Ret 0 w2
        /\ policy_of w2 "db" "HOST" = Some (Some [], 17)).
Proof.
  apply (require_passphrase_after_trusted_callers prompting_world "db" "HOST"
           (Item "envchain-db" "HOST" "envchain" "localhost"
              [Acl [kSecACLAuthorizationDecrypt] (Some ["/usr/bin/security"])
                 "envchain-db" 16])
           (Acl [kSecACLAuthorizationDecrypt] (Some ["/usr/bin/security"])
              "envchain-db" 16)); [done|done|by eexists].
Defined.

(** ** Saving with a policy (envchain_osx.c, lines 478-527) *)

(** A save that names a policy writes the value first and applies the
    policy to the entry it wrote. *)
Lemma envchain_save_value_policy N K V require_passphrase w :
  0 <= require_passphrase ->
  envchain_save_value N K V require_passphrase w
  = (envchain_apply_item_access
       (find_index (matches (encode N) K)
          (save_items N K V (new_item_access (sys w)) (items w)))
       require_passphrase;;
     ret tt)
      (set_items (save_items N K V (new_item_access (sys w)) (items w)) w).
Proof.
  intros Hrp.
  destruct (save_items_lookup N K V (new_item_access (sys w)) (items w))
    as (ref' & acc & -> & _ & Href).
  unfold envchain_save_value. unfold bind at 1. rewrite envchain_find_value_eq.
  unfold save_items.
  destruct (find_index (matches (encode N) K) (items w)) as [i|] eqn:Hfind.
  - destruct Href as [-> _].
    destruct (find_index_Some _ _ _ Hfind) as (it & Hit & Hm & _). rewrite Hit.
    rewrite bool_decide_false by done. unfold bind at 1. unfold bind at 1.
    rewrite (SecKeychainItemModifyAttributesAndData_eq i it) by done.
    unfold ret at 1. rewrite bool_decide_false by (by intros ?).
    unfold bind at 1.
    erewrite SecKeychainItemModifyAttributesAndData_eq; last first.
    { rewrite items_set_items. apply list_lookup_insert_eq. by eapply lookup_lt_Some. }
    rewrite bool_decide_false by (by intros ?).
    rewrite bool_decide_true by lia.
    by rewrite items_set_items, set_items_twice, list_insert_insert_eq.
  - destruct Href as [-> _].
    rewrite bool_decide_true by done. unfold bind at 1.
    rewrite SecKeychainAddGenericPassword_eq by done.
    rewrite bool_decide_false by (by intros ?).
    unfold bind at 1.
    erewrite SecKeychainItemModifyAttributesAndData_eq; last first.
    { rewrite items_set_items. by apply list_lookup_middle. }
    rewrite bool_decide_false by (by intros ?).
    rewrite bool_decide_true by lia.
    rewrite items_set_items, set_items_twice.
    rewrite insert_app_r_alt by done. by rewrite Nat.sub_diag.
Qed.

(** X16: a save that names a policy does what a save without policy
    followed by a policy update of the same key does, in every keychain and
    also when the policy cannot be applied: the value is written before the
    ACL is touched. *)
Theorem save_with_policy_is_save_then_update (w : world) (N K V : string)
    (require_passphrase : Z) :
  0 <= require_passphrase ->
  envchain_save_value N K V require_passphrase w
  = (envchain_save_value N K V (-1);;
     envchain_update_value_access N K require_passphrase;;
     ret tt) w.
Proof.
  intros Hrp. rewrite envchain_save_value_policy by done.
  unfold bind at 2. rewrite envchain_save_value_eq.
  unfold envchain_update_value_access. rewrite bool_decide_false by lia.
  unfold bind. rewrite envchain_find_value_eq, items_set_items.
  destruct (save_items_lookup N K V (new_item_access (sys w)) (items w))
    as (ref & acc & -> & _ & _).
  rewrite bool_decide_false by done.
  by destruct (envchain_apply_item_access (Some ref) require_passphrase _).
Qed.

Lemma save_with_policy_is_save_then_update_witness :
  envchain_save_value "db" "HOST" "db.internal" 1 prompting_world
  = (envchain_save_value "db" "HOST" "db.internal" (-1);;
     envchain_update_value_access "db" "HOST" 1;;
     ret tt) prompting_world.
Proof.
  apply (save_with_policy_is_save_then_update prompting_world "db" "HOST" "db.internal" 1).
  lia.
Defined.

(** ** Policy updates that cannot be made (envchain_osx.c, lines 114-124, 423-476) *)

Lemma matching_acl_list_valid i a auth j :
  j ∈ SecAccessCopyMatchingACLList_from i a auth ->
  (i <= j)%nat /\ is_Some (a !! (j - i)%nat).
Proof.
  revert i. induction a as [|e r IH]; intros i; simpl; [by intros ?%elem_of_nil|].
  intros Hj.
  assert (j = i \/ j ∈ SecAccessCopyMatchingACLList_from (S i) r auth) as [->|Hr].
  { destruct (bool_decide (auth ∈ acl_authorizations e));
      [by apply elem_of_cons in Hj|by right]. }
  - split; [lia|]. rewrite Nat.sub_diag. by eexists.
  - apply IH in Hr as [Hle Hsome]. split; [lia|].
    replace (j - i)%nat with (S (j - S i)) by lia. done.
Qed.

Lemma decrypt_acl_None a :
  decrypt_acl a = None ->
  SecAccessCopyMatchingACLList a kSecACLAuthorizationDecrypt !! 0%nat = None.
Proof.
  unfold decrypt_acl.
  destruct (SecAccessCopyMatchingACLList a kSecACLAuthorizationDecrypt !! 0%nat)
    as [j|] eqn:Hj; [|done].
  intros Hnone. apply list_elem_of_lookup_2 in Hj.
  apply matching_acl_list_valid in Hj as [_ [e He]].
  rewrite Nat.sub_0_r in He. congruence.
Qed.

(** X17: a policy update that cannot be made ends the program and leaves
    every keychain as it was: with status 10 when the entry has no ACL
    entry for decryption, and with status 1 when the trusted callers are to
    be computed and the path of the executable does not resolve. *)
Theorem policy_update_fatal_errors (w : world) (N K : string) (require_passphrase : Z)
    (it : item) :
  0 <= require_passphrase ->
  entry w N K = Some it ->
  (decrypt_acl (item_access it) = None ->
   exists w',
     envchain_update_value_access N K require_passphrase w = Halt (Exited 10) w'
     /\ stderr w'
        = stderr w ++ [Text ("error: There's no ACL?" +:+ newline); OSStatusText (-1)]
     /\ same_keychains w w')
  /\ (is_Some (decrypt_acl (item_access it)) ->
      require_passphrase ≠ 1 -> self_real_path (sys w) = None ->
      exists w',
        envchain_update_value_access N K require_passphrase w = Halt (Exited 1) w'
        /\ stderr w'
           = stderr w ++ [Text ("Error during retrieve executable path of itself: "
                                +:+ errno_text (sys w) +:+ newline)]
        /\ same_keychains w w').
Proof.
  intros Hrp Hentry. unfold entry in Hentry.
  destruct (find_index (matches (encode N) K) (items w)) as [ref|] eqn:Hfind; [|done].
  assert (envchain_update_value_access N K require_passphrase w
          = (envchain_apply_item_access (Some ref) require_passphrase;; ret 0) w) as ->.
  { unfold envchain_update_value_access. rewrite bool_decide_false by lia.
    unfold bind at 1. rewrite envchain_find_value_eq, Hfind.
    by rewrite bool_decide_false by done. }
  assert (SecKeychainItemCopyAccess (Some ref) w = Ret (noErr, item_access it) w) as Hcopy.
  { unfold SecKeychainItemCopyAccess, bind, gets. cbn [item_at]. by rewrite Hentry. }
  split.
  - intros Hnone%decrypt_acl_None.
    unfold bind at 1. unfold envchain_apply_item_access. unfold bind at 1. rewrite Hcopy.
    rewrite bool_decide_false by (by intros ?). rewrite Hnone.
    eexists. split; [reflexivity|]. split; [|by repeat split].
    cbn [stderr]. by rewrite <- app_assoc.
  - intros [e (acl & Hacl & He)%decrypt_acl_Some] Hp Hreal.
    unfold bind at 1. unfold envchain_apply_item_access. unfold bind at 1. rewrite Hcopy.
    rewrite bool_decide_false by (by intros ?).
    rewrite Hacl, He. rewrite bool_decide_false by done.
    unfold envchain_self_trusted_app_list, envchain_get_self_exec_path,
      envchain_get_real_path, bind, gets. rewrite Hreal.
    eexists. split; [reflexivity|]. by repeat split.
Qed.

Lemma policy_update_fatal_errors_witness :
  exists w',
    envchain_update_value_access "db" "HOST" 0
      (World (System [example_acl] "/usr/local/bin/envchain" None ∅ ∅ true "No such file")
         "envchain" None
         [Item "envchain-db" "HOST" "envchain" "localhost" [example_acl]] ∅ ∅ [] [] [])
    = Halt (Exited 1) w'
    /\ default_keychain w' = [Item "envchain-db" "HOST" "envchain" "localhost" [example_acl]].
Proof.
  destruct (policy_update_fatal_errors
              (World (System [example_acl] "/usr/local/bin/envchain" None ∅ ∅ true
                        "No such file")
                 "envchain" None
                 [Item "envchain-db" "HOST" "envchain" "localhost" [example_acl]]
                 ∅ ∅ [] [] [])
              "db" "HOST" 0
              (Item "envchain-db" "HOST" "envchain" "localhost" [example_acl]))
    as [_ H]; [lia|done|].
  destruct H as (w' & H1 & _ & _ & _ & H2 & _); [by eexists|done|done|].
  exists w'. split; [exact H1|exact H2].
Defined.

(** ** The inferred namespace and the namespace a command uses
    (envchain.c, lines 160-204, 208-256, 282-323, 365-403) *)

Lemma skip_dashes_set_options argv st st' name keys :
  envchain_set_options argv st = Parsed st' (name :: keys) ->
  first_char name ≠ "-"%char ->
  head (skip_dashes argv) = Some name.
Proof.
  intros Hparse Hname. revert st Hparse.
  induction argv as [|arg rest IH]; intros st; [done|].
  cbn [envchain_set_options skip_dashes].
  destruct (bool_decide (2 < argc (arg :: rest))); cbn [negb].
  - case_bool_decide as Hdash.
    + intros [= _ -> ->]. by rewrite bool_decide_false.
    + rewrite (bool_decide_true _ Hdash).
      repeat match goal with
             | |- context [if ?b || ?c then _ else _] => destruct (b || c); [by apply IH|]
             end.
      done.
  - intros [= _ -> ->]. by rewrite bool_decide_false.
Qed.

Lemma skip_dashes_set_access_options argv st st' name keys :
  envchain_set_access_options argv st = Parsed st' (name :: keys) ->
  first_char name ≠ "-"%char ->
  head (skip_dashes argv) = Some name.
Proof.
  intros Hparse Hname. revert st Hparse.
  induction argv as [|arg rest IH]; intros st; [done|].
  cbn [envchain_set_access_options skip_dashes].
  destruct (bool_decide (2 < argc (arg :: rest))); cbn [negb].
  - case_bool_decide as Hdash.
    + intros [= _ -> ->]. by rewrite bool_decide_false.
    + rewrite (bool_decide_true _ Hdash).
      repeat match goal with
             | |- context [if ?b || ?c then _ else _] => destruct (b || c); [by apply IH|]
             end.
      done.
  - intros [= _ -> ->]. by rewrite bool_decide_false.
Qed.

Lemma skip_show_value_targets argv :
  skip_show_value argv = head (list_targets argv).
Proof.
  induction argv as [|arg rest IH]; [done|].
  cbn [skip_show_value]. unfold list_targets. rewrite filter_cons_bool.
  rewrite !bool_decide_strcmp.
  change (bool_decide (arg = "--show-value") || bool_decide (arg = "-v"))
    with (is_value_display_flag arg).
  by destruct (is_value_display_flag arg).
Qed.

(** X18: the namespace that the keychain mapping infers from a command line
    is the namespace the command works on: for [--set] and [--set-access]
    whenever their option loop stops at a namespace that is not empty and
    does not start with a dash, and for [--list] whenever it lists the keys
    of a namespace that is not empty. *)
Theorem inferred_namespace_is_the_one_used (name : string) :
  first_char name ≠ NUL ->
  (forall cmd argv st st' keys,
     cmd ∈ ["--set"; "-s"] ->
     envchain_set_options argv st = Parsed st' (name :: keys) ->
     first_char name ≠ "-"%char ->
     envchain_namespace_from_argv (cmd :: argv) = Some name)
  /\ (forall argv st st' keys,
        envchain_set_access_options argv st = Parsed st' (name :: keys) ->
        first_char name ≠ "-"%char ->
        envchain_namespace_from_argv ("--set-access" :: argv) = Some name)
  /\ (forall cmd argv context w w',
        cmd ∈ ["--list"; "-l"] ->
        envchain_list_options argv {| target := None; show_value := 0 |} w
        = Ret context w' ->
        target context = Some name ->
        envchain_namespace_from_argv (cmd :: argv) = Some name).
Proof.
  intros Hname. split; [|split].
  - intros cmd argv st st' keys Hcmd Hparse Hdash.
    unfold envchain_namespace_from_argv. rewrite !bool_decide_strcmp.
    replace (bool_decide (cmd = "--set") || bool_decide (cmd = "-s")) with true; last first.
    { apply elem_of_cons in Hcmd as [->|Hcmd]; [done|].
      by apply list_elem_of_singleton in Hcmd as ->. }
    cbn [orb]. rewrite (skip_dashes_set_options _ _ _ _ _ Hparse Hdash).
    by rewrite bool_decide_false.
  - intros argv st st' keys Hparse Hdash.
    unfold envchain_namespace_from_argv. rewrite !bool_decide_strcmp.
    rewrite (bool_decide_true ("--set-access" = "--set-access")) by done.
    rewrite orb_true_r. rewrite (skip_dashes_set_access_options _ _ _ _ _ Hparse Hdash).
    by rewrite bool_decide_false.
  - intros cmd argv context w w' Hcmd Hparse Htarget.
    rewrite envchain_list_options_spec in Hparse.
    cbv zeta in Hparse. cbn [target show_value] in Hparse.
    cbv [option_list option_rect] in Hparse. rewrite app_nil_l in Hparse.
    assert (head (list_targets argv) = Some name) as Hhead.
    { destruct (list_targets argv) as [|t [|t2 ts]].
      - injection Hparse as <- _. done.
      - injection Hparse as <- _. done.
      - unfold envchain_abort_with_help, bind, gets, eprint, exit in Hparse. done. }
    unfold envchain_namespace_from_argv. rewrite !bool_decide_strcmp.
    replace (bool_decide (cmd = "--list") || bool_decide (cmd = "-l")) with true; last first.
    { apply elem_of_cons in Hcmd as [->|Hcmd]; [done|].
      by apply list_elem_of_singleton in Hcmd as ->. }
    assert (bool_decide (cmd = "--set") || bool_decide (cmd = "-s")
            || bool_decide (cmd = "--set-access") = false) as ->.
    { apply elem_of_cons in Hcmd as [->|Hcmd]; [done|].
      by apply list_elem_of_singleton in Hcmd as ->. }
    assert (bool_decide (cmd = "--unset") = false) as ->.
    { apply elem_of_cons in Hcmd as [->|Hcmd]; [done|].
      by apply list_elem_of_singleton in Hcmd as ->. }
    rewrite skip_show_value_targets, Hhead. by rewrite bool_decide_false.
Qed.

Lemma inferred_namespace_is_the_one_used_witness :
  envchain_namespace_from_argv ["--set"; "-p"; "-n"; "db"; "HOST"] = Some "db"
  /\ envchain_namespace_from_argv ["--set-access"; "-P"; "db"; "HOST"] = Some "db"
  /\ envchain_namespace_from_argv ["-l"; "-v"; "db"] = Some "db".
Proof.
  destruct (inferred_namespace_is_the_one_used "db") as (Hset & Haccess & Hlist); [done|].
  split; [|split].
  - apply (Hset "--set" ["-p"; "-n"; "db"; "HOST"] (0, -1) (1, 1) ["HOST"]);
      [by left|reflexivity|done].
  - apply (Haccess ["-P"; "db"; "HOST"] (-1) 0 ["HOST"]); [reflexivity|done].
  - apply (Hlist "-l" ["-v"; "db"] {| target := Some "db"; show_value := 1 |}
             empty_world empty_world); [by right; left|reflexivity|done].
Defined.

(** X19: with exactly two arguments [--set] reads no option: the first
    argument is the namespace even when it starts with a dash, and the value
    typed is stored under it, while the namespace inferred for the keychain
    mapping is the second argument. *)
Theorem set_two_arguments_takes_a_flag_as_namespace (w : world) (flag key line : string)
    (rest : list (option string)) :
  first_char flag = "-"%char ->
  first_char key ≠ "-"%char -> first_char key ≠ NUL ->
  stdin w = Some line :: rest ->
  exists w',
    envchain_set [flag; key] w = Ret 0 w'
    /\ stored w' flag key = Some line
    /\ envchain_namespace_from_argv ["--set"; flag; key] = Some key.
Proof.
  intros Hflag Hkey Hnul Hin. unfold envchain_set. cbv zeta.
  cbn [envchain_set_options]. rewrite (bool_decide_false (2 < _)) by (by vm_compute).
  cbn [negb]. rewrite bool_decide_false by (by vm_compute).
  destruct (envchain_set_keys_echo flag [key] [line] rest w)
    as (w' & -> & Hitems & _); [done|done|simpl; lia|].
  exists w'. split; [done|].
  apply typed_entries in Hitems as [Hstored _]; [|done]. split.
  - apply (Hstored 0%nat); [done|done|]. simpl. apply not_elem_of_nil.
  - unfold envchain_namespace_from_argv. rewrite !bool_decide_strcmp.
    cbn [skip_dashes]. rewrite (bool_decide_true _ Hflag).
    rewrite (bool_decide_false (first_char key = "-"%char)) by done.
    simpl. by rewrite bool_decide_false.
Qed.

Lemma set_two_arguments_takes_a_flag_as_namespace_witness :
  exists w',
    envchain_set ["-n"; "TOKEN"] (session true ["s3cret"]) = Ret 0 w'
    /\ stored w' "-n" "TOKEN" = Some "s3cret"
    /\ envchain_namespace_from_argv ["--set"; "-n"; "TOKEN"] = Some "TOKEN".
Proof.
  apply (set_two_arguments_takes_a_flag_as_namespace (session true ["s3cret"])
           "-n" "TOKEN" "s3cret" []); done.
Defined.

(** ** Choosing the keychain (envchain.c, lines 405-421, 425-488) *)

Lemma envchain_set_keychain_None name w :
  envchain_set_keychain None
    (World (sys w) name (envchain_keychain w) (default_keychain w) (keychain_files w)
       (environ w) (stdin w) (stdout w) (stderr w))
  = Ret 0 (started name w).
Proof. done. Qed.

(** X20: with [--keychain-dir DIR], or with ENVCHAIN_KEYCHAIN_DIR set to DIR
    and no global option, a command line from which the namespace N is
    inferred runs on the keychain DIR/N.keychain-db when that file exists,
    and on the default keychain, without any message, when it does not;
    ENVCHAIN_KEYCHAIN plays no part. *)
Theorem keychain_dir_maps_the_namespace (w : world) (prog dir cmd N : string)
    (rest : list string) :
  first_char dir ≠ NUL ->
  cmd ∉ global_option_names ->
  envchain_namespace_from_argv (cmd :: rest) = Some N ->
  let path := dir +:+ "/" +:+ N +:+ ".keychain-db" in
  let run :=
    if bool_decide (path ∈ existing_paths (sys w))
    then (envchain_set_keychain (Some path);; main_dispatch (cmd :: rest)) (started prog w)
    else main_dispatch (cmd :: rest) (started prog w) in
  main (prog :: "--keychain-dir" :: dir :: cmd :: rest) w = run
  /\ (environ w !! "ENVCHAIN_KEYCHAIN_DIR" = Some dir -> main (prog :: cmd :: rest) w = run).
Proof.
  intros Hdir Hcmd Hns path run.
  apply not_elem_of_cons_strcmp in Hcmd as [H1 Hcmd].
  apply not_elem_of_cons_strcmp in Hcmd as [H2 Hcmd].
  apply not_elem_of_cons_strcmp in Hcmd as [H3 _].
  assert (forall w0 : world,
    sys w0 = sys w ->
    (let* keychain_target :=
       (let* auto_keychain_target := envchain_build_namespace_keychain_path dir N in
        match auto_keychain_target with
        | Some path => ret (Some path)
        | None => ret None
        end) in
     let* r := envchain_set_keychain keychain_target in
     if bool_decide (r ≠ 0) then ret 1 else main_dispatch (cmd :: rest)) w0
    = if bool_decide (path ∈ existing_paths (sys w))
      then (envchain_set_keychain (Some path);; main_dispatch (cmd :: rest)) w0
      else (envchain_set_keychain None;; main_dispatch (cmd :: rest)) w0) as Hmap.
  { intros w0 Hsys. unfold envchain_build_namespace_keychain_path, gets. cbv zeta.
    unfold bind at 1. unfold bind at 1. unfold bind at 1. cbv beta.
    rewrite Hsys. fold path.
    destruct (bool_decide (path ∈ existing_paths (sys w))); cbn [negb]; unfold ret at 1.
    - unfold ret at 1. unfold bind.
      destruct (envchain_set_keychain (Some path) w0) as [r w1|h w1] eqn:Hset; [|done].
      assert (r = 0) as ->; [|by rewrite bool_decide_false by (by intros ?)].
      revert Hset. unfold envchain_set_keychain, bind, ret.
      repeat (case_match; try done); by intros [= <- _].
    - unfold ret at 1. unfold bind. cbn. by rewrite bool_decide_false by (by intros ?). }
  split.
  - unfold main. unfold bind at 1.
    rewrite bool_decide_false by (unfold argc; simpl length; lia).
    unfold bind at 1. cbn [tail main_options].
    rewrite (bool_decide_false (strcmp "--keychain-dir" "--keychain" = 0)) by (by vm_compute).
    rewrite (bool_decide_false (strcmp "--keychain-dir" "--keychain-from-env" = 0))
      by (by vm_compute).
    rewrite (bool_decide_true (strcmp "--keychain-dir" "--keychain-dir" = 0))
      by (by vm_compute).
    rewrite H1, H2, H3. unfold ret at 1.
    cbn [keychain_target keychain_dir use_keychain_from_env].
    rewrite (bool_decide_true (None = None)) by done.
    rewrite (bool_decide_false (0 ≠ 0)) by (by intros ?).
    cbn [andb]. unfold bind at 1. unfold ret at 1.
    rewrite (bool_decide_false (Some dir = None)) by done.
    unfold bind at 1. unfold ret at 1.
    rewrite (bool_decide_true _ Hdir), Hns.
    rewrite Hmap by done. unfold run.
    destruct (bool_decide (path ∈ existing_paths (sys w))); [done|].
    unfold bind. by rewrite envchain_set_keychain_None.
  - intros Henv. unfold main. unfold bind at 1.
    rewrite bool_decide_false by (unfold argc; simpl length; lia).
    unfold bind at 1. cbn [tail main_options].
    rewrite H1, H2, H3. unfold ret at 1.
    cbn [keychain_target keychain_dir use_keychain_from_env].
    rewrite (bool_decide_true (None = None)) by done.
    rewrite (bool_decide_false (0 ≠ 0)) by (by intros ?).
    cbn [andb]. unfold bind at 1. unfold ret at 1. unfold bind at 1.
    unfold getenv, gets. cbn [environ]. rewrite Henv.
    rewrite (bool_decide_true _ Hdir), Hns.
    rewrite Hmap by done. unfold run.
    destruct (bool_decide (path ∈ existing_paths (sys w))); [done|].
    unfold bind. by rewrite envchain_set_keychain_None.
Qed.

Lemma keychain_dir_maps_the_namespace_witness :
  main ["envchain"; "--keychain-dir"; "/kc"; "--list"; "-v"; "db"] mapped_world
  = (envchain_set_keychain (Some "/kc/db.keychain-db");;
     main_dispatch ["--list"; "-v"; "db"]) (started "envchain" mapped_world)
  /\ main ["envchain"; "--keychain-dir"; "/kc"; "--list"; "-v"; "web"] mapped_world
     = main_dispatch ["--list"; "-v"; "web"] (started "envchain" mapped_world).
Proof.
  split.
  - destruct (keychain_dir_maps_the_namespace mapped_world "envchain" "/kc" "--list" "db"
                ["-v"; "db"]) as [H _].
    + done.
    + apply (bool_decide_unpack _). by vm_compute.
    + reflexivity.
    + exact H.
  - destruct (keychain_dir_maps_the_namespace mapped_world "envchain" "/kc" "--list" "web"
                ["-v"; "web"]) as [H _].
    + done.
    + apply (bool_decide_unpack _). by vm_compute.
    + reflexivity.
    + exact H.
Defined.

(** [envchain_set_keychain] returns 0 whenever it returns. *)
Lemma envchain_set_keychain_returns target (k : M Z) w :
  (let* r := envchain_set_keychain target in
   if bool_decide (r ≠ 0) then ret 1 else k) w
  = (envchain_set_keychain target;; k) w.
Proof.
  unfold bind.
  destruct (envchain_set_keychain target w) as [r w1|h w1] eqn:Hset; [|done].
  assert (r = 0) as ->; [|by rewrite bool_decide_false by (by intros ?)].
  revert Hset. unfold envchain_set_keychain, bind, ret.
  repeat (case_match; try done); by intros [= <- _].
Qed.

(** X21: a keychain named with [--keychain], or with ENVCHAIN_KEYCHAIN under
    [--keychain-from-env], is the one the command runs on, whatever
    ENVCHAIN_KEYCHAIN_DIR says: no namespace keychain is looked for. *)
Theorem named_keychain_takes_precedence (w : world) (prog target cmd : string)
    (rest : list string) :
  cmd ∉ global_option_names ->
  let run :=
    (envchain_set_keychain (Some target);; main_dispatch (cmd :: rest)) (started prog w) in
  main (prog :: "--keychain" :: target :: cmd :: rest) w = run
  /\ (environ w !! "ENVCHAIN_KEYCHAIN" = Some target ->
      main (prog :: "--keychain-from-env" :: cmd :: rest) w = run).
Proof.
  intros Hcmd run.
  apply not_elem_of_cons_strcmp in Hcmd as [H1 Hcmd].
  apply not_elem_of_cons_strcmp in Hcmd as [H2 Hcmd].
  apply not_elem_of_cons_strcmp in Hcmd as [H3 _].
  split.
  - unfold main. unfold bind at 1.
    rewrite bool_decide_false by (unfold argc; simpl length; lia).
    unfold bind at 1. cbn [tail main_options].
    rewrite (bool_decide_true (strcmp "--keychain" "--keychain" = 0)) by (by vm_compute).
    rewrite H1, H2, H3. unfold ret at 1.
    cbn [keychain_target keychain_dir use_keychain_from_env].
    rewrite (bool_decide_false (Some target = None)) by done.
    cbn [andb]. unfold bind at 1. unfold ret at 1.
    rewrite (bool_decide_true (None = None)) by done.
    unfold bind at 1. unfold getenv, gets.
    unfold bind at 1. unfold ret at 1.
    by rewrite envchain_set_keychain_returns.
  - intros Henv. unfold main. unfold bind at 1.
    rewrite bool_decide_false by (unfold argc; simpl length; lia).
    unfold bind at 1. cbn [tail main_options].
    rewrite (bool_decide_false (strcmp "--keychain-from-env" "--keychain" = 0))
      by (by vm_compute).
    rewrite (bool_decide_true (strcmp "--keychain-from-env" "--keychain-from-env" = 0))
      by (by vm_compute).
    rewrite H1, H2, H3. unfold ret at 1.
    cbn [keychain_target keychain_dir use_keychain_from_env].
    rewrite (bool_decide_true (None = None)) by done.
    rewrite (bool_decide_true (1 ≠ 0)) by done.
    cbn [andb]. unfold bind at 1. unfold getenv at 1, gets. cbn [environ]. rewrite Henv.
    unfold bind at 1. unfold getenv, gets.
    unfold bind at 1. unfold ret at 1.
    by rewrite envchain_set_keychain_returns.
Qed.

Lemma named_keychain_takes_precedence_witness :
  main ["envchain"; "--keychain"; "/kc/db.keychain-db"; "web"; "bash"] mapped_world
  = (envchain_set_keychain (Some "/kc/db.keychain-db");;
     main_dispatch ["web"; "bash"]) (started "envchain" mapped_world).
Proof.
  destruct (named_keychain_takes_precedence mapped_world "envchain" "/kc/db.keychain-db"
              "web" ["bash"]) as [H _].
  - apply (bool_decide_unpack _). by vm_compute.
  - exact H.
Defined.

(** ** Exec mode (envchain.c, lines 327-363) *)

Lemma keeps_items_exec_value_callback : keeps_items envchain_exec_value_callback.
Proof.
  intros key value [] w [] w'. rewrite envchain_exec_value_callback_eq.
  intros [= <-]. done.
Qed.

Lemma exec_values pairs w :
  fold_each (fun kv data => envchain_exec_value_callback kv.1 kv.2 data) pairs tt w
  = Ret tt (with_environ (foldl install (environ w) pairs) w).
Proof.
  revert w. induction pairs as [|[k v] rest IH]; intros w.
  - simpl. by rewrite with_environ_id.
  - rewrite fold_each_cons. cbn [fst snd]. rewrite envchain_exec_value_callback_eq.
    by rewrite IH.
Qed.

Lemma exec_namespace name w :
  exists w',
    (envchain_search_values name envchain_exec_value_callback tt;; ret tt) w = Ret tt w'
    /\ same_but_environ_and_stderr w w'
    /\ stderr w'
       = stderr w ++ (if bool_decide (retrieved w name = [])
                      then [namespace_not_defined_warning (envchain_name w) name] else []).
Proof.
  unfold bind at 1.
  rewrite envchain_search_values_eq by apply keeps_items_exec_value_callback.
  destruct (retrieved w name) as [|kv pairs] eqn:Hret.
  - eexists. split; [reflexivity|]. split; [by repeat split|].
    by rewrite bool_decide_true.
  - unfold bind. rewrite exec_values. eexists. split; [reflexivity|].
    split; [by repeat split|]. rewrite bool_decide_false by done.
    cbn. by rewrite app_nil_r.
Qed.

Lemma exec_namespaces names w0 w :
  same_but_environ_and_stderr w0 w ->
  exists w',
    for_each
      (fun name => envchain_search_values name envchain_exec_value_callback tt;; ret tt)
      names w = Ret tt w'
    /\ same_but_environ_and_stderr w0 w'
    /\ stderr w'
       = stderr w ++ (namespace_not_defined_warning (envchain_name w0)
                        <$> undefined_namespaces w0 names).
Proof.
  revert w. induction names as [|name rest IH]; intros w Hw.
  - exists w. split; [done|]. split; [done|]. by rewrite app_nil_r.
  - rewrite for_each_cons. cbv beta.
    destruct Hw as (Hs0 & Hout0 & Hin0 & Hname0).
    destruct (exec_namespace name w) as (w1 & -> & (Hs1 & Hout1 & Hin1 & Hname1) & Herr1).
    destruct (IH w1) as (w2 & -> & Hw2 & Herr2).
    { split; [by eapply same_keychains_trans|]. by rewrite Hout1, Hin1, Hname1. }
    exists w2. split; [done|]. split; [done|].
    rewrite Herr2, Herr1, Hname0, <- app_assoc. f_equal.
    unfold undefined_namespaces. rewrite filter_cons_bool.
    rewrite (retrieved_same w0 w) by done.
    by destruct (bool_decide (retrieved w0 name = [])).
Qed.

(** X22: exec mode never changes a keychain and never stops at a namespace
    without entries: it prints one warning for each such namespace, in the
    order listed, and then starts the program with the arguments given; when
    the program cannot be started it prints the reason and returns 1. *)
Theorem exec_warns_and_starts_the_program (w : world) (names exe : string)
    (args : list string) :
  exists w',
    same_but_environ_and_stderr w w'
    /\ stderr w'
       = stderr w ++ (namespace_not_defined_warning (envchain_name w)
                        <$> undefined_namespaces w (strsep_all names ","%char))
    /\ envchain_exec (names :: exe :: args) w
       = if bool_decide (exe ∈ programs (sys w))
         then Halt (Replaced exe (exe :: args)) w'
         else (eprint (Text ("execvp failed: " +:+ errno_text (sys w) +:+ newline));;
               ret 1) w'.
Proof.
  destruct (exec_namespaces (strsep_all names ","%char) w w)
    as (w' & Hloop & Hsame & Herr); [by repeat split|].
  exists w'. split; [done|]. split; [done|].
  unfold envchain_exec.
  rewrite bool_decide_false by (unfold argc; simpl length; lia).
  unfold bind at 1. rewrite Hloop. cbv zeta. unfold bind at 1. unfold execvp.
  destruct Hsame as ((Hsys & _) & _). rewrite Hsys.
  destruct (bool_decide (exe ∈ programs (sys w))); [done|].
  rewrite bool_decide_true by lia. unfold bind at 1, gets. by rewrite Hsys.
Qed.

(** ** What a save makes visible (envchain_osx.c, lines 277-397, 478-527) *)

Lemma elem_of_listed_namespaces w n :
  n ∈ listed_namespaces w <-> n ∈ collected_names w.
Proof.
  unfold listed_namespaces.
  destruct (skip_repeats_None_sorted (qsort envchain_sortcmp_str (collected_names w)))
    as [_ ->]; [apply qsort_sorted|].
  by rewrite qsort_perm.
Qed.

(** X23: once a value is saved under a namespace and a key, the namespace is
    among those the enumeration reports and the pair of key and value is
    among those the namespace yields to [--list] and to exec mode. *)
Theorem saved_value_is_listed_and_retrieved (w : world) (N K V : string) :
  is_cstr N -> is_cstr K -> is_cstr V ->
  exists w',
    envchain_save_value N K V (-1) w = Ret tt w'
    /\ N ∈ listed_namespaces w'
    /\ (K, V) ∈ retrieved w' N.
Proof.
  intros HN HK HV. eexists. split; [apply envchain_save_value_eq|].
  destruct (save_items_lookup N K V (new_item_access (sys w)) (items w))
    as (ref & acc & _ & Hit & _).
  apply list_elem_of_lookup_2 in Hit.
  set (it := Item (encode N) K ENVCHAIN_ITEM_DESCRIPTION V acc) in *.
  rewrite elem_of_listed_namespaces. unfold collected_names, retrieved.
  rewrite items_set_items. split.
  - apply list_elem_of_fmap. exists it. split.
    + rewrite collected_name_surfaced. unfold surfaced. cbn [item_service it].
      by rewrite has_marker_encode, strip_marker_encode.
    + apply list_elem_of_filter. split; [|done]. apply Is_true_true. by apply bool_decide_true.
  - apply list_elem_of_fmap. exists it. split.
    + cbn [item_account item_data it]. by rewrite HK, HV.
    + apply list_elem_of_filter. split; [|done]. apply Is_true_true. by apply bool_decide_true.
Qed.

Lemma saved_value_is_listed_and_retrieved_witness :
  exists w',
    envchain_save_value "web" "TOKEN" "s3cret" (-1) db_world = Ret tt w'
    /\ "web" ∈ listed_namespaces w'
    /\ ("TOKEN", "s3cret") ∈ retrieved w' "web".
Proof.
  apply (saved_value_is_listed_and_retrieved db_world "web" "TOKEN" "s3cret");
    reflexivity.
Defined.

Lemma strsep_all_cons s delim : exists t ts, strsep_all s delim = t :: ts.
Proof.
  destruct s as [|c r]; simpl; [by eexists _, _|].
  destruct (decide (c = delim)); [by eexists _, _|].
  destruct (strsep_all r delim); by eexists _, _.
Qed.

Lemma join_cons_char delim c t ts :
  join delim (String c t :: ts) = String c (join delim (t :: ts)).
Proof. by destruct ts. Qed.

Lemma strsep_all_join s delim : join delim (strsep_all s delim) = s.
Proof.
  induction s as [|c r IH]; [done|]. simpl.
  destruct (strsep_all_cons r delim) as (t & ts & Hr). rewrite Hr in *.
  destruct (decide (c = delim)) as [->|Hne].
  - change (join delim (EmptyString :: t :: ts))
      with (String delim (join delim (t :: ts))). by rewrite IH.
  - by rewrite join_cons_char, IH.
Qed.

Lemma strsep_all_no_delim s delim :
  Forall (fun t => strchr t delim = false) (strsep_all s delim).
Proof.
  induction s as [|c r IH]; simpl; [by repeat constructor|].
  destruct (decide (c = delim)) as [->|Hne]; [by constructor|].
  destruct (strsep_all_cons r delim) as (t & ts & Hr). rewrite Hr in *.
  apply Forall_cons in IH as [Ht Hts]. constructor; [|done].
  simpl. by rewrite decide_False.
Qed.

Lemma strsep_all_single s delim : strchr s delim = false -> strsep_all s delim = [s].
Proof.
  induction s as [|c r IH]; [done|]. simpl.
  destruct (decide (c = delim)); [done|]. intros Hr. by rewrite IH.
Qed.

(** X24: the namespaces exec mode reads are the pieces of its first argument
    between the commas: written with commas between them they give the
    argument back, none of them holds a comma, and when the keychain mapping
    infers a namespace from the command line, that namespace is the only one
    read. *)
Theorem exec_reads_the_comma_separated_namespaces (names : string) :
  join ","%char (strsep_all names ","%char) = names
  /\ Forall (fun name => strchr name ","%char = false) (strsep_all names ","%char)
  /\ (forall rest N,
        names ∉ command_names ->
        envchain_namespace_from_argv (names :: rest) = Some N ->
        strsep_all names ","%char = [N]).
Proof.
  split; [apply strsep_all_join|]. split; [apply strsep_all_no_delim|].
  intros rest N Hcmd. unfold envchain_namespace_from_argv.
  rewrite !bool_decide_strcmp.
  assert (forall c, c ∈ command_names -> bool_decide (names = c) = false) as Hc.
  { intros c Hin. apply bool_decide_false. by intros ->. }
  rewrite !Hc by (unfold command_names; set_solver).
  cbn [orb]. case_bool_decide; [|done].
  destruct (strchr names ","%char) eqn:Hcomma; [done|]. cbn [negb].
  case_bool_decide; [done|]. intros [= <-]. by apply strsep_all_single.
Qed.

Lemma exec_reads_the_comma_separated_namespaces_witness :
  strsep_all "db" ","%char = ["db"].
Proof.
  destruct (exec_reads_the_comma_separated_namespaces "db") as (_ & _ & H).
  apply (H ["bash"] "db"); [|reflexivity].
  apply (bool_decide_unpack _). by vm_compute.
Defined.

(** X25: when the keychain named with [--keychain] cannot be opened, the run
    ends with status 10 before the command is looked at: the failure and the
    status text are printed, nothing else is, and no keychain is changed. *)
Theorem unopenable_keychain_stops_the_run (w : world) (prog target cmd : string)
    (rest : list string) (status : Z) :
  cmd ∉ global_option_names ->
  first_char target ≠ NUL ->
  SecKeychainOpen target (started prog w) = Ret status (started prog w) ->
  status ≠ noErr ->
  exists w',
    main (prog :: "--keychain" :: target :: cmd :: rest) w = Halt (Exited 10) w'
    /\ stderr w'
       = stderr w ++ [Text (prog +:+ ": failed to open keychain `" +:+ target +:+ "`"
                            +:+ newline);
                      OSStatusText status]
    /\ stdout w' = stdout w
    /\ default_keychain w' = default_keychain w
    /\ keychain_files w' = keychain_files w.
Proof.
  intros Hcmd Htarget Hopen Hstatus.
  apply not_elem_of_cons_strcmp in Hcmd as [H1 Hcmd].
  apply not_elem_of_cons_strcmp in Hcmd as [H2 Hcmd].
  apply not_elem_of_cons_strcmp in Hcmd as [H3 _].
  unfold main. unfold bind at 1.
  rewrite bool_decide_false by (unfold argc; simpl length; lia).
  unfold bind at 1. cbn [tail main_options].
  rewrite (bool_decide_true (strcmp "--keychain" "--keychain" = 0)) by (by vm_compute).
  rewrite H1, H2, H3. unfold ret at 1.
  cbn [keychain_target keychain_dir use_keychain_from_env].
  rewrite (bool_decide_false (Some target = None)) by done.
  cbn [andb]. unfold bind at 1. unfold ret at 1.
  rewrite (bool_decide_true (None = None)) by done.
  unfold bind at 1. unfold getenv, gets.
  unfold bind at 1. unfold ret at 1.
  rewrite envchain_set_keychain_returns.
  unfold bind at 1. unfold envchain_set_keychain. unfold bind at 1.
  rewrite bool_decide_false by done. unfold bind at 1. unfold bind at 1.
  change (World (sys _) (envchain_name _) None (default_keychain _) (keychain_files _)
            (environ _) (stdin _) (stdout _) (stderr _)) with (started prog w).
  rewrite Hopen. rewrite bool_decide_true by done.
  eexists. split; [reflexivity|]. cbn. split; [by rewrite <- app_assoc|done].
Qed.

Lemma unopenable_keychain_stops_the_run_witness :
  exists w',
    main ["envchain"; "--keychain"; "/kc/web.keychain-db"; "--list"] mapped_world
    = Halt (Exited 10) w'
    /\ stdout w' = [].
Proof.
  destruct (unopenable_keychain_stops_the_run mapped_world "envchain" "/kc/web.keychain-db"
              "--list" [] errSecNoSuchKeychain) as (w' & H1 & _ & H2 & _).
  - apply (bool_decide_unpack _). by vm_compute.
  - done.
  - reflexivity.
  - done.
  - exists w'. split; [exact H1|exact H2].
Defined.

(** ** Option flags (envchain.c, lines 168-187, 289-304) *)

Lemma argc_flags (flag : string) (flags : list string) (N K : string) (keys : list string) :
  bool_decide (2 < argc (flag :: flags ++ N :: K :: keys)) = true.
Proof.
  apply bool_decide_true. unfold argc. simpl length. rewrite length_app. simpl length. lia.
Qed.

Lemma envchain_set_options_flags flags N K keys st :
  Forall (fun flag => flag ∈ set_option_names) flags ->
  first_char N ≠ "-"%char ->
  envchain_set_options (flags ++ N :: K :: keys) st
  = Parsed (if existsb is_noecho_flag flags then 1 else st.1, last_policy flags st.2)
      (N :: K :: keys).
Proof.
  intros Hflags HN. revert st. induction Hflags as [|flag flags Hflag _ IH]; intros st.
  - rewrite app_nil_l, envchain_set_options_namespace by done. by destruct st.
  - change ((flag :: flags) ++ N :: K :: keys) with (flag :: flags ++ N :: K :: keys).
    cbn [envchain_set_options]. rewrite argc_flags. cbn [negb].
    rewrite !bool_decide_strcmp. unfold set_option_names in Hflag.
    repeat (apply elem_of_cons in Hflag as [->|Hflag];
            [rewrite !IH; cbn [existsb];
             destruct st, (existsb is_noecho_flag flags); reflexivity|]).
    by apply elem_of_nil in Hflag.
Qed.

Lemma envchain_set_access_options_flags flags N K keys policy :
  Forall (fun flag => flag ∈ set_access_option_names) flags ->
  first_char N ≠ "-"%char ->
  envchain_set_access_options (flags ++ N :: K :: keys) policy
  = Parsed (last_policy flags policy) (N :: K :: keys).
Proof.
  intros Hflags HN. revert policy.
  induction Hflags as [|flag flags Hflag _ IH]; intros policy.
  - rewrite app_nil_l. cbn [envchain_set_access_options].
    destruct (bool_decide (2 < argc (N :: K :: keys))); [|done]. cbn [negb].
    by rewrite bool_decide_true.
  - change ((flag :: flags) ++ N :: K :: keys) with (flag :: flags ++ N :: K :: keys).
    cbn [envchain_set_access_options]. rewrite argc_flags. cbn [negb].
    rewrite !bool_decide_strcmp. unfold set_access_option_names in Hflag.
    repeat (apply elem_of_cons in Hflag as [->|Hflag]; [by rewrite !IH|]).
    by apply elem_of_nil in Hflag.
Qed.

(** X26: of the option flags before the namespace the last policy flag is
    the one in force, and one noecho flag anywhere among them turns echo
    off: [--set] runs its key loop, and [--set-access] its update loop, with
    the policy of the last of -p and -P; without any, [--set] leaves the
    policy unspecified. *)
Theorem last_policy_flag_wins (w : world) (flags : list string) (N K : string)
    (keys : list string) :
  first_char N ≠ "-"%char ->
  (Forall (fun flag => flag ∈ set_option_names) flags ->
   envchain_set (flags ++ N :: K :: keys) w
   = envchain_set_keys N (K :: keys) (if existsb is_noecho_flag flags then 1 else 0)
       (last_policy flags (-1)) w)
  /\ (Forall (fun flag => flag ∈ set_access_option_names) flags ->
      0 <= last_policy flags (-1) ->
      envchain_set_access (flags ++ N :: K :: keys) w
      = envchain_set_access_keys N (K :: keys) (last_policy flags (-1)) 0 w).
Proof.
  intros HN. split.
  - intros Hflags. unfold envchain_set. cbv zeta.
    rewrite envchain_set_options_flags by done. cbn [fst snd].
    by rewrite argc_keys.
  - intros Hflags Hpolicy. unfold envchain_set_access. cbv zeta.
    rewrite envchain_set_access_options_flags by done.
    rewrite argc_keys by done. by rewrite bool_decide_false by lia.
Qed.

Lemma last_policy_flag_wins_witness :
  envchain_set ["-p"; "-n"; "-P"; "db"; "HOST"] db_world
  = envchain_set_keys "db" ["HOST"] 1 0 db_world
  /\ envchain_set_access ["-P"; "--require-passphrase"; "db"; "HOST"] db_world
     = envchain_set_access_keys "db" ["HOST"] 1 0 db_world.
Proof.
  destruct (last_policy_flag_wins db_world ["-p"; "-n"; "-P"] "db" "HOST" [])
    as [Hset _]; [done|].
  destruct (last_policy_flag_wins db_world ["-P"; "--require-passphrase"] "db" "HOST" [])
    as [_ Haccess]; [done|].
  split.
  - apply Hset. repeat constructor; apply (bool_decide_unpack _); by vm_compute.
  - apply Haccess; [|by vm_compute].
    repeat constructor; apply (bool_decide_unpack _); by vm_compute.
Defined.
